(** * swagger-mixin: the mixer package, embedded and verified

    The development follows [mixer/mixer.go].  Documents are values of the
    go-openapi [spec] types; the parts of those types that the mixer reads
    or writes are modelled here, the rest is carried along opaquely.

    - Go maps are association lists with pairwise distinct keys; the order
      of the list is the order in which one [range] loop visits the entries,
      so a statement quantified over all documents covers every iteration
      order the runtime may pick.  A [nil] map is [None].  The maps of
      different documents are different map objects, so a document is
      passed by value and the primary after a call is returned.
    - [*spec.Operation], [*spec.Responses] and [*spec.Response] are
      locations in a heap, because the mixer copies path items (and with
      them these pointers) from a mixin into the primary and then writes
      through them.
    - A run-time panic (nil dereference, write to a nil map) is a result of
      its own. *)

From Stdlib Require Import Ascii String DecimalString DecimalNat.
From stdpp Require Import base option list strings gmap.

Local Open Scope string_scope.
Local Open Scope list_scope.

(** ** Panics and the result monad *)

Inductive panic :=
  | NilDeref       (* invalid memory address or nil pointer dereference *)
  | NilMapWrite    (* assignment to entry in nil map *)
  | Dangling.      (* a location without an object; no Go value is like that *)

Inductive res (A : Type) :=
  | Ok (a : A)
  | Panic (e : panic).
Arguments Ok {A} a.
Arguments Panic {A} e.

#[global] Instance res_ret : MRet res := λ A a, Ok a.
#[global] Instance res_bind : MBind res := λ A B f m,
  match m with Ok a => f a | Panic e => Panic e end.

Definition panics {A} (r : res A) : Prop := ∃ e, r = Panic e.

(** [for _, a := range l { body }] over the entries [l], threading the
    state; a [continue] is an early [Ok] of the body. *)
Fixpoint for_each {A S} (body : A → S → res S) (l : list A) (s : S) : res S :=
  match l with
  | [] => Ok s
  | a :: l' => s' ← body a s; for_each body l' s'
  end.

(** ** Go maps *)

Section alist.
Context {K V : Type} `{EqDecision K}.

Fixpoint alist_get (l : list (K * V)) (k : K) : option V :=
  match l with
  | [] => None
  | (k', v) :: l' => if decide (k' = k) then Some v else alist_get l' k
  end.

Fixpoint alist_set (l : list (K * V)) (k : K) (v : V) : list (K * V) :=
  match l with
  | [] => [(k, v)]
  | (k', v') :: l' =>
      if decide (k' = k) then (k, v) :: l' else (k', v') :: alist_set l' k v
  end.
End alist.

(** A map value: [None] is the nil map. *)
Definition gomap (K V : Type) : Type := option (list (K * V)).

Section gomap.
Context {K V : Type} `{EqDecision K}.

(** The entries a [range] loop visits; none for a nil map. *)
Definition range (m : gomap K V) : list (K * V) := default [] m.

Definition keys (m : gomap K V) : list K := (range m).*1.

(** [v, exists := m[k]]; reading a nil map finds nothing. *)
Definition map_get (m : gomap K V) (k : K) : option V := alist_get (range m) k.

(** [m[k] = v]; writing a nil map panics. *)
Definition map_set (m : gomap K V) (k : K) (v : V) : res (gomap K V) :=
  match m with
  | None => Panic NilMapWrite
  | Some l => Ok (Some (alist_set l k v))
  end.

End gomap.

(** ** Unsigned integers

    [uint] is 32 or 64 bits wide, depending on the platform; the width
    taken here is 64.  [skipped++] wraps around. *)

Definition uint_modulus : N := 2 ^ 64.
Definition uint_incr (n : N) : N := ((n + 1) mod uint_modulus)%N.

(** ** The document model (go-openapi/spec) *)

Definition loc := positive.

(** Schema and parameter nodes are stored and copied but never inspected
    by the mixer; a node is represented by its serialized text. *)
Definition Schema := string.
Definition Param := string.        (* spec.Parameter *)

Module Response.
(** [Ref] is the URL of [rs.Ref.Ref.GetURL()], [None] when that is nil. *)
Record t := mk { Description : string; Ref : option string }.
End Response.

Module Responses.
Record t := mk {
  Default : option loc;                        (* *Response *)
  StatusCodeResponses : gomap Z Response.t     (* map[int]Response *)
}.
End Responses.

(** Of the fields of an operation that the mixer never touches,
    [Summary] stands for all. *)
Module Operation.
Record t := mk {
  Summary : string;
  ID : string;                                 (* operationId *)
  Responses : option loc                       (* *Responses *)
}.
End Operation.

Module PathItem.
Record t := mk {
  Get : option loc; Put : option loc; Post : option loc;
  Delete : option loc; Options : option loc; Head : option loc;
  Patch : option loc                           (* all *Operation *)
}.
End PathItem.

Module Paths.
Record t := mk { Paths : gomap string PathItem.t }.
End Paths.

Module Swagger.
Record t := mk {
  Paths : option Paths.t;                      (* *Paths, nil is None *)
  Definitions : gomap string Schema;
  Parameters : gomap string Param;
  Responses : gomap string Response.t
}.
End Swagger.

(** ** The heap *)

Record heap := Heap {
  h_operation : gmap loc Operation.t;
  h_responses : gmap loc Responses.t;
  h_response : gmap loc Response.t
}.

Definition load {A} (m : gmap loc A) (l : loc) : res A :=
  match m !! l with Some a => Ok a | None => Panic Dangling end.

(** Dereference of a pointer that may be nil. *)
Definition deref {A} (p : option A) : res A :=
  match p with Some a => Ok a | None => Panic NilDeref end.

Definition store_operation (h : heap) (l : loc) (o : Operation.t) : heap :=
  Heap (<[l := o]> (h_operation h)) (h_responses h) (h_response h).
Definition store_responses (h : heap) (l : loc) (r : Responses.t) : heap :=
  Heap (h_operation h) (<[l := r]> (h_responses h)) (h_response h).
Definition store_response (h : heap) (l : loc) (r : Response.t) : heap :=
  Heap (h_operation h) (h_responses h) (<[l := r]> (h_response h)).

(** ** Operation identifiers *)

Definition appendOp (ops : list loc) (op : option loc) : list loc :=
  match op with
  | None => ops
  | Some l => ops ++ [l]
  end.

Definition pathItemOps (p : PathItem.t) : list loc :=
  let rv := [] in
  let rv := appendOp rv (PathItem.Get p) in
  let rv := appendOp rv (PathItem.Put p) in
  let rv := appendOp rv (PathItem.Post p) in
  let rv := appendOp rv (PathItem.Delete p) in
  let rv := appendOp rv (PathItem.Head p) in
  let rv := appendOp rv (PathItem.Patch p) in
  rv.

(** [opIds[id]] on a [map[string]bool]: absent keys read as [false]. *)
Definition seen (opIds : gmap string bool) (id : string) : bool :=
  default false (opIds !! id).

(** The body of the inner loop of [getOpIds]: [rv[op.ID] = true]. *)
Definition collect_op (h : heap) (op : loc) (rv : gmap string bool)
    : res (gmap string bool) :=
  o ← load (h_operation h) op;
  Ok (<[Operation.ID o := true]> rv).

Definition getOpIds (h : heap) (s : Swagger.t) : res (gmap string bool) :=
  let rv := ∅ in
  ps ← deref (Swagger.Paths s);
  for_each (λ kv rv, for_each (collect_op h) (pathItemOps kv.2) rv)
           (range (Paths.Paths ps)) rv.

(** [fmt.Sprintf("%v%v%v", id, "Mixin", i)] *)
Definition mixin_id (id : string) (i : nat) : string :=
  id +:+ "Mixin" +:+ NilZero.string_of_uint (Nat.to_uint i).

(** ** Mixin *)

(** The body of the loop over [pathItemOps(v)]. *)
Definition rename_op (i : nat) (piop : loc) (st : heap * gmap string bool)
    : res (heap * gmap string bool) :=
  let '(h, opIds) := st in
  o ← load (h_operation h) piop;
  if seen opIds (Operation.ID o) then
    let o' := Operation.mk (Operation.Summary o)
                           (mixin_id (Operation.ID o) i)
                           (Operation.Responses o) in
    Ok (store_operation h piop o', <[Operation.ID o' := true]> opIds)
  else
    Ok (h, <[Operation.ID o := true]> opIds).

(** The body of the loops over [m.Definitions], [m.Parameters] and
    [m.Responses]; the three differ only in the collection and in the text
    of the diagnostic. *)
Definition mix_entry {V} (kv : string * V) (st : gomap string V * N)
    : res (gomap string V * N) :=
  let '(k, v) := kv in
  let '(dst, skipped) := st in
  match map_get dst k with
  | Some _ => Ok (dst, uint_incr skipped)
  | None => dst' ← map_set dst k v; Ok (dst', skipped)
  end.

(** The state of the loop over [m.Paths.Paths]: the heap, the registry of
    identifiers, [primary.Paths] and the counter. *)
Definition paths_state : Type :=
  heap * gmap string bool * option Paths.t * N.

Definition mix_path (i : nat) (kv : string * PathItem.t) (st : paths_state)
    : res paths_state :=
  let '(k, v) := kv in
  let '(h, opIds, ppaths, skipped) := st in
  pp ← deref ppaths;
  match map_get (Paths.Paths pp) k with
  | Some _ => Ok (h, opIds, ppaths, uint_incr skipped)
  | None =>
      let piops := pathItemOps v in
      '(h, opIds) ← for_each (rename_op i) piops (h, opIds);
      paths' ← map_set (Paths.Paths pp) k v;
      Ok (h, opIds, Some (Paths.mk paths'), skipped)
  end.

Definition mixin_state : Type :=
  heap * gmap string bool * Swagger.t * N.

(** One round of the loop over the mixins: mixin [m] at index [i]. *)
Definition mix_one (i : nat) (m : Swagger.t) (st : mixin_state)
    : res mixin_state :=
  let '(h, opIds, primary, skipped) := st in
  '(defs, skipped) ←
    for_each mix_entry (range (Swagger.Definitions m))
             (Swagger.Definitions primary, skipped);
  mp ← deref (Swagger.Paths m);
  '(h, opIds, ppaths, skipped) ←
    for_each (mix_path i) (range (Paths.Paths mp))
             (h, opIds, Swagger.Paths primary, skipped);
  '(params, skipped) ←
    for_each mix_entry (range (Swagger.Parameters m))
             (Swagger.Parameters primary, skipped);
  '(resps, skipped) ←
    for_each mix_entry (range (Swagger.Responses m))
             (Swagger.Responses primary, skipped);
  Ok (h, opIds, Swagger.mk ppaths defs params resps, skipped).

Fixpoint mix_from (i : nat) (mixins : list Swagger.t) (st : mixin_state)
    : res mixin_state :=
  match mixins with
  | [] => Ok st
  | m :: rest => st' ← mix_one i m st; mix_from (S i) rest st'
  end.

(** [Mixin(primary, mixins...)]: the heap and the primary after the call,
    and the returned count.  The diagnostics written with [log.Printf] are
    left out. *)
Definition Mixin (h : heap) (primary : Swagger.t) (mixins : list Swagger.t)
    : res (heap * Swagger.t * N) :=
  let skipped := 0%N in
  opIds ← getOpIds h primary;
  '(h, _, primary, skipped) ← mix_from 0 mixins (h, opIds, primary, skipped);
  Ok (h, primary, skipped).

(** ** Repair of empty response descriptions *)

(** The guard of [FixEmptyDesc] behind its nil test: the description is
    there already, or the response is a reference. *)
Definition keeps_desc (rs : Response.t) : bool :=
  bool_decide (Response.Description rs ≠ "")
  || bool_decide (Response.Ref rs ≠ None).

(** [FixEmptyDesc(&v)] on a local variable [v]: the value of [v] after
    the call. *)
Definition FixEmptyDesc_val (rs : Response.t) : Response.t :=
  if keeps_desc rs then rs
  else Response.mk "(empty)" (Response.Ref rs).

(** [FixEmptyDesc(rs)] on a pointer into the heap. *)
Definition FixEmptyDesc (h : heap) (rs : option loc) : res heap :=
  match rs with
  | None => Ok h
  | Some l =>
      r ← load (h_response h) l;
      if keeps_desc r then Ok h
      else Ok (store_response h l (Response.mk "(empty)" (Response.Ref r)))
  end.

(** The body of the loop of [FixEmptyDescs] over
    [rs.StatusCodeResponses], [rs] pointing to [l]. *)
Definition fix_status (l : loc) (kv : Z * Response.t) (h : heap) : res heap :=
  let '(k, v) := kv in
  let v := FixEmptyDesc_val v in
  rs ← load (h_responses h) l;
  m ← map_set (Responses.StatusCodeResponses rs) k v;
  Ok (store_responses h l (Responses.mk (Responses.Default rs) m)).

Definition FixEmptyDescs (h : heap) (rs : option loc) : res heap :=
  l ← deref rs;
  r ← load (h_responses h) l;
  h ← FixEmptyDesc h (Responses.Default r);
  for_each (fix_status l) (range (Responses.StatusCodeResponses r)) h.

(** [if op != nil { FixEmptyDescs(op.Responses) }] *)
Definition fix_operation (h : heap) (op : option loc) : res heap :=
  match op with
  | None => Ok h
  | Some l =>
      o ← load (h_operation h) l;
      FixEmptyDescs h (Operation.Responses o)
  end.

(** The body of the loop over [s.Paths.Paths]. *)
Definition fix_path_item (kv : string * PathItem.t) (h : heap) : res heap :=
  let v := kv.2 in
  h ← fix_operation h (PathItem.Get v);
  h ← fix_operation h (PathItem.Put v);
  h ← fix_operation h (PathItem.Post v);
  h ← fix_operation h (PathItem.Delete v);
  h ← fix_operation h (PathItem.Options v);
  h ← fix_operation h (PathItem.Head v);
  fix_operation h (PathItem.Patch v).

(** The body of the loop over [s.Responses]. *)
Definition fix_top_response (kv : string * Response.t)
    (m : gomap string Response.t) : res (gomap string Response.t) :=
  let '(k, v) := kv in
  let v := FixEmptyDesc_val v in
  map_set m k v.

Definition FixEmptyResponseDescriptions (h : heap) (s : Swagger.t)
    : res (heap * Swagger.t) :=
  ps ← deref (Swagger.Paths s);
  h ← for_each fix_path_item (range (Paths.Paths ps)) h;
  resps ← for_each fix_top_response (range (Swagger.Responses s))
                   (Swagger.Responses s);
  Ok (h, Swagger.mk (Swagger.Paths s) (Swagger.Definitions s)
                    (Swagger.Parameters s) resps).

(** ** MixinFiles

    The loader ([loads.Spec] followed by [Spec()]) and the serializer
    ([json.MarshalIndent]) belong to other packages and are parameters
    here; an [io.Writer] is anything with a [Write]. *)

Definition error : Type := string.

Class Writer (W : Type) := Write : W → string → W * (nat * option error).

Section MixinFiles.
Context {W : Type} `{!Writer W}.
Variable loads_Spec : string → heap → heap * Swagger.t + error.
Variable json_MarshalIndent : heap → Swagger.t → string + error.

(** The loop over [mixinFiles]; [st] is the heap and the mixins
    appended so far. *)
Fixpoint load_mixins (mixinFiles : list string) (st : heap * list Swagger.t)
    : heap * list Swagger.t + error :=
  match mixinFiles with
  | [] => inl st
  | mixinFile :: rest =>
      match loads_Spec mixinFile st.1 with
      | inr err => inr err
      | inl (h, mixin) => load_mixins rest (h, st.2 ++ [mixin])
      end
  end.

(** The writer after the call, and the two values returned. *)
Definition MixinFiles (primaryFile : string) (mixinFiles : list string)
    (w : W) (h : heap) : res (W * (N * option error)) :=
  match loads_Spec primaryFile h with
  | inr err => Ok (w, (0%N, Some err))
  | inl (h, primary) =>
      match load_mixins mixinFiles (h, []) with
      | inr err => Ok (w, (0%N, Some err))
      | inl (h, mixins) =>
          '(h, primary, collisions) ← Mixin h primary mixins;
          '(h, primary) ← FixEmptyResponseDescriptions h primary;
          match json_MarshalIndent h primary with
          | inr err => Ok (w, (0%N, Some err))
          | inl bs =>
              let '(w, _) := Write w bs in
              Ok (w, (collisions, None))
          end
      end
  end.
End MixinFiles.

(** A writer that keeps what is written, and one that is closed. *)
Inductive buffer := Buffer (written : string).
Inductive closed_file := ClosedFile.

#[global] Instance buffer_writer : Writer buffer := λ w bs,
  match w with
  | Buffer written => (Buffer (written +:+ bs), (String.length bs, None))
  end.

#[global] Instance closed_file_writer : Writer closed_file := λ w bs,
  (w, (0, Some "write: file already closed")).

(** ** What a merge amounts to

    The entries of a mixin collection [src] that the merge adds to a
    primary collection [l], and the number of those it skips. *)

Definition uint_of (n : nat) : N := (N.of_nat n mod uint_modulus)%N.

Section merge_spec.
Context {V : Type}.

Definition fresh_entries (l src : list (string * V)) : list (string * V) :=
  filter (λ kv, kv.1 ∉ l.*1) src.

Definition clashes (l src : list (string * V)) : nat :=
  length (filter (λ kv, kv.1 ∈ l.*1) src).

Definition merge (l src : list (string * V)) : list (string * V) :=
  l ++ fresh_entries l src.

(** The collection after the mixins [srcs], in their order. *)
Definition merge_all (l : list (string * V)) (srcs : list (list (string * V)))
    : list (string * V) :=
  foldl merge l srcs.

Fixpoint clashes_all (l : list (string * V)) (srcs : list (list (string * V)))
    : nat :=
  match srcs with
  | [] => 0
  | src :: rest => clashes l src + clashes_all (merge l src) rest
  end.
End merge_spec.

(** The number of keys of the mixins, taken in order, that are already
    [present] in the primary or in an earlier mixin. *)
Fixpoint collisions (present : list string) (mixins : list (list string)) : nat :=
  match mixins with
  | [] => 0
  | ks :: rest =>
      length (filter (.∈ present) ks) + collisions (present ++ ks) rest
  end.

(** The entry for [k] in the first of the collections that has one. *)
Fixpoint first_wins {V} (k : string) (ls : list (list (string * V))) : option V :=
  match ls with
  | [] => None
  | l :: rest =>
      match alist_get l k with
      | Some v => Some v
      | None => first_wins k rest
      end
  end.

(** The collections of a document as [range] sees them. *)
Definition paths_of (s : Swagger.t) : list (string * PathItem.t) :=
  match Swagger.Paths s with
  | Some ps => range (Paths.Paths ps)
  | None => []
  end.
Definition definitions_of (s : Swagger.t) := range (Swagger.Definitions s).
Definition parameters_of (s : Swagger.t) := range (Swagger.Parameters s).
Definition responses_of (s : Swagger.t) := range (Swagger.Responses s).

(** No container of the document is nil. *)
Definition allocated (s : Swagger.t) : Prop :=
  match Swagger.Paths s with
  | Some ps => is_Some (Paths.Paths ps)
  | None => False
  end
  ∧ is_Some (Swagger.Definitions s)
  ∧ is_Some (Swagger.Parameters s)
  ∧ is_Some (Swagger.Responses s).

(** Every map of the document is a map: no key twice. *)
Definition doc_wf (s : Swagger.t) : Prop :=
  NoDup (paths_of s).*1 ∧ NoDup (definitions_of s).*1
  ∧ NoDup (parameters_of s).*1 ∧ NoDup (responses_of s).*1.

(** The primary [p] after the mixin [m], and the entries skipped. *)
Definition merge_doc (p m : Swagger.t) : Swagger.t :=
  Swagger.mk (Some (Paths.mk (Some (merge (paths_of p) (paths_of m)))))
             (Some (merge (definitions_of p) (definitions_of m)))
             (Some (merge (parameters_of p) (parameters_of m)))
             (Some (merge (responses_of p) (responses_of m))).

Definition clashes_doc (p m : Swagger.t) : nat :=
  clashes (definitions_of p) (definitions_of m)
  + clashes (paths_of p) (paths_of m)
  + clashes (parameters_of p) (parameters_of m)
  + clashes (responses_of p) (responses_of m).

Fixpoint clashes_docs (p : Swagger.t) (ms : list Swagger.t) : nat :=
  match ms with
  | [] => 0
  | m :: rest => clashes_doc p m + clashes_docs (merge_doc p m) rest
  end.

(** The operations behind the scanned methods of the path items. *)
Definition item_ops (items : list (string * PathItem.t)) : list loc :=
  concat ((λ kv, pathItemOps kv.2) <$> items).

(** The operations [Mixin] visits for renaming, each with the index of
    its mixin, in the order of the visits: those of the path items that
    are added to the primary. *)
Fixpoint visits (i : nat) (p : Swagger.t) (ms : list Swagger.t)
    : list (nat * loc) :=
  match ms with
  | [] => []
  | m :: rest =>
      ((λ l, (i, l)) <$> item_ops (fresh_entries (paths_of p) (paths_of m)))
      ++ visits (S i) (merge_doc p m) rest
  end.

Definition rename_visit (v : nat * loc) (st : heap * gmap string bool)
    : res (heap * gmap string bool) :=
  rename_op v.1 v.2 st.

(** ** Heaps and documents *)

(** The operations [pathItemOps] reaches in a document. *)
Definition scanned_ops (s : Swagger.t) : list loc := item_ops (paths_of s).

Definition ops_allocated (h : heap) (ls : list loc) : Prop :=
  ∀ l, l ∈ ls → is_Some (h_operation h !! l).

(** The identifier of the operation at [l]. *)
Definition op_id (h : heap) (l : loc) : option string :=
  Operation.ID <$> h_operation h !! l.

(** [h'] is [h] up to the identifiers of the operations. *)
Definition same_but_ids (h h' : heap) : Prop :=
  h_responses h' = h_responses h ∧ h_response h' = h_response h
  ∧ ∀ l, match h_operation h !! l, h_operation h' !! l with
         | Some o, Some o' =>
             Operation.Summary o' = Operation.Summary o
             ∧ Operation.Responses o' = Operation.Responses o
         | None, None => True
         | _, _ => False
         end.

(** What [Mixin] needs of its arguments: the containers of the primary
    are allocated, no [Paths] pointer of a mixin is nil, the maps are maps,
    and the operation pointers under the scanned methods point to
    operations. *)
Definition mixin_ready (h : heap) (p : Swagger.t) (ms : list Swagger.t) : Prop :=
  allocated p
  ∧ Forall (λ m, is_Some (Swagger.Paths m)) ms
  ∧ Forall doc_wf (p :: ms)
  ∧ ops_allocated h (scanned_ops p ++ concat (scanned_ops <$> ms)).

(** The keys of the four collections, and the number of entries of the
    mixins whose key is in the primary or in an earlier mixin. *)
Definition definition_keys (s : Swagger.t) : list string := (definitions_of s).*1.
Definition path_keys (s : Swagger.t) : list string := (paths_of s).*1.
Definition parameter_keys (s : Swagger.t) : list string := (parameters_of s).*1.
Definition response_keys (s : Swagger.t) : list string := (responses_of s).*1.

Definition skipped_total (p : Swagger.t) (ms : list Swagger.t) : nat :=
  collisions (definition_keys p) (definition_keys <$> ms)
  + collisions (path_keys p) (path_keys <$> ms)
  + collisions (parameter_keys p) (parameter_keys <$> ms)
  + collisions (response_keys p) (response_keys <$> ms).

(** The conditions on concrete arguments can be decided. *)
#[global] Instance allocated_dec s : Decision (allocated s).
Proof. unfold allocated. destruct (Swagger.Paths s); apply _. Defined.

#[global] Instance doc_wf_dec s : Decision (doc_wf s).
Proof. unfold doc_wf. apply _. Defined.

#[global] Instance ops_allocated_dec h ls : Decision (ops_allocated h ls).
Proof.
  refine (cast_if (decide (Forall (λ l, is_Some (h_operation h !! l)) ls)));
    unfold ops_allocated; by rewrite <- Forall_forall.
Defined.

#[global] Instance mixin_ready_dec h p ms : Decision (mixin_ready h p ms).
Proof. unfold mixin_ready. apply _. Defined.

(** ** What the repair amounts to *)

Definition fix_entries {K} (l : list (K * Response.t)) : list (K * Response.t) :=
  (λ kv, (kv.1, FixEmptyDesc_val kv.2)) <$> l.

Definition fix_responses (r : Responses.t) : Responses.t :=
  Responses.mk (Responses.Default r)
               (fix_entries <$> Responses.StatusCodeResponses r).

(** The heap after the repair of the [Responses] object [r] at [l]. *)
Definition repair_responses (h : heap) (l : loc) (r : Responses.t) : heap :=
  let h1 :=
    match Responses.Default r with
    | Some dl =>
        match h_response h !! dl with
        | Some d => store_response h dl (FixEmptyDesc_val d)
        | None => h
        end
    | None => h
    end in
  store_responses h1 l (fix_responses r).

(** The operation pointers of a path item that the repair looks at, in
    its order. *)
Definition all_ops (v : PathItem.t) : list (option loc) :=
  [PathItem.Get v; PathItem.Put v; PathItem.Post v; PathItem.Delete v;
   PathItem.Options v; PathItem.Head v; PathItem.Patch v].

(** One round of the repair of a path item, as a loop body. *)
Definition fix_op_step (op : option loc) (h : heap) : res heap :=
  fix_operation h op.

(** The operation pointers the repair of a document goes over. *)
Definition repair_targets (s : Swagger.t) : list (option loc) :=
  concat ((λ kv, all_ops kv.2) <$> paths_of s).

(** The document after the repair. *)
Definition repaired_doc (s : Swagger.t) : Swagger.t :=
  Swagger.mk (Swagger.Paths s) (Swagger.Definitions s) (Swagger.Parameters s)
             (fix_entries <$> Swagger.Responses s).

(** [h'] is [h] with some responses repaired. *)
Definition repaired_from (h h' : heap) : Prop :=
  h_operation h' = h_operation h
  ∧ (∀ l, h_responses h' !! l = h_responses h !! l
          ∨ h_responses h' !! l = fix_responses <$> h_responses h !! l)
  ∧ (∀ l, h_response h' !! l = h_response h !! l
          ∨ h_response h' !! l = FixEmptyDesc_val <$> h_response h !! l).

(** The [Responses] object at [l] is there, its map is a map, and its
    default response, if any, is there. *)
Definition wf_responses (h : heap) (l : loc) : Prop :=
  match h_responses h !! l with
  | None => False
  | Some r =>
      NoDup (keys (Responses.StatusCodeResponses r))
      ∧ match Responses.Default r with
        | None => True
        | Some dl => is_Some (h_response h !! dl)
        end
  end.

(** Nothing is left to repair in the [Responses] object at [l]. *)
Definition settled_responses (h : heap) (l : loc) : Prop :=
  match h_responses h !! l with
  | None => False
  | Some r =>
      NoDup (keys (Responses.StatusCodeResponses r))
      ∧ Forall (λ kv, keeps_desc kv.2 = true)
               (range (Responses.StatusCodeResponses r))
      ∧ match Responses.Default r with
        | None => True
        | Some dl =>
            match h_response h !! dl with
            | None => False
            | Some d => keeps_desc d = true
            end
        end
  end.

(** The same for an operation pointer that may be nil: the operation is
    there and its [Responses] pointer is not nil. *)
Definition on_responses (P : heap → loc → Prop) (h : heap) (op : option loc)
    : Prop :=
  match op with
  | None => True
  | Some l =>
      match h_operation h !! l with
      | None => False
      | Some o =>
          match Operation.Responses o with
          | None => False
          | Some rl => P h rl
          end
      end
  end.

(** What [FixEmptyResponseDescriptions] needs of its argument. *)
Definition fix_ready (h : heap) (s : Swagger.t) : Prop :=
  is_Some (Swagger.Paths s)
  ∧ NoDup (responses_of s).*1
  ∧ Forall (λ kv, Forall (on_responses wf_responses h) (all_ops kv.2))
           (paths_of s).

#[global] Instance wf_responses_dec h l : Decision (wf_responses h l).
Proof.
  unfold wf_responses. destruct (h_responses h !! l) as [r|]; [|apply _].
  destruct (Responses.Default r); apply _.
Defined.

#[global] Instance on_responses_dec P h op :
  (∀ l, Decision (P h l)) → Decision (on_responses P h op).
Proof.
  intros HP. unfold on_responses. destruct op as [l|]; [|apply _].
  destruct (h_operation h !! l) as [o|]; [|apply _].
  destruct (Operation.Responses o); apply _.
Defined.

#[global] Instance fix_ready_dec h s : Decision (fix_ready h s).
Proof. unfold fix_ready. apply _. Defined.

(** The identifiers of the operations at [ls]. *)
Definition ids_at (h : heap) (ls : list loc) : list string :=
  omap (op_id h) ls.

(** The operations under all seven methods of the path items. *)
Definition reachable_ops (s : Swagger.t) : list loc :=
  omap id (repair_targets s).

(** The last character of the identifier is a decimal digit, as it is in
    every renamed identifier. *)
Definition is_digit (c : ascii) : bool :=
  bool_decide (c ∈ String.list_ascii_of_string "0123456789").

Definition ends_in_digit (s : string) : bool :=
  match reverse (String.list_ascii_of_string s) with
  | c :: _ => is_digit c
  | [] => false
  end.

(** ** The state of the renaming loop

    [h] is the heap before the loop, [Pl] the operations of the primary,
    [vs] all visits; after the visits [done] the heap is [hc] and the
    registry [ic]: the registry holds the identifiers of the operations
    of the primary and of the visited ones, operations not visited are as
    they were, no two of the operations known so far have the same
    identifier, and a visited operation has its identifier or the one
    renamed for its mixin. *)
Definition rename_inv (h : heap) (Pl : list loc) (vs done : list (nat * loc))
    (hc : heap) (ic : gmap string bool) : Prop :=
  (∀ s, seen ic s = true ↔ ∃ l, l ∈ Pl ++ done.*2 ∧ op_id hc l = Some s)
  ∧ (∀ l, l ∉ done.*2 → h_operation hc !! l = h_operation h !! l)
  ∧ (∀ l1 l2 id, l1 ∈ Pl ++ done.*2 → l2 ∈ Pl ++ done.*2 →
       op_id hc l1 = Some id → op_id hc l2 = Some id → l1 = l2)
  ∧ (∀ j l id, (j, l) ∈ done → op_id h l = Some id →
       (op_id hc l = Some id ∨ op_id hc l = Some (mixin_id id j))
       ∧ ((∃ l0, l0 ∈ Pl ∧ op_id h l0 = Some id) →
            op_id hc l = Some (mixin_id id j))
       ∧ ((∀ l0, l0 ∈ Pl ++ vs.*2 → l0 ≠ l → op_id h l0 ≠ Some id) →
            op_id hc l = Some id)).

(** The renaming loop without conditions on the identifiers: after the
    visits [done] the registry holds the identifiers of the operations of
    the primary and of the visited ones, operations not visited are as they
    were, and the [n]-th visited operation was renamed if an operation of
    the primary or one visited before it has its identifier, and has kept
    its identifier if none has. *)
Definition visited_inv (h : heap) (Pl : list loc) (done : list (nat * loc))
    (hc : heap) (ic : gmap string bool) : Prop :=
  (∀ s, seen ic s = true ↔ ∃ l, l ∈ Pl ++ done.*2 ∧ op_id hc l = Some s)
  ∧ (∀ l, l ∉ done.*2 → h_operation hc !! l = h_operation h !! l)
  ∧ (∀ n j l id, done !! n = Some (j, l) → op_id h l = Some id →
       (op_id hc l = Some (mixin_id id j)
        ∧ ∃ l0, l0 ∈ Pl ++ (take n done).*2 ∧ op_id hc l0 = Some id)
       ∨ (op_id hc l = Some id
          ∧ ∀ l0, l0 ∈ Pl ++ (take n done).*2 → op_id hc l0 ≠ Some id)).

(** ** The command (main.go)

    [flags.Parse] belongs to another package and is a parameter: from the
    arguments of the process it gives the arguments that are left and the
    value of the option [-c], or an error; it may print to the standard
    output, as it does for the help.  The process ends by returning from
    [main], by [os.Exit] or by [log.Fatalln], which prints its argument to
    the standard error and calls [os.Exit(1)]. *)

Inductive outcome :=
  | Returns
  | Exits (code : Z)
  | Fatal (msg : string).

(** The status the process ends with, as its parent sees it on a POSIX
    system: the low eight bits of the argument of [os.Exit], and 0 after
    a return from [main]. *)
Definition exit_status (o : outcome) : Z :=
  match o with
  | Returns => 0
  | Exits code => code mod 256
  | Fatal _ => 1
  end.

(** [int(n)] for a [uint] [n], both 64 bits wide. *)
Definition int_of_uint (n : N) : Z :=
  if (n <? 2 ^ 63)%N then Z.of_N n else (Z.of_N n - 2 ^ 64)%Z.

Definition usage : string :=
  "Nothing to do. Need some swagger files to merge."
  +:+ String (ascii_of_nat 10)
        "USAGE: swagger-mixin [-c <expected#Collisions>] <primary-swagger-file> <mixin-swagger-file>...".

Section main.
Context {W : Type} `{!Writer W}.
Variable loads_Spec : string → heap → heap * Swagger.t + error.
Variable json_MarshalIndent : heap → Swagger.t → string + error.
Variable flags_Parse : list string → W → W * (list string * N + error).

(** [main] on the arguments [argv], with [stdout] for [os.Stdout]. *)
Definition main (argv : list string) (stdout : W) (h : heap)
    : res (W * outcome) :=
  let '(stdout, parsed) := flags_Parse argv stdout in
  match parsed with
  | inr _ => Ok (stdout, Exits 1)
  | inl (args, ExpectedCollisionCount) =>
      if decide (length args < 2) then Ok (stdout, Fatal usage)
      else
        '(stdout, (collisions, err)) ←
          MixinFiles loads_Spec json_MarshalIndent
                     (default "" (args !! 0)) (drop 1 args) stdout h;
        match err with
        | Some e => Ok (stdout, Fatal e)
        | None =>
            if decide (collisions ≠ ExpectedCollisionCount) then
              if decide (collisions ≠ 0%N)
              then Ok (stdout, Exits (int_of_uint collisions))
              else Ok (stdout, Exits 254)
            else Ok (stdout, Returns)
        end
  end.
End main.

(** ** More on what a merge amounts to *)

(** The number of entries of a document, over its four collections. *)
Definition entries (s : Swagger.t) : nat :=
  length (definitions_of s) + length (paths_of s)
  + length (parameters_of s) + length (responses_of s).

(** Two documents that differ in the order of the entries of their maps
    only. *)
Definition doc_perm (m m' : Swagger.t) : Prop :=
  definitions_of m ≡ₚ definitions_of m' ∧ paths_of m ≡ₚ paths_of m'
  ∧ parameters_of m ≡ₚ parameters_of m' ∧ responses_of m ≡ₚ responses_of m'.

(** The [Responses] objects and the default responses that the repair
    of a document reaches. *)
Definition reached_responses (h : heap) (s : Swagger.t) : list loc :=
  omap (λ l, h_operation h !! l ≫= Operation.Responses) (reachable_ops s).

Definition reached_defaults (h : heap) (s : Swagger.t) : list loc :=
  omap (λ rl, h_responses h !! rl ≫= Responses.Default) (reached_responses h s).

(** A response that is in order: it is a reference or has a
    description. *)
Definition described (r : Response.t) : Prop :=
  Response.Description r ≠ "" ∨ Response.Ref r ≠ None.

(** The operations under the seven methods of the path items of [d] are
    there, each with a [Responses] object that is in order. *)
Definition responses_ready (h : heap) (d : Swagger.t) : Prop :=
  Forall (λ kv, Forall (on_responses wf_responses h) (all_ops kv.2))
         (paths_of d).

#[global] Instance responses_ready_dec h d : Decision (responses_ready h d).
Proof. unfold responses_ready. apply _. Defined.

(** ** Sample documents *)

Module Sample.
Definition op (id : string) : Operation.t := Operation.mk "" id None.

Definition get_only (l : loc) : PathItem.t :=
  PathItem.mk (Some l) None None None None None None.

Definition doc (paths : list (string * PathItem.t))
    (defs : list (string * Schema)) (params : list (string * Param))
    (resps : list (string * Response.t)) : Swagger.t :=
  Swagger.mk (Some (Paths.mk (Some paths))) (Some defs) (Some params)
             (Some resps).

(** A primary with one path, and two mixins that overlap with it and
    with each other. *)
Definition ops : heap :=
  Heap (list_to_map [(1%positive, op "getA"); (2%positive, op "getA");
                     (3%positive, op "getB"); (4%positive, op "getB");
                     (5%positive, op "getC")]) ∅ ∅.

Definition primary : Swagger.t :=
  doc [("/a", get_only 1%positive)] [("Widget", "{}")] [("limit", "int")]
      [("NotFound", Response.mk "missing" None)].

Definition mixin0 : Swagger.t :=
  doc [("/a", get_only 2%positive); ("/b", get_only 3%positive)]
      [("Gadget", "{}"); ("Widget", "[]")] []
      [("NotFound", Response.mk "" None)].

Definition mixin1 : Swagger.t :=
  doc [("/b", get_only 4%positive); ("/c", get_only 5%positive)] [("Gadget", "()")]
      [("limit", "string"); ("offset", "int")] [].

(** Documents that share no key. *)
Definition apart0 : Swagger.t :=
  doc [("/b", get_only 3%positive)] [("Gadget", "{}")] [("offset", "int")] [].

Definition apart1 : Swagger.t :=
  doc [("/c", get_only 5%positive)] [] [] [("Gone", Response.mk "" None)].

(** A document whose only operation is an OPTIONS operation, with
    responses to repair behind it and at the top level. *)
Definition options_only (l : loc) : PathItem.t :=
  PathItem.mk None None None None (Some l) None None.

Definition to_repair : heap :=
  Heap {[ 10%positive := Operation.mk "" "optA" (Some 20%positive) ]}
       {[ 20%positive :=
            Responses.mk (Some 30%positive)
              (Some [(200%Z, Response.mk "" None);
                     (404%Z, Response.mk "" (Some "#/responses/NotFound"));
                     (500%Z, Response.mk "boom" None)]) ]}
       {[ 30%positive := Response.mk "" None ]}.

Definition unrepaired : Swagger.t :=
  doc [("/a", options_only 10%positive)] [] []
      [("NotFound", Response.mk "" None);
       ("Moved", Response.mk "" (Some "#/responses/Other"))].

(** A primary whose definitions map is nil, and an operation without a
    [Responses] object. *)
Definition no_definitions : Swagger.t :=
  Swagger.mk (Some (Paths.mk (Some [("/a", get_only 1%positive)])))
             None (Some []) (Some []).

Definition no_responses : Swagger.t :=
  doc [("/a", get_only 1%positive)] [] [] [].

(** The scenario of a primary with the path "/a" and a mixin with the
    paths "/a" and "/b", all three operations with the identifier
    getA. *)
Definition scenario_ops : heap :=
  Heap (list_to_map [(1%positive, op "getA"); (2%positive, op "getA");
                     (3%positive, op "getA")]) ∅ ∅.

Definition scenario_primary : Swagger.t :=
  doc [("/a", get_only 1%positive)] [] [] [].

Definition scenario_mixin : Swagger.t :=
  doc [("/a", get_only 2%positive); ("/b", get_only 3%positive)] [] [] [].

(** Operations without an identifier. *)
Definition anonymous_ops : heap :=
  Heap (list_to_map [(1%positive, op ""); (2%positive, op "");
                     (3%positive, op "")]) ∅ ∅.

Definition anonymous_mixin : Swagger.t :=
  doc [("/b", get_only 2%positive); ("/c", get_only 3%positive)] [] [] [].

(** Mixins whose identifiers collide with the primary and with each
    other. *)
Definition colliding_ops : heap :=
  Heap (list_to_map [(1%positive, op "getA"); (2%positive, op "getA");
                     (3%positive, op "getB"); (4%positive, op "getB");
                     (5%positive, op "getA")]) ∅ ∅.

Definition colliding0 : Swagger.t :=
  doc [("/b", get_only 2%positive); ("/c", get_only 3%positive)] [] [] [].

Definition colliding1 : Swagger.t :=
  doc [("/d", get_only 4%positive); ("/e", get_only 5%positive)] [] [] [].

(** A primary that has an identifier of the renamed form already. *)
Definition retry_ops : heap :=
  Heap (list_to_map [(1%positive, op "getA"); (2%positive, op "getAMixin0");
                     (3%positive, op "getA")]) ∅ ∅.

Definition retry_primary : Swagger.t :=
  doc [("/a", get_only 1%positive); ("/x", get_only 2%positive)] [] [] [].

Definition retry_mixin : Swagger.t :=
  doc [("/b", get_only 3%positive)] [] [] [].

(** Two files on disk, and a serializer that always succeeds. *)
Definition loaded : heap :=
  Heap (list_to_map
          [(1%positive, Operation.mk "" "getA" (Some 11%positive));
           (2%positive, Operation.mk "" "getA" (Some 12%positive));
           (3%positive, Operation.mk "" "getB" (Some 12%positive))])
       (list_to_map
          [(11%positive, Responses.mk None (Some [(200%Z, Response.mk "" None)]));
           (12%positive, Responses.mk None None)])
       ∅.

Definition files (name : string) (h : heap) : heap * Swagger.t + error :=
  if decide (name = "primary.yml") then inl (loaded, primary)
  else if decide (name = "mixin0.yml") then inl (loaded, mixin0)
  else inr ("open " +:+ name +:+ ": no such file or directory").

Definition marshal (h : heap) (s : Swagger.t) : string + error :=
  inl "{}".

(** A document with 256 definitions, in a file. *)
Definition wide : Swagger.t :=
  doc [] ((λ i, (String (ascii_of_nat i) "", "{}")) <$> seq 0 256) [] [].

Definition wide_files (name : string) (h : heap)
    : heap * Swagger.t + error :=
  if decide (name = "wide.json") then inl (h, wide)
  else inr ("open " +:+ name +:+ ": no such file or directory").

(** A mixin with two operations that have the same identifier, and the
    same mixin with its paths in the other order. *)
Definition twins : Swagger.t :=
  doc [("/b", get_only 2%positive); ("/e", get_only 5%positive)] [] [] [].

Definition twins_reordered : Swagger.t :=
  doc [("/e", get_only 5%positive); ("/b", get_only 2%positive)] [] [] [].

(** A command line without options: all arguments are left, and the
    expected count is the default. *)
Definition no_flags {W} (argv : list string) (stdout : W)
    : W * (list string * N + error) :=
  (stdout, inl (argv, 0%N)).
End Sample.

(** * Proofs *)

(** ** The result monad and loops *)

Lemma bind_Ok {A B} (m : res A) (f : A → res B) (b : B) :
  m ≫= f = Ok b ↔ ∃ a, m = Ok a ∧ f a = Ok b.
Proof.
  destruct m as [a|e]; simpl; split.
  - intros H. exists a. done.
  - intros (a' & [= <-] & H). done.
  - intros [=].
  - intros (a' & [=] & _).
Qed.

Lemma bind_Panic_l {A B} (m : res A) (f : A → res B) :
  panics m → panics (m ≫= f).
Proof. intros [e ->]. by exists e. Qed.

Lemma Ok_or_panics {A} (r : res A) : (∃ a, r = Ok a) ∨ panics r.
Proof. destruct r as [a|e]; [left|right]; eauto. by exists e. Qed.

(** Splits hypotheses [x ← m; k = Ok r] into their steps. *)
Ltac res_inv :=
  repeat match goal with
  | H : _ ≫= _ = Ok _ |- _ =>
      let a := fresh "a" in
      let Ha := fresh "Hstep" in
      apply bind_Ok in H as (a & Ha & H)
  | H : Ok _ = Ok _ |- _ => injection H as H; try subst
  | H : Panic _ = Ok _ |- _ => discriminate H
  | H : mret _ = Ok _ |- _ => injection H as H; try subst
  end.

Lemma elem_of_concat {A} (x : A) (ls : list (list A)) :
  x ∈ concat ls ↔ ∃ l, x ∈ l ∧ l ∈ ls.
Proof.
  induction ls as [|l ls IH]; simpl.
  - rewrite elem_of_nil. split; [done|]. intros (l & _ & Hl).
    by apply elem_of_nil in Hl.
  - rewrite elem_of_app, IH. split.
    + intros [Hx|(l' & Hx & Hl')]; [exists l|exists l']; split; try done.
      * by left.
      * by right.
    + intros (l' & Hx & [->|Hl']%elem_of_cons); [by left|right]. by exists l'.
Qed.

Lemma for_each_app {A S} (body : A → S → res S) (l1 l2 : list A) (s : S) :
  for_each body (l1 ++ l2) s = for_each body l1 s ≫= for_each body l2.
Proof.
  revert s. induction l1 as [|a l1 IH]; intros s; simpl; [done|].
  destruct (body a s) as [s'|e]; simpl; [apply IH|done].
Qed.

(** A property kept by every round is kept by the loop. *)
Lemma for_each_inv {A S} (I : S → Prop) (body : A → S → res S) l s s' :
  (∀ a t t', a ∈ l → I t → body a t = Ok t' → I t') →
  I s → for_each body l s = Ok s' → I s'.
Proof.
  revert s. induction l as [|a l IH]; intros s Hb Hs H; simpl in H.
  - by injection H as <-.
  - res_inv. eapply IH; [| |exact H].
    + intros b t t' Hin. apply Hb. by right.
    + eapply Hb; [by left|exact Hs|done].
Qed.

(** ** Association lists *)

Section alist_facts.
Context {K V : Type} `{EqDecision K}.
Implicit Types (l : list (K * V)) (k : K) (v : V).

Lemma alist_get_None l k : alist_get l k = None ↔ k ∉ l.*1.
Proof.
  induction l as [|[k' v'] l IH]; simpl.
  - split; [intros _; apply not_elem_of_nil|done].
  - rewrite not_elem_of_cons. destruct (decide (k' = k)) as [->|Hne].
    + split; [done|]. intros [Hk _]. done.
    + rewrite IH. split; [|intros [_ Hk]; exact Hk].
      intros Hk. split; [congruence|done].
Qed.

Lemma alist_get_elem l k v : NoDup l.*1 → (k, v) ∈ l → alist_get l k = Some v.
Proof.
  induction l as [|[k' v'] l IH]; simpl; intros Hnd Hin.
  - by apply elem_of_nil in Hin.
  - apply NoDup_cons in Hnd as [Hk' Hnd].
    apply elem_of_cons in Hin as [[= <- <-]|Hin].
    + by rewrite decide_True.
    + rewrite decide_False; [by apply IH|].
      intros ->. apply Hk'. apply list_elem_of_fmap. by exists (k, v).
Qed.

Lemma alist_get_app l1 l2 k :
  alist_get (l1 ++ l2) k =
  match alist_get l1 k with Some v => Some v | None => alist_get l2 k end.
Proof.
  induction l1 as [|[k' v'] l1 IH]; simpl; [done|]. by case_decide.
Qed.

Lemma alist_set_fresh l k v : k ∉ l.*1 → alist_set l k v = l ++ [(k, v)].
Proof.
  induction l as [|[k' v'] l IH]; simpl; [done|].
  rewrite not_elem_of_cons. intros [Hne Hk].
  rewrite decide_False; [|done]. by rewrite IH.
Qed.

End alist_facts.

Lemma filter_ext_elem {A} (P Q : A → Prop)
    `{!∀ x, Decision (P x), !∀ x, Decision (Q x)} (l : list A) :
  (∀ x, x ∈ l → P x ↔ Q x) → filter P l = filter Q l.
Proof.
  induction l as [|a l IH]; intros Hext; [done|].
  rewrite !filter_cons. rewrite IH by (intros x Hx; apply Hext; by right).
  pose proof (Hext a (list_elem_of_here _ _)) as Ha.
  destruct (decide (P a)) as [HP|HP], (decide (Q a)) as [HQ|HQ]; tauto.
Qed.

(** ** The counter *)

Lemma uint_incr_of n : uint_incr (uint_of n) = uint_of (S n).
Proof.
  unfold uint_incr, uint_of. rewrite Nat2N.inj_succ, <- N.add_1_r.
  by rewrite N.Div0.add_mod_idemp_l.
Qed.

Lemma uint_of_small n : (N.of_nat n < uint_modulus)%N → uint_of n = N.of_nat n.
Proof. intros H. unfold uint_of. by apply N.mod_small. Qed.

(** ** Merging one collection *)

Section merge_facts.
Context {V : Type}.
Implicit Types (l src : list (string * V)) (k : string) (v : V).

Lemma fresh_entries_snoc l k v src :
  k ∉ src.*1 → fresh_entries (l ++ [(k, v)]) src = fresh_entries l src.
Proof.
  intros Hk. unfold fresh_entries. apply filter_ext_elem.
  intros [k' v'] Hin; simpl. rewrite fmap_app, elem_of_app. simpl.
  rewrite list_elem_of_singleton. split; [tauto|].
  intros Hn [Hl|Heq]; [done|]. apply Hk, list_elem_of_fmap.
  exists (k', v'). split; [simpl; congruence|done].
Qed.

Lemma clashes_snoc l k v src :
  k ∉ src.*1 → clashes (l ++ [(k, v)]) src = clashes l src.
Proof.
  intros Hk. unfold clashes. f_equal. apply filter_ext_elem.
  intros [k' v'] Hin; simpl. rewrite fmap_app, elem_of_app. simpl.
  rewrite list_elem_of_singleton. split; [|tauto].
  intros [Hl|Heq]; [done|]. exfalso. apply Hk, list_elem_of_fmap.
  exists (k', v'). split; [simpl; congruence|done].
Qed.

Lemma fresh_entries_cons l k v src :
  fresh_entries l ((k, v) :: src) =
  if decide (k ∈ l.*1) then fresh_entries l src
  else (k, v) :: fresh_entries l src.
Proof.
  unfold fresh_entries. rewrite filter_cons. simpl.
  destruct (decide (k ∈ l.*1)); [by rewrite decide_False by tauto|].
  by rewrite decide_True.
Qed.

Lemma clashes_cons l k v src :
  clashes l ((k, v) :: src) =
  if decide (k ∈ l.*1) then S (clashes l src) else clashes l src.
Proof.
  unfold clashes. rewrite filter_cons. simpl.
  by destruct (decide (k ∈ l.*1)).
Qed.

Lemma alist_get_Some_keys l k v : alist_get l k = Some v → k ∈ l.*1.
Proof.
  intros Hget. destruct (decide (k ∈ l.*1)) as [|Hn]; [done|].
  apply alist_get_None in Hn. congruence.
Qed.

Lemma mix_entries_Some l src n :
  NoDup src.*1 →
  for_each mix_entry src (Some l, uint_of n) =
  Ok (Some (merge l src), uint_of (n + clashes l src)).
Proof.
  unfold merge. revert l n. induction src as [|[k v] src IH]; intros l n Hnd.
  - simpl. unfold clashes. simpl. by rewrite app_nil_r, Nat.add_0_r.
  - rewrite fmap_cons in Hnd. apply NoDup_cons in Hnd as [Hk Hnd].
    simpl in Hk. rewrite fresh_entries_cons, clashes_cons. simpl.
    unfold map_get. simpl. destruct (alist_get l k) as [v'|] eqn:Hget.
    + apply alist_get_Some_keys in Hget.
      simpl. rewrite uint_incr_of, IH by done.
      rewrite !decide_True by done. by rewrite Nat.add_succ_r.
    + apply alist_get_None in Hget. simpl.
      rewrite alist_set_fresh, IH by done.
      rewrite fresh_entries_snoc, clashes_snoc by done.
      rewrite !decide_False by done.
      by rewrite <- app_assoc.
Qed.

Lemma mix_entries_nil (src : list (string * V)) c :
  for_each mix_entry src (None, c) =
  match src with [] => Ok (None, c) | _ => Panic NilMapWrite end.
Proof. destruct src as [|[k v] src]; reflexivity. Qed.

End merge_facts.

(** ** The merge in normal form

    With the containers of the primary allocated, [Mixin] is the loop of
    [rename_op] over the visited operations, next to the merge of the four
    collections and the count of the entries skipped. *)

Lemma for_each_rename_visit i ops st :
  for_each (rename_op i) ops st =
  for_each rename_visit ((λ l, (i, l)) <$> ops) st.
Proof.
  revert st. induction ops as [|l ops IH]; intros st; [done|].
  rewrite fmap_cons. cbn [for_each]. change (rename_visit (i, l) st) with (rename_op i l st).
  destruct (rename_op i l st) as [st'|e]; simpl; [apply IH|done].
Qed.

Lemma item_ops_cons k v items :
  item_ops ((k, v) :: items) = pathItemOps v ++ item_ops items.
Proof. reflexivity. Qed.

Lemma item_ops_app l1 l2 : item_ops (l1 ++ l2) = item_ops l1 ++ item_ops l2.
Proof. unfold item_ops. by rewrite fmap_app, concat_app. Qed.

Lemma mix_paths_Some i l src h ids n :
  NoDup src.*1 →
  for_each (mix_path i) src (h, ids, Some (Paths.mk (Some l)), uint_of n) =
  '(h', ids') ← for_each (rename_op i) (item_ops (fresh_entries l src)) (h, ids);
  Ok (h', ids', Some (Paths.mk (Some (merge l src))),
      uint_of (n + clashes l src)).
Proof.
  unfold merge. revert l h ids n.
  induction src as [|[k v] src IH]; intros l h ids n Hnd.
  - simpl. unfold clashes. simpl. by rewrite app_nil_r, Nat.add_0_r.
  - rewrite fmap_cons in Hnd. apply NoDup_cons in Hnd as [Hk Hnd].
    simpl in Hk. rewrite fresh_entries_cons, clashes_cons. simpl.
    unfold map_get. simpl. destruct (alist_get l k) as [v'|] eqn:Hget.
    + apply alist_get_Some_keys in Hget.
      simpl. rewrite uint_incr_of, IH by done.
      rewrite !decide_True by done. by rewrite Nat.add_succ_r.
    + apply alist_get_None in Hget.
      rewrite !decide_False by done.
      rewrite item_ops_cons, for_each_app.
      destruct (for_each (rename_op i) (pathItemOps v) (h, ids))
        as [[h1 ids1]|e]; simpl; [|done].
      rewrite alist_set_fresh, IH by done.
      rewrite fresh_entries_snoc, clashes_snoc by done.
      destruct (for_each (rename_op i) (item_ops (fresh_entries l src)) (h1, ids1))
        as [[h2 ids2]|e]; simpl; [|done].
      by rewrite <- app_assoc.
Qed.

Lemma allocated_inv p :
  allocated p →
  ∃ lp ld lpar lr,
    p = Swagger.mk (Some (Paths.mk (Some lp))) (Some ld) (Some lpar) (Some lr).
Proof.
  destruct p as [[[[lp|]]|] d pa r];
    intros (Hp & [ld Hd] & [lpar Hpa] & [lr Hr]); simpl in *;
    try done; try (by destruct Hp).
  subst. by exists lp, ld, lpar, lr.
Qed.

Lemma merge_doc_allocated p m : allocated (merge_doc p m).
Proof. unfold allocated, merge_doc. simpl. eauto 10. Qed.

Lemma mix_one_eq i m h ids p n :
  allocated p → is_Some (Swagger.Paths m) → doc_wf m →
  mix_one i m (h, ids, p, uint_of n) =
  '(h', ids') ← for_each (rename_op i)
                  (item_ops (fresh_entries (paths_of p) (paths_of m))) (h, ids);
  Ok (h', ids', merge_doc p m, uint_of (n + clashes_doc p m)).
Proof.
  intros Hp [mp Hmp] (Hwp & Hwd & Hwpa & Hwr).
  apply allocated_inv in Hp as (lp & ld & lpar & lr & ->).
  unfold mix_one, merge_doc, clashes_doc. simpl.
  unfold paths_of, definitions_of, parameters_of, responses_of in *.
  rewrite Hmp in *. simpl in *.
  rewrite (mix_entries_Some ld) by done. simpl.
  rewrite mix_paths_Some by done.
  destruct (for_each (rename_op i) _ (h, ids)) as [[h1 ids1]|e]; simpl; [|done].
  rewrite (mix_entries_Some lpar) by done. simpl.
  rewrite (mix_entries_Some lr) by done. simpl.
  do 3 f_equal. lia.
Qed.

Lemma mix_from_eq i ms h ids p n :
  allocated p →
  Forall (λ m, is_Some (Swagger.Paths m)) ms → Forall doc_wf ms →
  mix_from i ms (h, ids, p, uint_of n) =
  '(h', ids') ← for_each rename_visit (visits i p ms) (h, ids);
  Ok (h', ids', foldl merge_doc p ms, uint_of (n + clashes_docs p ms)).
Proof.
  revert i h ids p n. induction ms as [|m ms IH]; intros i h ids p n Hp Hps Hwf.
  - simpl. by rewrite Nat.add_0_r.
  - apply Forall_cons in Hps as [Hm Hps]. apply Forall_cons in Hwf as [Hw Hwf].
    cbn [mix_from visits foldl clashes_docs].
    rewrite mix_one_eq, for_each_app, <- for_each_rename_visit by done.
    destruct (for_each (rename_op i) _ (h, ids)) as [[h1 ids1]|e]; simpl; [|done].
    rewrite IH by auto using merge_doc_allocated.
    by rewrite Nat.add_assoc.
Qed.

(** [Mixin] in normal form. *)
Lemma Mixin_eq h p ms :
  allocated p →
  Forall (λ m, is_Some (Swagger.Paths m)) ms → Forall doc_wf ms →
  Mixin h p ms =
  ids ← getOpIds h p;
  '(h', _) ← for_each rename_visit (visits 0 p ms) (h, ids);
  Ok (h', foldl merge_doc p ms, uint_of (clashes_docs p ms)).
Proof.
  intros Hp Hps Hwf. unfold Mixin.
  destruct (getOpIds h p) as [ids|e]; simpl; [|done].
  change 0%N with (uint_of 0). rewrite mix_from_eq by done.
  by destruct (for_each rename_visit _ (h, ids)) as [[h1 ids1]|e].
Qed.

(** ** The merged collections *)

Section merge_all_facts.
Context {V : Type}.
Implicit Types (l src : list (string * V)) (srcs : list (list (string * V))).

Lemma alist_get_fresh_entries l src k :
  k ∉ l.*1 → alist_get (fresh_entries l src) k = alist_get src k.
Proof.
  intros Hk. induction src as [|[k' v'] src IH]; [done|].
  rewrite fresh_entries_cons. simpl.
  destruct (decide (k' ∈ l.*1)) as [Hin|Hin]; simpl.
  - rewrite decide_False; [done|]. by intros ->.
  - by rewrite IH.
Qed.

Lemma alist_get_merge l src k :
  alist_get (merge l src) k =
  match alist_get l k with Some v => Some v | None => alist_get src k end.
Proof.
  unfold merge. rewrite alist_get_app.
  destruct (alist_get l k) eqn:Hget; [done|].
  apply alist_get_fresh_entries. by apply alist_get_None.
Qed.

Lemma alist_get_merge_all l srcs k :
  alist_get (merge_all l srcs) k = first_wins k (l :: srcs).
Proof.
  unfold merge_all. revert l. induction srcs as [|src srcs IH]; intros l.
  - simpl. by destruct (alist_get l k).
  - cbn [foldl]. rewrite IH. cbn [first_wins]. rewrite alist_get_merge.
    by destruct (alist_get l k).
Qed.

Lemma first_wins_app k (ls1 ls2 : list (list (string * V))) :
  first_wins k (ls1 ++ ls2) =
  match first_wins k ls1 with
  | Some v => Some v
  | None => first_wins k ls2
  end.
Proof.
  induction ls1 as [|l1 ls1 IH]; simpl; [done|].
  by destruct (alist_get l1 k).
Qed.

Lemma elem_of_merge_keys l src k :
  k ∈ (merge l src).*1 ↔ k ∈ l.*1 ∨ k ∈ src.*1.
Proof.
  unfold merge, fresh_entries. rewrite fmap_app, elem_of_app.
  rewrite !list_elem_of_fmap. setoid_rewrite list_elem_of_filter.
  split.
  - intros [Hl|(kv & -> & _ & Hin)]; [by left|right]. by exists kv.
  - intros [Hl|(kv & -> & Hin)]; [by left|].
    destruct (decide (kv.1 ∈ l.*1)) as [Hk|Hk].
    + left. by apply list_elem_of_fmap in Hk.
    + right. by exists kv.
Qed.

Lemma merge_NoDup l src : NoDup l.*1 → NoDup src.*1 → NoDup (merge l src).*1.
Proof.
  intros Hl Hs. unfold merge. rewrite fmap_app. apply NoDup_app.
  split; [done|]. split.
  - intros k Hk (kv & -> & Hin)%list_elem_of_fmap.
    apply list_elem_of_filter in Hin as [Hn _]. done.
  - unfold fresh_entries. clear Hl. induction src as [|[k v] src IH]; [constructor|].
    rewrite fmap_cons in Hs. apply NoDup_cons in Hs as [Hk Hs].
    rewrite filter_cons. destruct (decide _); [|by apply IH].
    rewrite fmap_cons. apply NoDup_cons. split; [|by apply IH].
    intros (kv & Heq & Hin)%list_elem_of_fmap.
    apply list_elem_of_filter in Hin as [_ Hin].
    apply Hk, list_elem_of_fmap. by exists kv.
Qed.

Lemma clashes_keys l src : clashes l src = length (filter (.∈ l.*1) src.*1).
Proof.
  induction src as [|[k v] src IH]; [done|].
  rewrite clashes_cons, fmap_cons, filter_cons. simpl.
  destruct (decide (k ∈ l.*1)); simpl; by rewrite IH.
Qed.

Lemma collisions_equiv (p1 p2 : list string) (kss : list (list string)) :
  (∀ x, x ∈ p1 ↔ x ∈ p2) → collisions p1 kss = collisions p2 kss.
Proof.
  revert p1 p2. induction kss as [|ks kss IH]; intros p1 p2 Heq; [done|].
  simpl. f_equal.
  - f_equal. apply filter_ext_elem. intros x _. apply Heq.
  - apply IH. intros x. rewrite !elem_of_app, Heq. tauto.
Qed.

(** The entries skipped are the keys that collide with the primary or
    with an earlier mixin. *)
Lemma clashes_all_collisions l srcs :
  clashes_all l srcs = collisions l.*1 ((λ src, src.*1) <$> srcs).
Proof.
  revert l. induction srcs as [|src srcs IH]; intros l; [done|].
  rewrite fmap_cons. cbn [clashes_all collisions].
  rewrite clashes_keys, IH. f_equal.
  apply collisions_equiv. intros x.
  rewrite elem_of_merge_keys, elem_of_app. tauto.
Qed.

(** Collections with pairwise distinct keys: nothing is skipped and
    every entry is added. *)
Lemma merge_disjoint l src :
  NoDup (l.*1 ++ src.*1) → merge l src = l ++ src ∧ clashes l src = 0.
Proof.
  intros (_ & Hdis & _)%NoDup_app.
  assert (∀ kv, kv ∈ src → kv.1 ∉ l.*1) as Hfresh.
  { intros kv Hin Hl. apply (Hdis _ Hl), list_elem_of_fmap. by exists kv. }
  clear Hdis. unfold merge. induction src as [|[k v] src IH]; [done|].
  rewrite fresh_entries_cons, clashes_cons.
  rewrite !decide_False by (apply (Hfresh (k, v)); by left).
  destruct IH as [IH1 IH2]; [intros kv Hin; apply Hfresh; by right|].
  apply app_inv_head in IH1. by rewrite IH1.
Qed.

Lemma merge_all_disjoint l srcs :
  NoDup (l.*1 ++ concat ((λ src, src.*1) <$> srcs)) →
  merge_all l srcs = l ++ concat srcs ∧ clashes_all l srcs = 0.
Proof.
  unfold merge_all.
  revert l. induction srcs as [|src srcs IH]; intros l Hnd.
  - simpl. by rewrite app_nil_r.
  - rewrite fmap_cons, concat_cons, app_assoc in Hnd.
    cbn [foldl clashes_all concat].
    destruct (merge_disjoint l src) as [-> ->].
    { by apply NoDup_app in Hnd as [? _]. }
    destruct (IH (l ++ src)) as [-> ->]; [by rewrite fmap_app|].
    by rewrite <- app_assoc.
Qed.

End merge_all_facts.

(** ** The renaming loop *)

Arguments rename_op : simpl never.
Arguments rename_visit : simpl never.

Lemma same_but_ids_refl h : same_but_ids h h.
Proof.
  split; [done|]. split; [done|]. intros l. by destruct (h_operation h !! l).
Qed.

Lemma same_but_ids_trans h1 h2 h3 :
  same_but_ids h1 h2 → same_but_ids h2 h3 → same_but_ids h1 h3.
Proof.
  intros (Ha & Hb & Hc) (Ha' & Hb' & Hc').
  split; [congruence|]. split; [congruence|]. intros l.
  specialize (Hc l). specialize (Hc' l).
  destruct (h_operation h1 !! l), (h_operation h2 !! l),
    (h_operation h3 !! l); try done.
  destruct Hc, Hc'. split; congruence.
Qed.

Lemma same_but_ids_store h l o id :
  h_operation h !! l = Some o →
  same_but_ids h (store_operation h l
    (Operation.mk (Operation.Summary o) id (Operation.Responses o))).
Proof.
  intros Hl. split; [done|]. split; [done|]. intros l'. simpl.
  destruct (decide (l = l')) as [<-|Hne].
  - by rewrite lookup_insert_eq, Hl.
  - rewrite lookup_insert_ne by done. by destruct (h_operation h !! l').
Qed.

Lemma same_but_ids_allocated h h' ls :
  same_but_ids h h' → ops_allocated h ls → ops_allocated h' ls.
Proof.
  intros (_ & _ & Hs) Ha l Hl. specialize (Hs l).
  destruct (Ha l Hl) as [o Ho]. rewrite Ho in Hs.
  by destruct (h_operation h' !! l).
Qed.

Lemma seen_insert ids id s :
  seen (<[id := true]> ids) s = if decide (id = s) then true else seen ids s.
Proof.
  unfold seen. rewrite lookup_insert. by destruct (decide (id = s)).
Qed.

Lemma rename_op_Ok i l h ids o :
  h_operation h !! l = Some o →
  rename_op i l (h, ids) =
  Ok (if seen ids (Operation.ID o)
      then (store_operation h l
              (Operation.mk (Operation.Summary o)
                 (mixin_id (Operation.ID o) i) (Operation.Responses o)),
            <[mixin_id (Operation.ID o) i := true]> ids)
      else (h, <[Operation.ID o := true]> ids)).
Proof.
  intros Hl. unfold rename_op, load. rewrite Hl. simpl.
  by destruct (seen ids (Operation.ID o)).
Qed.

Lemma rename_op_Ok_inv i l h ids h' ids' :
  rename_op i l (h, ids) = Ok (h', ids') →
  ∃ o, h_operation h !! l = Some o.
Proof.
  unfold rename_op, load. destruct (h_operation h !! l) as [o|]; [eauto|done].
Qed.

(** The loop succeeds on allocated operations; it changes identifiers
    only, those of the visited operations only, and the registry grows. *)
Lemma rename_visits_total vs h ids :
  ops_allocated h vs.*2 →
  ∃ h' ids',
    for_each rename_visit vs (h, ids) = Ok (h', ids')
    ∧ same_but_ids h h'
    ∧ (∀ l, l ∉ vs.*2 → h_operation h' !! l = h_operation h !! l)
    ∧ (∀ s, seen ids s = true → seen ids' s = true).
Proof.
  revert h ids. induction vs as [|[i l] vs IH]; intros h ids Ha.
  - exists h, ids. split; [done|]. split; [apply same_but_ids_refl|done].
  - rewrite fmap_cons in Ha. simpl in Ha.
    destruct (Ha l) as [o Ho]; [by left|].
    cbn [for_each]. change (rename_visit (i, l) (h, ids)) with (rename_op i l (h, ids)).
    rewrite (rename_op_Ok _ _ _ _ _ Ho).
    set (st := if seen ids (Operation.ID o) then _ else _).
    assert (same_but_ids h st.1
            ∧ (∀ l', l' ≠ l → h_operation st.1 !! l' = h_operation h !! l')
            ∧ (∀ s, seen ids s = true → seen st.2 s = true)) as (Hs & Hf & Hm).
    { subst st. destruct (seen ids (Operation.ID o)); simpl.
      - split; [by apply same_but_ids_store|]. split.
        + intros l' Hne. by rewrite lookup_insert_ne.
        + intros s Hseen. rewrite seen_insert. by destruct (decide _).
      - split; [apply same_but_ids_refl|]. split; [done|].
        intros s Hseen. rewrite seen_insert. by destruct (decide _). }
    destruct st as [h1 ids1]. simpl in *.
    destruct (IH h1 ids1) as (h' & ids' & Hrun & Hs' & Hf' & Hm').
    { eapply same_but_ids_allocated; [done|]. intros l' Hl'. apply Ha. by right. }
    exists h', ids'. split; [done|].
    split; [by eapply same_but_ids_trans|]. split.
    + intros l' Hl'. apply not_elem_of_cons in Hl' as [Hne Hl'].
      rewrite Hf' by done. by apply Hf.
    + intros s Hseen. by apply Hm', Hm.
Qed.

(** ** The registry of identifiers *)

Arguments collect_op : simpl never.

Lemma for_each_concat {A B S} (f : B → S → res S) (g : A → list B) l s :
  for_each (λ a s, for_each f (g a) s) l s = for_each f (concat (g <$> l)) s.
Proof.
  revert s. induction l as [|a l IH]; intros s; [done|].
  rewrite fmap_cons, concat_cons, for_each_app. cbn [for_each].
  destruct (for_each f (g a) s) as [s'|e]; simpl; [apply IH|done].
Qed.

Lemma getOpIds_eq h s ps :
  Swagger.Paths s = Some ps →
  getOpIds h s = for_each (collect_op h) (scanned_ops s) ∅.
Proof.
  intros Hps. unfold getOpIds, scanned_ops, paths_of, item_ops.
  rewrite Hps. simpl. apply for_each_concat.
Qed.

(** The registry after the collection of the identifiers at [ls]: an
    identifier is in it exactly when an operation at [ls] has it, or it was
    there before. *)
Lemma collect_ops_spec h ls rv :
  ops_allocated h ls →
  ∃ rv', for_each (collect_op h) ls rv = Ok rv'
    ∧ ∀ s, seen rv' s = true ↔
           seen rv s = true ∨ ∃ l, l ∈ ls ∧ op_id h l = Some s.
Proof.
  revert rv. induction ls as [|l ls IH]; intros rv Ha.
  - exists rv. split; [done|]. intros s. split; [by left|].
    intros [Hs|(l & Hl & _)]; [done|]. by apply elem_of_nil in Hl.
  - destruct (Ha l) as [o Ho]; [by left|].
    cbn [for_each].
    replace (collect_op h l rv) with (Ok (<[Operation.ID o := true]> rv))
      by (unfold collect_op, load; by rewrite Ho).
    simpl.
    destruct (IH (<[Operation.ID o := true]> rv)) as (rv' & -> & Hrv').
    { intros l' Hl'. apply Ha. by right. }
    exists rv'. split; [done|]. intros s. rewrite Hrv', seen_insert.
    split.
    + intros [Hs|(l' & Hl' & Hid)].
      * destruct (decide (Operation.ID o = s)) as [<-|]; [|by left].
        right. exists l. split; [by left|]. unfold op_id. by rewrite Ho.
      * right. exists l'. split; [by right|done].
    + intros [Hs|(l' & Hl' & Hid)].
      * left. by destruct (decide _).
      * apply elem_of_cons in Hl' as [->|Hl'].
        -- left. unfold op_id in Hid. rewrite Ho in Hid.
           injection Hid as ->. by rewrite decide_True.
        -- right. by exists l'.
Qed.

Lemma seen_empty s : seen ∅ s = false.
Proof. unfold seen. by rewrite lookup_empty. Qed.

Lemma getOpIds_spec h s :
  is_Some (Swagger.Paths s) → ops_allocated h (scanned_ops s) →
  ∃ ids, getOpIds h s = Ok ids
    ∧ ∀ id, seen ids id = true ↔ ∃ l, l ∈ scanned_ops s ∧ op_id h l = Some id.
Proof.
  intros [ps Hps] Ha. rewrite (getOpIds_eq _ _ _ Hps).
  destruct (collect_ops_spec h (scanned_ops s) ∅ Ha) as (ids & -> & Hids).
  exists ids. split; [done|]. intros id. rewrite Hids, seen_empty.
  split; [intros [?|?]; done|by right].
Qed.

(** ** The visited operations *)

Lemma appendOp_option_list ops op : appendOp ops op = ops ++ option_list op.
Proof. destruct op; simpl; [done|by rewrite app_nil_r]. Qed.

Lemma elem_of_option_list {A} (x : A) (o : option A) :
  x ∈ option_list o ↔ o = Some x.
Proof.
  destruct o as [y|]; simpl.
  - rewrite list_elem_of_singleton. split; congruence.
  - rewrite elem_of_nil. split; [done|congruence].
Qed.

Lemma pathItemOps_eq v :
  pathItemOps v =
  option_list (PathItem.Get v) ++ option_list (PathItem.Put v)
  ++ option_list (PathItem.Post v) ++ option_list (PathItem.Delete v)
  ++ option_list (PathItem.Head v) ++ option_list (PathItem.Patch v).
Proof.
  unfold pathItemOps. rewrite !appendOp_option_list. simpl.
  by rewrite <- !app_assoc.
Qed.

Lemma elem_of_pathItemOps l v :
  l ∈ pathItemOps v ↔
  PathItem.Get v = Some l ∨ PathItem.Put v = Some l ∨ PathItem.Post v = Some l
  ∨ PathItem.Delete v = Some l ∨ PathItem.Head v = Some l
  ∨ PathItem.Patch v = Some l.
Proof.
  rewrite pathItemOps_eq, !elem_of_app, !elem_of_option_list. tauto.
Qed.

Lemma elem_of_item_ops l items :
  l ∈ item_ops items ↔ ∃ k v, (k, v) ∈ items ∧ l ∈ pathItemOps v.
Proof.
  unfold item_ops. rewrite elem_of_concat. split.
  - intros (ls & Hl & ([k v] & -> & Hin)%list_elem_of_fmap). by exists k, v.
  - intros (k & v & Hin & Hl). exists (pathItemOps v). split; [done|].
    apply list_elem_of_fmap. by exists (k, v).
Qed.

Lemma elem_of_fresh_entries {V} (l src : list (string * V)) kv :
  kv ∈ fresh_entries l src ↔ (kv.1 ∉ l.*1) ∧ kv ∈ src.
Proof. unfold fresh_entries. by rewrite list_elem_of_filter. Qed.

(** An operation is visited for mixin [i] exactly when a scanned method
    of a path item of that mixin points to it and the key of the path item
    is not in the primary as the earlier mixins left it. *)
Lemma elem_of_visits i0 p ms i l :
  (i, l) ∈ visits i0 p ms ↔
  ∃ j m k v, i = i0 + j ∧ ms !! j = Some m ∧ (k, v) ∈ paths_of m
    ∧ (k ∉ (paths_of (foldl merge_doc p (take j ms))).*1)
    ∧ l ∈ pathItemOps v.
Proof.
  revert i0 p. induction ms as [|m ms IH]; intros i0 p.
  - simpl. rewrite elem_of_nil. split; [done|]. by intros (j & m & k & v & _ & ? & _).
  - cbn [visits]. rewrite elem_of_app, list_elem_of_fmap, IH. split.
    + intros [(l' & [= -> ->] & Hl)|(j & m' & k & v & -> & Hj & Hin & Hk & Hl)].
      * apply elem_of_item_ops in Hl as (k & v & Hin & Hl).
        apply elem_of_fresh_entries in Hin as [Hk Hin].
        exists 0, m, k, v. by rewrite Nat.add_0_r.
      * exists (S j), m', k, v. split; [lia|done].
    + intros (j & m' & k & v & -> & Hj & Hin & Hk & Hl).
      destruct j as [|j].
      * left. exists l. rewrite Nat.add_0_r. split; [done|].
        injection Hj as ->. apply elem_of_item_ops. exists k, v.
        split; [|done]. by apply elem_of_fresh_entries.
      * right. exists j, m', k, v. split; [lia|done].
Qed.

Lemma visits_scanned i0 p ms l :
  l ∈ (visits i0 p ms).*2 → l ∈ concat (scanned_ops <$> ms).
Proof.
  intros ([i l'] & -> & Hin)%list_elem_of_fmap. simpl.
  apply elem_of_visits in Hin as (j & m & k & v & _ & Hj & Hin & _ & Hl).
  apply elem_of_concat. exists (scanned_ops m). split.
  - apply elem_of_item_ops. by exists k, v.
  - apply list_elem_of_fmap. exists m. split; [done|].
    by apply list_elem_of_lookup_2 in Hj.
Qed.

(** ** The merged document *)

Lemma paths_of_merged p ms :
  paths_of (foldl merge_doc p ms) = merge_all (paths_of p) (paths_of <$> ms).
Proof.
  unfold merge_all. revert p. induction ms as [|m ms IH]; intros p; [done|].
  cbn [foldl fmap list_fmap]. by rewrite IH.
Qed.

Lemma definitions_of_merged p ms :
  definitions_of (foldl merge_doc p ms) =
  merge_all (definitions_of p) (definitions_of <$> ms).
Proof.
  unfold merge_all. revert p. induction ms as [|m ms IH]; intros p; [done|].
  cbn [foldl fmap list_fmap]. by rewrite IH.
Qed.

Lemma parameters_of_merged p ms :
  parameters_of (foldl merge_doc p ms) =
  merge_all (parameters_of p) (parameters_of <$> ms).
Proof.
  unfold merge_all. revert p. induction ms as [|m ms IH]; intros p; [done|].
  cbn [foldl fmap list_fmap]. by rewrite IH.
Qed.

Lemma responses_of_merged p ms :
  responses_of (foldl merge_doc p ms) =
  merge_all (responses_of p) (responses_of <$> ms).
Proof.
  unfold merge_all. revert p. induction ms as [|m ms IH]; intros p; [done|].
  cbn [foldl fmap list_fmap]. by rewrite IH.
Qed.

Lemma clashes_docs_split p ms :
  clashes_docs p ms =
  clashes_all (definitions_of p) (definitions_of <$> ms)
  + clashes_all (paths_of p) (paths_of <$> ms)
  + clashes_all (parameters_of p) (parameters_of <$> ms)
  + clashes_all (responses_of p) (responses_of <$> ms).
Proof.
  revert p. induction ms as [|m ms IH]; intros p; [done|].
  cbn [clashes_docs fmap list_fmap clashes_all]. rewrite IH.
  unfold clashes_doc. simpl.
  change (paths_of (merge_doc p m)) with (merge (paths_of p) (paths_of m)).
  change (definitions_of (merge_doc p m))
    with (merge (definitions_of p) (definitions_of m)).
  change (parameters_of (merge_doc p m))
    with (merge (parameters_of p) (parameters_of m)).
  change (responses_of (merge_doc p m))
    with (merge (responses_of p) (responses_of m)).
  lia.
Qed.

(** The maps of the merged primary are maps. *)
Lemma merge_docs_wf p ms :
  Forall doc_wf (p :: ms) → doc_wf (foldl merge_doc p ms).
Proof.
  revert p. induction ms as [|m ms IH]; intros p Hwf.
  - by apply Forall_cons in Hwf as [? _].
  - apply Forall_cons in Hwf as [Hp Hwf]. apply Forall_cons in Hwf as [Hm Hwf].
    cbn [foldl]. apply IH. constructor; [|done].
    destruct Hp as (? & ? & ? & ?), Hm as (? & ? & ? & ?).
    repeat split; by apply merge_NoDup.
Qed.

(** [Mixin] succeeds on arguments that are ready for it. *)
Lemma Mixin_total h p ms :
  mixin_ready h p ms →
  ∃ h', Mixin h p ms =
          Ok (h', foldl merge_doc p ms, uint_of (clashes_docs p ms))
    ∧ same_but_ids h h'
    ∧ (∀ l, l ∉ (visits 0 p ms).*2 → h_operation h' !! l = h_operation h !! l).
Proof.
  intros (Hp & Hps & Hwf & Ha). apply Forall_cons in Hwf as [_ Hwf].
  rewrite Mixin_eq by done.
  destruct (getOpIds_spec h p) as (ids & -> & _).
  { apply allocated_inv in Hp as (lp & ? & ? & ? & ->). simpl. eauto. }
  { intros l Hl. apply Ha, elem_of_app. by left. }
  simpl.
  destruct (rename_visits_total (visits 0 p ms) h ids)
    as (h' & ids' & -> & Hs & Hf & _).
  { intros l Hl. apply Ha, elem_of_app. right. by eapply visits_scanned. }
  exists h'. by simpl.
Qed.

(** ** Counting and union *)

Tactic Notation "by_computation" :=
  apply (bool_decide_unpack _); vm_compute; exact I.

Lemma clashes_docs_skipped p ms : clashes_docs p ms = skipped_total p ms.
Proof.
  rewrite clashes_docs_split. unfold skipped_total.
  rewrite !clashes_all_collisions, <- !list_fmap_compose. done.
Qed.

(** C1.  On arguments that are ready for it, [Mixin] returns the number of
    mixin entries, over the four collections and all mixins, whose key is
    already in the primary or in an earlier mixin: the number itself when
    it fits a [uint], and in general its residue modulo 2^64.  The merged
    primary has for every key the entry of the first document, primary
    first, that has the key: an entry that is there is never overwritten,
    and an entry whose key is there is skipped. *)
Theorem Mixin_counts_skipped h p ms :
  mixin_ready h p ms →
  ∃ h' p' c,
    Mixin h p ms = Ok (h', p', c)
    ∧ c = uint_of (skipped_total p ms)
    ∧ ((N.of_nat (skipped_total p ms) < uint_modulus)%N →
         c = N.of_nat (skipped_total p ms))
    ∧ (∀ k, alist_get (definitions_of p') k =
            first_wins k (definitions_of p :: (definitions_of <$> ms)))
    ∧ (∀ k, alist_get (paths_of p') k =
            first_wins k (paths_of p :: (paths_of <$> ms)))
    ∧ (∀ k, alist_get (parameters_of p') k =
            first_wins k (parameters_of p :: (parameters_of <$> ms)))
    ∧ (∀ k, alist_get (responses_of p') k =
            first_wins k (responses_of p :: (responses_of <$> ms))).
Proof.
  intros Hready. destruct (Mixin_total h p ms Hready) as (h' & Hrun & _).
  exists h', (foldl merge_doc p ms), (uint_of (skipped_total p ms)).
  rewrite <- clashes_docs_skipped.
  split; [done|]. split; [done|]. split; [apply uint_of_small|].
  rewrite definitions_of_merged, paths_of_merged, parameters_of_merged,
    responses_of_merged.
  repeat split; intros k; apply alist_get_merge_all.
Qed.

(** The sample primary and its two mixins: six entries are skipped, and
    the definitions of the primary and of the first mixin win. *)
Lemma Mixin_counts_skipped_witness :
  ∃ h' p',
    Mixin Sample.ops Sample.primary [Sample.mixin0; Sample.mixin1]
    = Ok (h', p', 6%N)
    ∧ alist_get (definitions_of p') "Widget" = Some "{}"
    ∧ alist_get (definitions_of p') "Gadget" = Some "{}"
    ∧ alist_get (paths_of p') "/b" = Some (Sample.get_only 3%positive).
Proof.
  destruct (Mixin_counts_skipped Sample.ops Sample.primary
              [Sample.mixin0; Sample.mixin1])
    as (h' & p' & c & Hrun & _ & Hc & Hd & Hp & _); [by_computation|].
  rewrite Hc in Hrun by (vm_compute; reflexivity).
  exists h', p'. split; [exact Hrun|].
  rewrite !Hd, Hp. repeat split; reflexivity.
Defined.

Lemma fmap_concat {A B} (f : A → B) (ls : list (list A)) :
  f <$> concat ls = concat ((λ l : list A, f <$> l) <$> ls).
Proof.
  induction ls as [|l ls IH]; [done|].
  by rewrite fmap_cons, !concat_cons, fmap_app, IH.
Qed.

Lemma length_concat_fmap {A B} (f : A → list B) (l : list A) :
  length (concat (f <$> l)) = sum_list_with (λ a, length (f a)) l.
Proof.
  induction l as [|a l IH]; [done|].
  rewrite fmap_cons, concat_cons, length_app, IH. done.
Qed.

(** What the merge of collections with pairwise distinct keys is. *)
Lemma merge_all_apart {V} (X : Swagger.t → list (string * V)) p ms :
  NoDup ((X p).*1 ++ concat ((λ m, (X m).*1) <$> ms)) →
  clashes_all (X p) (X <$> ms) = 0
  ∧ length (merge_all (X p) (X <$> ms))
    = length (X p) + sum_list_with (λ m, length (X m)) ms
  ∧ ∀ m k v, m ∈ ms → (k, v) ∈ X m →
      alist_get (merge_all (X p) (X <$> ms)) k = Some v.
Proof.
  intros Hnd.
  assert (concat ((λ m, (X m).*1) <$> ms)
          = concat ((λ src, src.*1) <$> (X <$> ms))) as Heq.
  { by rewrite <- list_fmap_compose. }
  rewrite Heq in Hnd.
  destruct (merge_all_disjoint (X p) (X <$> ms) Hnd) as [-> ->].
  split; [done|]. split.
  - by rewrite length_app, length_concat_fmap.
  - intros m k v Hm Hkv. apply alist_get_elem.
    + by rewrite fmap_app, fmap_concat.
    + apply elem_of_app. right. apply elem_of_concat. exists (X m).
      split; [done|]. by apply list_elem_of_fmap_2.
Qed.

(** C2.  When the keys of the primary and of the mixins are pairwise
    distinct in each of the four collections, [Mixin] returns 0, every
    collection of the merged primary has [|P| + Σ|Mi|] entries, every entry
    of every mixin is in it as the mixin has it, and the heap is the one
    before up to the identifiers of operations. *)
Theorem Mixin_disjoint_union h p ms :
  mixin_ready h p ms →
  NoDup (definition_keys p ++ concat (definition_keys <$> ms)) →
  NoDup (path_keys p ++ concat (path_keys <$> ms)) →
  NoDup (parameter_keys p ++ concat (parameter_keys <$> ms)) →
  NoDup (response_keys p ++ concat (response_keys <$> ms)) →
  ∃ h' p',
    Mixin h p ms = Ok (h', p', 0%N)
    ∧ length (definitions_of p')
      = length (definitions_of p)
        + sum_list_with (λ m, length (definitions_of m)) ms
    ∧ length (paths_of p')
      = length (paths_of p) + sum_list_with (λ m, length (paths_of m)) ms
    ∧ length (parameters_of p')
      = length (parameters_of p)
        + sum_list_with (λ m, length (parameters_of m)) ms
    ∧ length (responses_of p')
      = length (responses_of p)
        + sum_list_with (λ m, length (responses_of m)) ms
    ∧ (∀ m k v, m ∈ ms → (k, v) ∈ definitions_of m →
         alist_get (definitions_of p') k = Some v)
    ∧ (∀ m k v, m ∈ ms → (k, v) ∈ paths_of m →
         alist_get (paths_of p') k = Some v)
    ∧ (∀ m k v, m ∈ ms → (k, v) ∈ parameters_of m →
         alist_get (parameters_of p') k = Some v)
    ∧ (∀ m k v, m ∈ ms → (k, v) ∈ responses_of m →
         alist_get (responses_of p') k = Some v)
    ∧ same_but_ids h h'.
Proof.
  intros Hready Hd Hp Hpa Hr.
  destruct (Mixin_total h p ms Hready) as (h' & Hrun & Hsame & _).
  destruct (merge_all_apart definitions_of p ms Hd) as (Hd0 & Hdl & Hdg).
  destruct (merge_all_apart paths_of p ms Hp) as (Hp0 & Hpl & Hpg).
  destruct (merge_all_apart parameters_of p ms Hpa) as (Hpa0 & Hpal & Hpag).
  destruct (merge_all_apart responses_of p ms Hr) as (Hr0 & Hrl & Hrg).
  exists h', (foldl merge_doc p ms).
  rewrite clashes_docs_split, Hd0, Hp0, Hpa0, Hr0 in Hrun.
  rewrite definitions_of_merged, paths_of_merged, parameters_of_merged,
    responses_of_merged.
  split; [exact Hrun|]. do 8 (split; [assumption|]). exact Hsame.
Qed.

Lemma Mixin_disjoint_union_witness :
  ∃ h' p',
    Mixin Sample.ops Sample.primary [Sample.apart0; Sample.apart1]
    = Ok (h', p', 0%N)
    ∧ length (paths_of p') = 3
    ∧ alist_get (responses_of p') "Gone" = Some (Response.mk "" None).
Proof.
  destruct (Mixin_disjoint_union Sample.ops Sample.primary
              [Sample.apart0; Sample.apart1])
    as (h' & p' & Hrun & _ & Hlen & _ & _ & _ & _ & _ & Hresp & _);
    try by_computation.
  exists h', p'. split; [exact Hrun|]. split; [exact Hlen|].
  apply (Hresp Sample.apart1); [by right; left|by left].
Defined.

(** ** Repair of one response *)

Arguments FixEmptyDesc_val : simpl never.

Lemma keeps_desc_fixed r : keeps_desc (FixEmptyDesc_val r) = true.
Proof.
  unfold FixEmptyDesc_val. destruct (keeps_desc r) eqn:Hk; [done|].
  reflexivity.
Qed.

Lemma FixEmptyDesc_val_kept r : keeps_desc r = true → FixEmptyDesc_val r = r.
Proof. intros Hk. unfold FixEmptyDesc_val. by rewrite Hk. Qed.

Lemma FixEmptyDesc_val_idemp r :
  FixEmptyDesc_val (FixEmptyDesc_val r) = FixEmptyDesc_val r.
Proof. apply FixEmptyDesc_val_kept, keeps_desc_fixed. Qed.

(** A reference is left as it is, and so is a response that has a
    description; any other response gets the description "(empty)". *)
Lemma FixEmptyDesc_val_spec r :
  Response.Ref (FixEmptyDesc_val r) = Response.Ref r
  ∧ (Response.Ref r ≠ None → FixEmptyDesc_val r = r)
  ∧ (Response.Description r ≠ "" → FixEmptyDesc_val r = r)
  ∧ (Response.Ref r = None → Response.Description r = "" →
       Response.Description (FixEmptyDesc_val r) = "(empty)").
Proof.
  destruct r as [d rf]. unfold FixEmptyDesc_val, keeps_desc. simpl.
  destruct (decide (d = "")) as [->|Hd], rf as [u|]; simpl;
    rewrite ?bool_decide_true, ?bool_decide_false by (done || by intros []);
    simpl; repeat split; done.
Qed.

Lemma fix_entries_idemp {K} (l : list (K * Response.t)) :
  fix_entries (fix_entries l) = fix_entries l.
Proof.
  unfold fix_entries. rewrite <- list_fmap_compose. apply list_fmap_ext.
  intros i [k v] _. simpl. by rewrite FixEmptyDesc_val_idemp.
Qed.

Lemma fix_entries_kept {K} (l : list (K * Response.t)) :
  Forall (λ kv, keeps_desc kv.2 = true) l → fix_entries l = l.
Proof.
  induction 1 as [|[k v] l Hk _ IH]; [done|].
  unfold fix_entries in *. rewrite fmap_cons, IH. simpl in *.
  by rewrite FixEmptyDesc_val_kept.
Qed.

Lemma fix_entries_settled {K} (l : list (K * Response.t)) :
  Forall (λ kv, keeps_desc kv.2 = true) (fix_entries l).
Proof.
  unfold fix_entries. apply Forall_fmap, Forall_forall. intros [k v] _.
  simpl. apply keeps_desc_fixed.
Qed.

Lemma fix_entries_keys {K} (l : list (K * Response.t)) :
  (fix_entries l).*1 = l.*1.
Proof.
  unfold fix_entries. rewrite <- list_fmap_compose. by apply list_fmap_ext.
Qed.

Lemma fix_responses_idemp r : fix_responses (fix_responses r) = fix_responses r.
Proof.
  destruct r as [d [l|]]; unfold fix_responses; simpl; [|done].
  by rewrite fix_entries_idemp.
Qed.

(** ** Repair of one [Responses] object *)

Lemma store_responses_id h l r :
  h_responses h !! l = Some r → store_responses h l r = h.
Proof.
  intros Hl. destruct h as [o rs r1]. unfold store_responses. simpl in *.
  by rewrite insert_id.
Qed.

Lemma store_response_id h l r :
  h_response h !! l = Some r → store_response h l r = h.
Proof.
  intros Hl. destruct h as [o rs r1]. unfold store_response. simpl in *.
  by rewrite insert_id.
Qed.

Lemma store_responses_twice h l r r' :
  store_responses (store_responses h l r) l r' = store_responses h l r'.
Proof. unfold store_responses. simpl. by rewrite insert_insert_eq. Qed.

Lemma alist_set_mid {K V} `{EqDecision K} (pre suf : list (K * V)) k v v' :
  k ∉ pre.*1 → alist_set (pre ++ (k, v) :: suf) k v' = pre ++ (k, v') :: suf.
Proof.
  induction pre as [|[k0 v0] pre IH]; simpl.
  - intros _. by rewrite decide_True.
  - rewrite not_elem_of_cons. intros [Hne Hk].
    rewrite decide_False by done. by rewrite IH.
Qed.

Lemma NoDup_mid_fresh {K V} (pre suf : list (K * V)) k v :
  NoDup (pre ++ (k, v) :: suf).*1 → k ∉ pre.*1.
Proof.
  rewrite fmap_app, fmap_cons. intros (_ & Hdis & _)%NoDup_app Hk.
  apply (Hdis _ Hk). by left.
Qed.

Arguments fix_status : simpl never.

Lemma fix_status_loop l d suf pre h :
  NoDup (pre ++ suf).*1 →
  h_responses h !! l = Some (Responses.mk d (Some (pre ++ suf))) →
  for_each (fix_status l) suf h =
  Ok (store_responses h l (Responses.mk d (Some (pre ++ fix_entries suf)))).
Proof.
  revert pre h. induction suf as [|[k v] suf IH]; intros pre h Hnd Hl.
  - simpl. by rewrite store_responses_id.
  - cbn [for_each].
    assert (fix_status l (k, v) h =
            Ok (store_responses h l (Responses.mk d
                  (Some (pre ++ (k, FixEmptyDesc_val v) :: suf))))) as ->.
    { unfold fix_status, load. rewrite Hl. simpl.
      by rewrite alist_set_mid by by eapply NoDup_mid_fresh. }
    simpl.
    rewrite (IH (pre ++ [(k, FixEmptyDesc_val v)])).
    + rewrite store_responses_twice. unfold fix_entries.
      by rewrite <- app_assoc.
    + revert Hnd. by rewrite <- !app_assoc, !fmap_app, !fmap_cons.
    + simpl. rewrite lookup_insert_eq. by rewrite <- app_assoc.
Qed.

Lemma FixEmptyDesc_Some h dl d :
  h_response h !! dl = Some d →
  FixEmptyDesc h (Some dl) = Ok (store_response h dl (FixEmptyDesc_val d)).
Proof.
  intros Hd. unfold FixEmptyDesc, load, FixEmptyDesc_val. rewrite Hd. simpl.
  destruct (keeps_desc d); [|done]. by rewrite store_response_id.
Qed.

(** [FixEmptyDescs] on a well-formed [Responses] object. *)
Lemma FixEmptyDescs_eq h l r :
  h_responses h !! l = Some r → wf_responses h l →
  FixEmptyDescs h (Some l) = Ok (repair_responses h l r).
Proof.
  intros Hl Hwf. unfold wf_responses in Hwf. rewrite Hl in Hwf.
  destruct Hwf as [Hnd Hdef].
  unfold FixEmptyDescs, repair_responses, load. simpl. rewrite Hl. simpl.
  destruct r as [dflt scr]. simpl in *.
  set (h1 := match dflt with Some dl => _ | None => h end).
  assert (FixEmptyDesc h dflt = Ok h1) as ->.
  { subst h1. destruct dflt as [dl|]; [|done].
    destruct Hdef as [d Hd]. rewrite Hd. by apply FixEmptyDesc_Some. }
  assert (h_responses h1 !! l = Some (Responses.mk dflt scr)) as Hl1.
  { subst h1. destruct dflt as [dl|]; [|done].
    by destruct (h_response h !! dl). }
  simpl. destruct scr as [es|]; simpl.
  - by apply (fix_status_loop l dflt es []).
  - by rewrite store_responses_id.
Qed.

Lemma fix_responses_settled r :
  Forall (λ kv, keeps_desc kv.2 = true)
         (range (Responses.StatusCodeResponses r)) →
  fix_responses r = r.
Proof.
  destruct r as [d [es|]]; unfold fix_responses; simpl; [|done].
  intros Hk. by rewrite fix_entries_kept.
Qed.

Lemma keys_fix_responses r :
  keys (Responses.StatusCodeResponses (fix_responses r))
  = keys (Responses.StatusCodeResponses r).
Proof.
  destruct r as [d [es|]]; unfold keys; simpl; [|done].
  apply fix_entries_keys.
Qed.

Lemma repaired_from_refl h : repaired_from h h.
Proof. split; [done|]. split; intros l; by left. Qed.

Lemma repaired_from_trans h1 h2 h3 :
  repaired_from h1 h2 → repaired_from h2 h3 → repaired_from h1 h3.
Proof.
  intros (Ho & Hrs & Hr) (Ho' & Hrs' & Hr').
  split; [congruence|]. split; intros l.
  - destruct (Hrs l) as [H12|H12], (Hrs' l) as [H23|H23];
      rewrite H23, H12; auto.
    right. destruct (h_responses h1 !! l); simpl; [|done].
    by rewrite fix_responses_idemp.
  - destruct (Hr l) as [H12|H12], (Hr' l) as [H23|H23];
      rewrite H23, H12; auto.
    right. destruct (h_response h1 !! l); simpl; [|done].
    by rewrite FixEmptyDesc_val_idemp.
Qed.

Lemma repaired_from_wf h h' l :
  repaired_from h h' → wf_responses h l → wf_responses h' l.
Proof.
  intros (_ & Hrs & Hr). unfold wf_responses.
  destruct (h_responses h !! l) as [r|] eqn:Hl; [|done].
  intros [Hnd Hd].
  assert (∃ r', h_responses h' !! l = Some r'
            ∧ keys (Responses.StatusCodeResponses r')
              = keys (Responses.StatusCodeResponses r)
            ∧ Responses.Default r' = Responses.Default r)
    as (r' & -> & -> & ->).
  { destruct (Hrs l) as [->| ->]; rewrite Hl; simpl; eexists;
      (split; [done|]); [done|]. by rewrite keys_fix_responses. }
  split; [done|]. destruct (Responses.Default r) as [dl|]; [|done].
  destruct Hd as [d Hd]. destruct (Hr dl) as [->| ->]; rewrite Hd; by eexists.
Qed.

Lemma repaired_from_settled h h' l :
  repaired_from h h' → settled_responses h l → settled_responses h' l.
Proof.
  intros (_ & Hrs & Hr). unfold settled_responses.
  destruct (h_responses h !! l) as [r|] eqn:Hl; [|done].
  intros (Hnd & Hk & Hd).
  assert (h_responses h' !! l = Some r) as ->.
  { destruct (Hrs l) as [->| ->]; rewrite Hl; [done|]. simpl.
    by rewrite fix_responses_settled. }
  split; [done|]. split; [done|].
  destruct (Responses.Default r) as [dl|]; [|done].
  destruct (h_response h !! dl) as [d|] eqn:Hdl; [|done].
  destruct (Hr dl) as [->| ->]; rewrite Hdl; [done|]. simpl.
  by rewrite FixEmptyDesc_val_kept.
Qed.

Lemma repair_responses_from h l r :
  h_responses h !! l = Some r → repaired_from h (repair_responses h l r).
Proof.
  intros Hl. unfold repair_responses.
  set (h1 := match Responses.Default r with Some dl => _ | None => h end).
  assert (h_operation h1 = h_operation h ∧ h_responses h1 = h_responses h
          ∧ ∀ l', h_response h1 !! l' = h_response h !! l'
                  ∨ h_response h1 !! l'
                    = FixEmptyDesc_val <$> h_response h !! l')
    as (Ho & Hrs & Hr).
  { subst h1. destruct (Responses.Default r) as [dl|]; [|by auto].
    destruct (h_response h !! dl) as [d|] eqn:Hd; [|by auto].
    split; [done|]. split; [done|]. intros l'. simpl.
    destruct (decide (dl = l')) as [<-|Hne].
    - right. by rewrite lookup_insert_eq, Hd.
    - left. by rewrite lookup_insert_ne. }
  split; [done|]. split; [|done]. intros l'. simpl. rewrite Hrs.
  destruct (decide (l = l')) as [<-|Hne].
  - right. by rewrite lookup_insert_eq, Hl.
  - left. by rewrite lookup_insert_ne.
Qed.

Lemma repair_responses_lookup h l r :
  h_responses (repair_responses h l r) !! l = Some (fix_responses r).
Proof. unfold repair_responses. simpl. by rewrite lookup_insert_eq. Qed.

Lemma repair_responses_settled h l r :
  h_responses h !! l = Some r → wf_responses h l →
  settled_responses (repair_responses h l r) l.
Proof.
  intros Hl Hwf. unfold settled_responses.
  rewrite repair_responses_lookup.
  unfold wf_responses in Hwf. rewrite Hl in Hwf. destruct Hwf as [Hnd Hd].
  split; [by rewrite keys_fix_responses|]. split.
  - destruct r as [d [es|]]; simpl; [apply fix_entries_settled|constructor].
  - unfold fix_responses, repair_responses. simpl.
    destruct (Responses.Default r) as [dl|]; [|done].
    destruct Hd as [d Hd]. rewrite Hd. simpl. rewrite lookup_insert_eq.
    apply keeps_desc_fixed.
Qed.

Lemma repair_responses_id h l r :
  h_responses h !! l = Some r → settled_responses h l →
  repair_responses h l r = h.
Proof.
  intros Hl. unfold settled_responses. rewrite Hl. intros (_ & Hk & Hd).
  unfold repair_responses. rewrite fix_responses_settled by done.
  destruct (Responses.Default r) as [dl|]; [|by apply store_responses_id].
  destruct (h_response h !! dl) as [d|] eqn:Hdl; [|done].
  rewrite FixEmptyDesc_val_kept by done.
  rewrite store_response_id by done. by apply store_responses_id.
Qed.

Lemma settled_wf h l : settled_responses h l → wf_responses h l.
Proof.
  unfold settled_responses, wf_responses.
  destruct (h_responses h !! l) as [r|]; [|done].
  intros (Hnd & _ & Hd). split; [done|].
  destruct (Responses.Default r) as [dl|]; [|done].
  by destruct (h_response h !! dl).
Qed.

(** ** Repair of the responses of an operation *)

Arguments FixEmptyDescs : simpl never.

Lemma on_responses_inv P h l :
  on_responses P h (Some l) →
  ∃ o rl, h_operation h !! l = Some o ∧ Operation.Responses o = Some rl
          ∧ P h rl.
Proof.
  simpl. destruct (h_operation h !! l) as [o|]; [|done].
  destruct (Operation.Responses o) as [rl|] eqn:Hr; [|done]. eauto.
Qed.

Lemma fix_operation_total h op :
  on_responses wf_responses h op →
  ∃ h', fix_operation h op = Ok h' ∧ repaired_from h h'
        ∧ on_responses settled_responses h' op.
Proof.
  destruct op as [l|]; [|exists h; by auto using repaired_from_refl].
  intros (o & rl & Ho & Hrl & Hwf)%on_responses_inv.
  unfold fix_operation, load. rewrite Ho. simpl. rewrite Hrl.
  pose proof Hwf as Hwf'. unfold wf_responses in Hwf'.
  destruct (h_responses h !! rl) as [r|] eqn:Hr; [|done].
  rewrite (FixEmptyDescs_eq h rl r) by done.
  exists (repair_responses h rl r). split; [done|].
  pose proof (repair_responses_from h rl r Hr) as Hfrom.
  split; [done|]. destruct Hfrom as (-> & _). rewrite Ho, Hrl.
  by apply repair_responses_settled.
Qed.

Lemma fix_operation_id h op :
  on_responses settled_responses h op → fix_operation h op = Ok h.
Proof.
  destruct op as [l|]; [|done].
  intros (o & rl & Ho & Hrl & Hs)%on_responses_inv.
  unfold fix_operation, load. rewrite Ho. simpl. rewrite Hrl.
  pose proof Hs as Hs'. unfold settled_responses in Hs'.
  destruct (h_responses h !! rl) as [r|] eqn:Hr; [|done].
  rewrite (FixEmptyDescs_eq h rl r) by auto using settled_wf.
  by rewrite repair_responses_id.
Qed.

Lemma repaired_from_on P h h' op :
  (∀ l, P h l → P h' l) → h_operation h' = h_operation h →
  on_responses P h op → on_responses P h' op.
Proof.
  intros HP Ho. destruct op as [l|]; [|done]. simpl. rewrite Ho.
  destruct (h_operation h !! l) as [o|]; [|done].
  destruct (Operation.Responses o); [apply HP|done].
Qed.

(** ** Loops of repairs *)

Lemma for_each_ext {A S} (f g : A → S → res S) l s :
  (∀ a t, f a t = g a t) → for_each f l s = for_each g l s.
Proof.
  intros Hfg. revert s. induction l as [|a l IH]; intros s; simpl; [done|].
  rewrite Hfg. destruct (g a s); simpl; [apply IH|done].
Qed.

Section settle_loop.
Context {X : Type} (step : X → heap → res heap).
Context (wf settled : heap → X → Prop).
Hypothesis step_total : ∀ h x,
  wf h x → ∃ h', step x h = Ok h' ∧ repaired_from h h' ∧ settled h' x.
Hypothesis step_id : ∀ h x, settled h x → step x h = Ok h.
Hypothesis wf_mono : ∀ h h' x, repaired_from h h' → wf h x → wf h' x.
Hypothesis settled_mono : ∀ h h' x,
  repaired_from h h' → settled h x → settled h' x.

(** The loop succeeds and leaves everything it went over settled. *)
Lemma settle_loop_total xs h :
  Forall (wf h) xs →
  ∃ h', for_each step xs h = Ok h' ∧ repaired_from h h'
        ∧ Forall (settled h') xs.
Proof.
  revert h. induction xs as [|x xs IH]; intros h Hwf.
  - exists h. split; [done|]. split; [apply repaired_from_refl|constructor].
  - apply Forall_cons in Hwf as [Hx Hxs].
    destruct (step_total h x Hx) as (h1 & Hstep & Hfrom & Hset).
    destruct (IH h1) as (h' & Hrun & Hfrom' & Hset').
    { eapply Forall_impl; [exact Hxs|]. intros y. by apply wf_mono. }
    exists h'. cbn [for_each]. rewrite Hstep. simpl. split; [done|].
    split; [by eapply repaired_from_trans|].
    constructor; [by eapply settled_mono|done].
Qed.

(** On settled things the loop does nothing. *)
Lemma settle_loop_id xs h :
  Forall (settled h) xs → for_each step xs h = Ok h.
Proof.
  induction 1 as [|x xs Hx _ IH]; [done|].
  cbn [for_each]. by rewrite step_id.
Qed.

End settle_loop.

Lemma fix_path_item_eq kv h :
  fix_path_item kv h = for_each fix_op_step (all_ops kv.2) h.
Proof.
  unfold fix_path_item, all_ops, fix_op_step. cbn [for_each].
  repeat (match goal with
          | |- context [fix_operation ?h ?o ≫= _] =>
              destruct (fix_operation h o); simpl; try done
          end).
Qed.

Lemma fix_paths_eq items h :
  for_each fix_path_item items h =
  for_each fix_op_step (concat ((λ kv, all_ops kv.2) <$> items)) h.
Proof.
  rewrite <- for_each_concat. apply for_each_ext. apply fix_path_item_eq.
Qed.

Lemma fix_top_loop suf pre :
  NoDup (pre ++ suf).*1 →
  for_each fix_top_response suf (Some (pre ++ suf)) =
  Ok (Some (pre ++ fix_entries suf)).
Proof.
  revert pre. induction suf as [|[k v] suf IH]; intros pre Hnd; [done|].
  cbn [for_each]. unfold fix_top_response at 1. simpl.
  rewrite alist_set_mid by by eapply NoDup_mid_fresh. simpl.
  replace (pre ++ (k, FixEmptyDesc_val v) :: suf)
    with ((pre ++ [(k, FixEmptyDesc_val v)]) ++ suf) by by rewrite <- app_assoc.
  rewrite IH.
  - unfold fix_entries. by rewrite <- app_assoc.
  - revert Hnd. by rewrite <- !app_assoc, !fmap_app, !fmap_cons.
Qed.

Lemma fix_top_eq (m : gomap string Response.t) :
  NoDup (range m).*1 →
  for_each fix_top_response (range m) m = Ok (fix_entries <$> m).
Proof.
  destruct m as [es|]; simpl; [|done]. intros Hnd.
  by apply (fix_top_loop es []).
Qed.

Lemma Forall_concat_fmap {A B} (P : B → Prop) (f : A → list B) (l : list A) :
  Forall (λ a, Forall P (f a)) l ↔ Forall P (concat (f <$> l)).
Proof.
  induction l as [|a l IH]; simpl.
  - split; constructor.
  - rewrite Forall_cons, Forall_app, IH. done.
Qed.

Lemma FixEmptyResponseDescriptions_total h s :
  fix_ready h s →
  ∃ h', FixEmptyResponseDescriptions h s = Ok (h', repaired_doc s)
    ∧ repaired_from h h'
    ∧ Forall (on_responses settled_responses h') (repair_targets s).
Proof.
  intros ([ps Hps] & Hnd & Hwf).
  apply Forall_concat_fmap in Hwf. fold (repair_targets s) in Hwf.
  destruct (settle_loop_total fix_op_step (on_responses wf_responses)
              (on_responses settled_responses)) with (xs := repair_targets s)
              (h := h) as (h' & Hrun & Hfrom & Hset); try done.
  - intros h0 x. apply fix_operation_total.
  - intros h0 h1 x Hf. pose proof Hf as (Ho & _).
    apply repaired_from_on; [|done]. intros l. by apply repaired_from_wf.
  - intros h0 h1 x Hf. pose proof Hf as (Ho & _).
    apply repaired_from_on; [|done]. intros l. by apply repaired_from_settled.
  - exists h'. split; [|done].
    unfold FixEmptyResponseDescriptions. rewrite Hps. simpl.
    rewrite fix_paths_eq. unfold repair_targets, paths_of in Hrun.
    rewrite Hps in Hrun. rewrite Hrun. simpl.
    rewrite fix_top_eq by done. simpl. unfold repaired_doc. by rewrite Hps.
Qed.

Lemma FixEmptyResponseDescriptions_settled h s :
  is_Some (Swagger.Paths s) → NoDup (responses_of s).*1 →
  Forall (on_responses settled_responses h) (repair_targets s) →
  FixEmptyResponseDescriptions h (repaired_doc s) = Ok (h, repaired_doc s).
Proof.
  intros [ps Hps] Hnd Hset.
  unfold FixEmptyResponseDescriptions, repaired_doc. simpl. rewrite Hps. simpl.
  rewrite fix_paths_eq.
  unfold repair_targets, paths_of in Hset. rewrite Hps in Hset.
  rewrite (settle_loop_id fix_op_step (on_responses settled_responses))
    by (done || apply fix_operation_id).
  simpl. rewrite fix_top_eq.
  - simpl. do 3 f_equal. destruct (Swagger.Responses s); simpl; [|done].
    by rewrite fix_entries_idemp.
  - unfold responses_of in Hnd. destruct (Swagger.Responses s); simpl in *; [|done].
    by rewrite fix_entries_keys.
Qed.

(** A settled object of the heap after the repair is the repaired object
    of the heap before. *)
Lemma settled_is_repaired h h' rl r :
  repaired_from h h' → settled_responses h' rl →
  h_responses h !! rl = Some r →
  h_responses h' !! rl = Some (fix_responses r)
  ∧ ∀ dl d, Responses.Default r = Some dl → h_response h !! dl = Some d →
            h_response h' !! dl = Some (FixEmptyDesc_val d).
Proof.
  intros (_ & Hrs & Hr) Hset Hl. unfold settled_responses in Hset.
  destruct (Hrs rl) as [Heq|Heq]; rewrite Heq, Hl in Hset; simpl in Hset;
    destruct Hset as (_ & Hk & Hd).
  - rewrite Heq, Hl, fix_responses_settled by done. split; [done|].
    intros dl d Hdl Hd0. rewrite Hdl in Hd.
    destruct (Hr dl) as [Heq'|Heq']; rewrite Heq', Hd0 in Hd |- *; [|done].
    by rewrite FixEmptyDesc_val_kept.
  - rewrite Heq, Hl. split; [done|].
    intros dl d Hdl Hd0. simpl in Hd. rewrite Hdl in Hd.
    destruct (Hr dl) as [Heq'|Heq']; rewrite Heq', Hd0 in Hd |- *; [|done].
    by rewrite FixEmptyDesc_val_kept.
Qed.

(** ** The repair is idempotent *)

(** C5.  On a document that is ready for it, the repair succeeds, a second
    repair changes nothing, and the first one leaves every response it
    reaches (the top-level ones, and the default and the status-code
    responses of every operation of every path item) as [FixEmptyDesc]
    leaves it: a reference and a response with a description as they were,
    any other response with the description "(empty)". *)
Theorem FixEmptyResponseDescriptions_idempotent h s :
  fix_ready h s →
  ∃ h' s',
    FixEmptyResponseDescriptions h s = Ok (h', s')
    ∧ FixEmptyResponseDescriptions h' s' = Ok (h', s')
    ∧ Swagger.Paths s' = Swagger.Paths s
    ∧ responses_of s' = fix_entries (responses_of s)
    ∧ (∀ k v l o rl r,
         (k, v) ∈ paths_of s → Some l ∈ all_ops v →
         h_operation h !! l = Some o → Operation.Responses o = Some rl →
         h_responses h !! rl = Some r →
         h_operation h' !! l = Some o
         ∧ h_responses h' !! rl = Some (fix_responses r)
         ∧ ∀ dl d, Responses.Default r = Some dl →
                   h_response h !! dl = Some d →
                   h_response h' !! dl = Some (FixEmptyDesc_val d))
    ∧ (∀ r, Response.Ref (FixEmptyDesc_val r) = Response.Ref r
            ∧ (Response.Ref r ≠ None → FixEmptyDesc_val r = r)
            ∧ (Response.Description r ≠ "" → FixEmptyDesc_val r = r)
            ∧ (Response.Ref r = None → Response.Description r = "" →
                 Response.Description (FixEmptyDesc_val r) = "(empty)")).
Proof.
  intros Hready.
  destruct (FixEmptyResponseDescriptions_total h s Hready)
    as (h' & Hrun & Hfrom & Hset).
  destruct Hready as (Hps & Hnd & _).
  exists h', (repaired_doc s). split; [done|].
  split; [by apply FixEmptyResponseDescriptions_settled|].
  split; [done|]. split.
  { unfold responses_of, repaired_doc. simpl.
    by destruct (Swagger.Responses s). }
  split; [|apply FixEmptyDesc_val_spec].
  intros k v l o rl r Hkv Hop Ho Hrl Hr.
  pose proof Hfrom as (Hops & _).
  split; [by rewrite Hops|].
  apply (settled_is_repaired h h' rl r); [done| |done].
  rewrite Forall_forall in Hset.
  assert (Some l ∈ repair_targets s) as Hin.
  { apply elem_of_concat. exists (all_ops v). split; [done|].
    apply list_elem_of_fmap. by exists (k, v). }
  apply Hset in Hin. simpl in Hin. by rewrite Hops, Ho, Hrl in Hin.
Qed.

Lemma FixEmptyResponseDescriptions_idempotent_witness :
  ∃ h' s',
    FixEmptyResponseDescriptions Sample.to_repair Sample.unrepaired
    = Ok (h', s')
    ∧ FixEmptyResponseDescriptions h' s' = Ok (h', s')
    ∧ responses_of s'
      = [("NotFound", Response.mk "(empty)" None);
         ("Moved", Response.mk "" (Some "#/responses/Other"))]
    ∧ h_response h' !! 30%positive = Some (Response.mk "(empty)" None).
Proof.
  destruct (FixEmptyResponseDescriptions_idempotent
              Sample.to_repair Sample.unrepaired)
    as (h' & s' & Hrun & Hagain & _ & Htop & Hreach & _); [by_computation|].
  exists h', s'. split; [exact Hrun|]. split; [exact Hagain|].
  split; [exact Htop|].
  edestruct (Hreach "/a" (Sample.options_only 10%positive) 10%positive)
    as (_ & _ & Hdefault).
  - by left.
  - do 4 right. by left.
  - reflexivity.
  - reflexivity.
  - reflexivity.
  - apply (Hdefault 30%positive (Response.mk "" None)); reflexivity.
Defined.

(** ** Nil containers *)

Ltac res_split :=
  repeat (res_inv;
          repeat match goal with
                 | x : (_ * _)%type |- _ => destruct x
                 end;
          simpl in *).

Lemma mix_entries_nil_Ok {V} (src : list (string * V)) c r :
  for_each mix_entry src (None, c) = Ok r → src = [] ∧ r = (None, c).
Proof. rewrite mix_entries_nil. destruct src; [by intros [= <-]|done]. Qed.

Lemma mix_paths_nil_Ok i src h ids c r :
  for_each (mix_path i) src (h, ids, Some (Paths.mk None), c) = Ok r →
  src = [] ∧ r = (h, ids, Some (Paths.mk None), c).
Proof.
  destruct src as [|[k v] src]; [by intros [= <-]|].
  intros Hrun. exfalso. cbn [for_each] in Hrun.
  apply bind_Ok in Hrun as (st & Hstep & _).
  unfold mix_path in Hstep. simpl in Hstep.
  apply bind_Ok in Hstep as ([h1 ids1] & _ & Hset). done.
Qed.

(** A round that succeeds on a primary with a nil map found nothing to
    add to that map, and leaves it nil. *)
Lemma mix_one_nil i m h ids p c h' ids' p' c' :
  mix_one i m (h, ids, p, c) = Ok (h', ids', p', c') →
  (Swagger.Definitions p = None →
     definitions_of m = [] ∧ Swagger.Definitions p' = None)
  ∧ (Swagger.Paths p = Some (Paths.mk None) →
     paths_of m = [] ∧ Swagger.Paths p' = Some (Paths.mk None))
  ∧ (Swagger.Parameters p = None →
     parameters_of m = [] ∧ Swagger.Parameters p' = None)
  ∧ (Swagger.Responses p = None →
     responses_of m = [] ∧ Swagger.Responses p' = None).
Proof.
  unfold mix_one. intros Hrun. res_split.
  unfold definitions_of, paths_of, parameters_of, responses_of.
  destruct (Swagger.Paths m) as [mp|] eqn:Hmp; [|done].
  simpl in *. res_inv.
  split; [|split; [|split]]; intros Hnil; rewrite Hnil in *;
    match goal with
    | H : for_each mix_entry _ (None, _) = Ok _ |- _ =>
        apply mix_entries_nil_Ok in H as [? [= ? ?]]; by subst
    | H : for_each (mix_path _) _ (_, _, Some (Paths.mk None), _) = Ok _ |- _ =>
        apply mix_paths_nil_Ok in H as [? [= ? ? ? ?]]; by subst
    end.
Qed.

Lemma mix_from_nil i ms h ids p c st' m :
  mix_from i ms (h, ids, p, c) = Ok st' → m ∈ ms →
  (Swagger.Definitions p = None → definitions_of m = [])
  ∧ (Swagger.Paths p = Some (Paths.mk None) → paths_of m = [])
  ∧ (Swagger.Parameters p = None → parameters_of m = [])
  ∧ (Swagger.Responses p = None → responses_of m = []).
Proof.
  revert i h ids p c. induction ms as [|m0 ms IH]; intros i h ids p c Hrun Hm.
  - by apply elem_of_nil in Hm.
  - cbn [mix_from] in Hrun. apply bind_Ok in Hrun as ([[[h1 ids1] p1] c1] & Hone & Hrun).
    apply mix_one_nil in Hone as (Hd & Hp & Hpa & Hr).
    apply elem_of_cons in Hm as [->|Hm].
    + repeat split; intros Hnil; [apply Hd|apply Hp|apply Hpa|apply Hr]; done.
    + destruct (IH _ _ _ _ _ Hrun Hm) as (Hd' & Hp' & Hpa' & Hr').
      repeat split; intros Hnil;
        [apply Hd', Hd|apply Hp', Hp|apply Hpa', Hpa|apply Hr', Hr]; done.
Qed.

(** [Mixin] panics when a map of the primary is nil and a mixin has an
    entry for it. *)
Lemma Mixin_nil_panics h p ms m :
  m ∈ ms →
  (Swagger.Definitions p = None ∧ definitions_of m ≠ [])
  ∨ (Swagger.Paths p = Some (Paths.mk None) ∧ paths_of m ≠ [])
  ∨ (Swagger.Parameters p = None ∧ parameters_of m ≠ [])
  ∨ (Swagger.Responses p = None ∧ responses_of m ≠ []) →
  panics (Mixin h p ms).
Proof.
  intros Hm Hnil. destruct (Ok_or_panics (Mixin h p ms)) as [[r Hrun]|]; [|done].
  exfalso. unfold Mixin in Hrun. apply bind_Ok in Hrun as (ids & _ & Hrun).
  apply bind_Ok in Hrun as (st' & Hrun & _).
  destruct (mix_from_nil _ _ _ _ _ _ _ m Hrun Hm) as (Hd & Hp & Hpa & Hr).
  destruct Hnil as [[? ?]|[[? ?]|[[? ?]|[? ?]]]]; auto.
Qed.

(** ** A nil [Responses] pointer *)

Lemma FixEmptyDesc_ops h rs h' :
  FixEmptyDesc h rs = Ok h' → h_operation h' = h_operation h.
Proof.
  unfold FixEmptyDesc. destruct rs as [l|]; [|by intros [= <-]].
  intros Hrun. res_inv. destruct (keeps_desc a); by injection Hrun as <-.
Qed.

Lemma FixEmptyDescs_ops h rs h' :
  FixEmptyDescs h rs = Ok h' → h_operation h' = h_operation h.
Proof.
  unfold FixEmptyDescs. intros Hrun. res_inv.
  match goal with H : FixEmptyDesc _ _ = Ok _ |- _ =>
    apply FixEmptyDesc_ops in H end.
  eapply (for_each_inv (λ t, h_operation t = h_operation h)) in Hrun;
    [done| |done].
  intros [k v] t t' _ Ht. unfold fix_status. intros Hs. res_inv. done.
Qed.

Lemma fix_operation_ops h op h' :
  fix_operation h op = Ok h' → h_operation h' = h_operation h.
Proof.
  destruct op as [l|]; simpl; [|by intros [= <-]].
  intros Hrun. res_inv. by eapply FixEmptyDescs_ops.
Qed.

Lemma fix_targets_nil_panics xs h l o :
  Some l ∈ xs → h_operation h !! l = Some o → Operation.Responses o = None →
  panics (for_each fix_op_step xs h).
Proof.
  revert h. induction xs as [|x xs IH]; intros h Hin Ho Hnil.
  - by apply elem_of_nil in Hin.
  - cbn [for_each]. apply elem_of_cons in Hin as [<-|Hin].
    + apply bind_Panic_l. exists NilDeref.
      unfold fix_op_step, fix_operation, load. rewrite Ho. simpl.
      by rewrite Hnil.
    + destruct (fix_op_step x h) as [h1|e] eqn:Hstep; [|by exists e].
      simpl. apply (IH h1); [done| |done].
      apply fix_operation_ops in Hstep. by rewrite Hstep.
Qed.

Lemma FixEmptyResponseDescriptions_nil_panics h s k v l o :
  (k, v) ∈ paths_of s → Some l ∈ all_ops v →
  h_operation h !! l = Some o → Operation.Responses o = None →
  panics (FixEmptyResponseDescriptions h s).
Proof.
  intros Hkv Hl Ho Hnil. unfold FixEmptyResponseDescriptions.
  unfold paths_of in Hkv.
  destruct (Swagger.Paths s) as [ps|]; [|by apply elem_of_nil in Hkv].
  simpl. apply bind_Panic_l. rewrite fix_paths_eq.
  apply (fix_targets_nil_panics _ h l o); [|done|done].
  apply elem_of_concat. exists (all_ops v). split; [done|].
  apply list_elem_of_fmap. by exists (k, v).
Qed.

(** ** The two scans *)

Lemma collect_ops_allocated h ls rv rv' :
  for_each (collect_op h) ls rv = Ok rv' → ops_allocated h ls.
Proof.
  revert rv. induction ls as [|l ls IH]; intros rv Hrun l' Hl'.
  - by apply elem_of_nil in Hl'.
  - cbn [for_each] in Hrun. apply bind_Ok in Hrun as (rv1 & Hstep & Hrun).
    apply elem_of_cons in Hl' as [->|Hl']; [|by eapply IH].
    unfold collect_op, load in Hstep.
    destruct (h_operation h !! l); [by eexists|done].
Qed.

Lemma getOpIds_Ok h s ids id :
  getOpIds h s = Ok ids → seen ids id = true →
  ∃ k v l, (k, v) ∈ paths_of s ∧ l ∈ pathItemOps v ∧ op_id h l = Some id.
Proof.
  intros Hrun Hseen.
  destruct (Swagger.Paths s) as [ps|] eqn:Hps;
    [|by unfold getOpIds in Hrun; rewrite Hps in Hrun].
  rewrite (getOpIds_eq _ _ _ Hps) in Hrun.
  destruct (collect_ops_spec h (scanned_ops s) ∅) as (ids' & Hrun' & Hids).
  { by eapply collect_ops_allocated. }
  rewrite Hrun in Hrun'. injection Hrun' as <-.
  apply Hids in Hseen as [Hseen|(l & Hl & Hid)].
  - by rewrite seen_empty in Hseen.
  - apply elem_of_item_ops in Hl as (k & v & Hkv & Hl). by exists k, v, l.
Qed.

(** The repair reaches the responses of the operations of all seven
    methods. *)
Lemma FixEmptyResponseDescriptions_reach h s :
  fix_ready h s →
  ∃ h', FixEmptyResponseDescriptions h s = Ok (h', repaired_doc s)
    ∧ ∀ k v l o rl r,
        (k, v) ∈ paths_of s → Some l ∈ all_ops v →
        h_operation h !! l = Some o → Operation.Responses o = Some rl →
        h_responses h !! rl = Some r →
        h_responses h' !! rl = Some (fix_responses r)
        ∧ ∀ dl d, Responses.Default r = Some dl →
                  h_response h !! dl = Some d →
                  h_response h' !! dl = Some (FixEmptyDesc_val d).
Proof.
  intros Hready.
  destruct (FixEmptyResponseDescriptions_total h s Hready)
    as (h' & Hrun & Hfrom & Hset).
  exists h'. split; [done|]. intros k v l o rl r Hkv Hop Ho Hrl Hr.
  pose proof Hfrom as (Hops & _).
  apply (settled_is_repaired h h' rl r); [done| |done].
  rewrite Forall_forall in Hset.
  assert (Some l ∈ repair_targets s) as Hin.
  { apply elem_of_concat. exists (all_ops v). split; [done|].
    apply list_elem_of_fmap. by exists (k, v). }
  apply Hset in Hin. simpl in Hin. by rewrite Hops, Ho, Hrl in Hin.
Qed.

(** The registry after one round of the renaming loop: what was in it
    and the identifier the operation has now. *)
Lemma rename_op_registry i l h0 ids h1 ids1 :
  rename_op i l (h0, ids) = Ok (h1, ids1) →
  ∀ id, seen ids1 id = true ↔ seen ids id = true ∨ op_id h1 l = Some id.
Proof.
  intros Hrun. destruct (rename_op_Ok_inv _ _ _ _ _ _ Hrun) as [o Ho].
  rewrite (rename_op_Ok _ _ _ _ _ Ho) in Hrun. intros id.
  destruct (seen ids (Operation.ID o)) eqn:Hseen; injection Hrun as <- <-;
    rewrite seen_insert.
  - unfold op_id, store_operation. simpl. rewrite lookup_insert_eq. simpl.
    destruct (decide (mixin_id (Operation.ID o) i = id)) as [->|Hne].
    + split; [by right|done].
    + split; [by left|]. intros [?|[= ?]]; done.
  - unfold op_id. rewrite Ho. simpl.
    destruct (decide (Operation.ID o = id)) as [->|Hne].
    + split; [by right|done].
    + split; [by left|]. intros [?|[= ?]]; done.
Qed.

(** C8.  [pathItemOps] returns the operations under Get, Put, Post,
    Delete, Head and Patch, and not the one under Options.  The registry
    that [getOpIds] builds holds the identifiers of all operations under
    these six methods of the path items and no other identifier, so an
    identifier that only an OPTIONS operation has is not in it; a round of
    the renaming loop adds the identifier of its operation, which is one
    of [pathItemOps], and nothing else.  The repair goes over all seven
    methods: the responses of an OPTIONS operation are repaired. *)
Theorem Options_scanned_by_repair_only h s :
  (∀ v l, l ∈ pathItemOps v ↔
     PathItem.Get v = Some l ∨ PathItem.Put v = Some l
     ∨ PathItem.Post v = Some l ∨ PathItem.Delete v = Some l
     ∨ PathItem.Head v = Some l ∨ PathItem.Patch v = Some l)
  ∧ (∀ ids id, getOpIds h s = Ok ids → seen ids id = true →
       ∃ k v l, (k, v) ∈ paths_of s ∧ l ∈ pathItemOps v
                ∧ op_id h l = Some id)
  ∧ (is_Some (Swagger.Paths s) → ops_allocated h (scanned_ops s) →
     ∃ ids,
       getOpIds h s = Ok ids
       ∧ (∀ id, seen ids id = true ↔
                ∃ k v l, (k, v) ∈ paths_of s ∧ l ∈ pathItemOps v
                         ∧ op_id h l = Some id)
       ∧ (∀ id, (∀ k v l, (k, v) ∈ paths_of s → op_id h l = Some id →
                          PathItem.Options v = Some l
                          ∧ l ∉ pathItemOps v) →
                seen ids id = false))
  ∧ (∀ i l h0 ids h1 ids1,
       rename_op i l (h0, ids) = Ok (h1, ids1) →
       ∀ id, seen ids1 id = true ↔
             seen ids id = true ∨ op_id h1 l = Some id)
  ∧ (∀ kv h0, fix_path_item kv h0 =
       for_each fix_op_step
         [PathItem.Get kv.2; PathItem.Put kv.2; PathItem.Post kv.2;
          PathItem.Delete kv.2; PathItem.Options kv.2; PathItem.Head kv.2;
          PathItem.Patch kv.2] h0)
  ∧ (fix_ready h s →
     ∃ h' s',
       FixEmptyResponseDescriptions h s = Ok (h', s')
       ∧ ∀ k v l o rl r,
           (k, v) ∈ paths_of s → PathItem.Options v = Some l →
           h_operation h !! l = Some o → Operation.Responses o = Some rl →
           h_responses h !! rl = Some r →
           h_responses h' !! rl = Some (fix_responses r)
           ∧ ∀ dl d, Responses.Default r = Some dl →
                     h_response h !! dl = Some d →
                     h_response h' !! dl = Some (FixEmptyDesc_val d)).
Proof.
  split; [intros v l; apply elem_of_pathItemOps|].
  split; [apply getOpIds_Ok|].
  split.
  { intros Hps Ha. destruct (getOpIds_spec h s Hps Ha) as (ids & Hrun & Hids).
    assert (∀ id, seen ids id = true ↔
                  ∃ k v l, (k, v) ∈ paths_of s ∧ l ∈ pathItemOps v
                           ∧ op_id h l = Some id) as Hiff.
    { intros id. rewrite Hids. split.
      - intros (l & (k & v & Hkv & Hl)%elem_of_item_ops & Hid).
        by exists k, v, l.
      - intros (k & v & l & Hkv & Hl & Hid). exists l. split; [|done].
        apply elem_of_item_ops. by exists k, v. }
    exists ids. split; [done|]. split; [done|].
    intros id Honly. destruct (seen ids id) eqn:Hseen; [|done].
    apply Hiff in Hseen as (k & v & l & Hkv & Hl & Hid).
    by destruct (Honly k v l Hkv Hid) as [_ Hnot]. }
  split; [apply rename_op_registry|].
  split; [apply fix_path_item_eq|].
  intros Hready.
  destruct (FixEmptyResponseDescriptions_reach h s Hready) as (h' & Hrun & Hreach).
  exists h', (repaired_doc s). split; [done|].
  intros k v l o rl r Hkv Hopt. apply (Hreach k v); [done|].
  unfold all_ops. rewrite <- Hopt. do 4 right. by left.
Qed.

Lemma Options_scanned_by_repair_only_witness :
  (∃ ids, getOpIds Sample.to_repair Sample.unrepaired = Ok ids
          ∧ seen ids "optA" = false)
  ∧ ∃ h' s',
      FixEmptyResponseDescriptions Sample.to_repair Sample.unrepaired
      = Ok (h', s')
      ∧ h_responses h' !! 20%positive
        = Some (Responses.mk (Some 30%positive)
                  (Some [(200%Z, Response.mk "(empty)" None);
                         (404%Z, Response.mk "" (Some "#/responses/NotFound"));
                         (500%Z, Response.mk "boom" None)])).
Proof.
  pose proof (Options_scanned_by_repair_only Sample.to_repair Sample.unrepaired)
    as (Hops & _ & Hscan & _ & _ & Hfix).
  split.
  - destruct Hscan as (ids & Hrun & _ & Honly); [by eexists|by_computation|].
    exists ids. split; [exact Hrun|]. apply Honly.
    intros k v l Hkv Hid.
    apply list_elem_of_singleton in Hkv. injection Hkv as -> ->.
    assert (l = 10%positive) as ->.
    { unfold op_id in Hid.
      destruct (h_operation Sample.to_repair !! l) as [o|] eqn:Ho; [|done].
      unfold Sample.to_repair in Ho. simpl in Ho.
      apply lookup_singleton_Some in Ho as [Heq _]. by symmetry. }
    split; [reflexivity|]. intros Hl. apply Hops in Hl. simpl in Hl.
    by repeat destruct Hl as [Hl|Hl].
  - destruct Hfix as (h' & s' & Hrun & Hreach); [by_computation|].
    exists h', s'. split; [exact Hrun|].
    edestruct (Hreach "/a" (Sample.options_only 10%positive) 10%positive)
      as (Hresp & _).
    + by left.
    + reflexivity.
    + reflexivity.
    + reflexivity.
    + reflexivity.
    + exact Hresp.
Defined.

(** ** The scenario of two documents with the path "/a" *)

(** C4, as the claim has it: count 1, the paths "/a" and "/b", the primary
    keeps its "/a", the operation of "/b" is still getA and getAMixin0 is
    nowhere.  The run does not end like that. *)
Lemma Mixin_scenario_not_as_claimed :
  ¬ ∃ h' p',
      Mixin Sample.scenario_ops Sample.scenario_primary [Sample.scenario_mixin]
      = Ok (h', p', 1%N)
      ∧ (∀ k, k ∈ path_keys p' ↔ k = "/a" ∨ k = "/b")
      ∧ alist_get (paths_of p') "/a" = Some (Sample.get_only 1%positive)
      ∧ op_id h' 3%positive = Some "getA"
      ∧ ∀ l, op_id h' l ≠ Some "getAMixin0".
Proof.
  intros (h' & p' & Hrun & _ & _ & Hid & _).
  vm_compute in Hrun. injection Hrun as <- <-. vm_compute in Hid.
  discriminate Hid.
Qed.

(** C4, amended.  Whatever the mixin has under "/a", and in whichever
    order its two paths are visited: the count is 1, the paths of the
    primary are "/a" and "/b", "/a" is the entry of the primary, and the
    operation of "/b", whose identifier getA the registry has from the
    primary, is renamed getAMixin0; no other operation changes. *)
Theorem Mixin_scenario (va : PathItem.t) :
  let merged :=
    (store_operation Sample.scenario_ops 3%positive (Sample.op "getAMixin0"),
     Sample.doc [("/a", Sample.get_only 1%positive);
                 ("/b", Sample.get_only 3%positive)] [] [] [],
     1%N) in
  Mixin Sample.scenario_ops Sample.scenario_primary
    [Sample.doc [("/a", va); ("/b", Sample.get_only 3%positive)] [] [] []]
  = Ok merged
  ∧ Mixin Sample.scenario_ops Sample.scenario_primary
      [Sample.doc [("/b", Sample.get_only 3%positive); ("/a", va)] [] [] []]
    = Ok merged
  ∧ op_id merged.1.1 3%positive = Some "getAMixin0"
  ∧ op_id merged.1.1 1%positive = Some "getA"
  ∧ op_id merged.1.1 2%positive = Some "getA".
Proof. repeat split; reflexivity. Qed.

(** ** Operations without an identifier *)

(** C6, on the code: an operation of a mixin whose identifier is empty is
    renamed as soon as an operation with an empty identifier was seen
    before it, in the primary or in the mixin itself. *)
Theorem Mixin_renames_empty_id :
  (∃ h' p' c,
     Mixin Sample.anonymous_ops Sample.scenario_primary [Sample.anonymous_mixin]
     = Ok (h', p', c)
     ∧ op_id Sample.anonymous_ops 2%positive = Some ""
     ∧ op_id h' 2%positive = Some "Mixin0"
     ∧ op_id h' 3%positive = Some "Mixin0")
  ∧ (∃ h' p' c,
       Mixin Sample.anonymous_ops (Sample.doc [] [] [] [])
             [Sample.anonymous_mixin]
       = Ok (h', p', c)
       ∧ op_id h' 2%positive = Some ""
       ∧ op_id h' 3%positive = Some "Mixin0").
Proof.
  split; eexists _, _, _; (split; [reflexivity|]); repeat split; reflexivity.
Qed.

(** ** What [Mixin] writes *)

(** C7, as the claim has it: the operations of the mixin are after the
    call what they were before.  Not so in the scenario above. *)
Lemma Mixin_writes_mixin_operation :
  ¬ ∀ h' p' c,
      Mixin Sample.scenario_ops Sample.scenario_primary [Sample.scenario_mixin]
      = Ok (h', p', c) →
      ∀ l, l ∈ scanned_ops Sample.scenario_mixin →
           h_operation h' !! l = h_operation Sample.scenario_ops !! l.
Proof.
  intros Hframe.
  specialize (Hframe _ _ _ eq_refl 3%positive).
  vm_compute in Hframe.
  assert (Some (Sample.op "getAMixin0") = Some (Sample.op "getA")) as Heq.
  { apply Hframe. right. left. }
  discriminate Heq.
Qed.

(** C7, amended.  [Mixin] leaves every [Responses] and [Response] object
    as it is and changes operations in their identifier only; the
    operations it changes are under Get, Put, Post, Delete, Head or Patch
    of a path item of a mixin that it adds to the primary. *)
Theorem Mixin_frame h p ms :
  mixin_ready h p ms →
  ∃ h' p' c,
    Mixin h p ms = Ok (h', p', c)
    ∧ same_but_ids h h'
    ∧ ∀ l, h_operation h' !! l ≠ h_operation h !! l →
        ∃ j m k v, ms !! j = Some m ∧ (k, v) ∈ paths_of m
          ∧ (k ∉ path_keys (foldl merge_doc p (take j ms)))
          ∧ alist_get (paths_of p') k = Some v
          ∧ l ∈ pathItemOps v.
Proof.
  intros Hready.
  destruct (Mixin_total h p ms Hready) as (h' & Hrun & Hsame & Hframe).
  exists h', (foldl merge_doc p ms), (uint_of (clashes_docs p ms)).
  split; [done|]. split; [done|]. intros l Hne.
  destruct (decide (l ∈ (visits 0 p ms).*2)) as [Hin|Hout];
    [|by apply Hframe in Hout].
  apply list_elem_of_fmap in Hin as ([i l'] & -> & Hin).
  apply elem_of_visits in Hin as (j & m & k & v & _ & Hj & Hkv & Hk & Hl).
  exists j, m, k, v. repeat split; try done.
  rewrite paths_of_merged, alist_get_merge_all.
  assert (paths_of p :: (paths_of <$> ms)
          = (paths_of p :: (paths_of <$> take j ms))
            ++ paths_of m :: (paths_of <$> drop (S j) ms)) as ->.
  { rewrite <- (take_drop j ms) at 1.
    by rewrite fmap_app, (drop_S _ _ _ Hj), fmap_cons. }
  rewrite first_wins_app.
  rewrite <- alist_get_merge_all, <- paths_of_merged.
  apply alist_get_None in Hk. rewrite Hk. simpl.
  destruct Hready as (_ & _ & Hwf & _). apply Forall_cons in Hwf as [_ Hwf].
  rewrite Forall_forall in Hwf.
  erewrite alist_get_elem; [done| |done].
  apply (Hwf m). by apply list_elem_of_lookup_2 in Hj.
Qed.

Lemma Mixin_frame_witness :
  ∃ h' p' c,
    Mixin Sample.ops Sample.primary [Sample.mixin0; Sample.mixin1]
    = Ok (h', p', c)
    ∧ h_operation h' !! 2%positive = Some (Sample.op "getA")
    ∧ h_response h' = ∅.
Proof.
  destruct (Mixin_frame Sample.ops Sample.primary [Sample.mixin0; Sample.mixin1])
    as (h' & p' & c & Hrun & (_ & Hresp & _) & Hframe); [by_computation|].
  exists h', p', c. split; [exact Hrun|]. split; [|exact Hresp].
  vm_compute in Hrun. injection Hrun as <- _ _. reflexivity.
Defined.

(** ** MixinFiles *)

Section MixinFiles_facts.
Context {W : Type} `{!Writer W}.
Variable loads_Spec : string → heap → heap * Swagger.t + error.
Variable json_MarshalIndent : heap → Swagger.t → string + error.

(** The loop over the mixin files stops at the first file that does
    not load. *)
Lemma load_mixins_first_error good bad rest st st' err :
  load_mixins loads_Spec good st = inl st' →
  loads_Spec bad st'.1 = inr err →
  load_mixins loads_Spec (good ++ bad :: rest) st = inr err.
Proof.
  revert st. induction good as [|f good IH]; intros st Hgood Hbad; simpl in *.
  - injection Hgood as ->. by rewrite Hbad.
  - destruct (loads_Spec f st.1) as [[h m]|e]; [|done]. by apply IH.
Qed.

(** A primary that does not load: the error, the count 0, nothing
    merged and nothing written. *)
Lemma MixinFiles_primary_error primaryFile mixinFiles (w : W) h err :
  loads_Spec primaryFile h = inr err →
  MixinFiles loads_Spec json_MarshalIndent primaryFile mixinFiles w h
  = Ok (w, (0%N, Some err)).
Proof. intros Hload. unfold MixinFiles. by rewrite Hload. Qed.

(** A mixin that does not load: the same, for the first such mixin. *)
Lemma MixinFiles_mixin_error primaryFile good bad rest (w : W) h h1 p st' err :
  loads_Spec primaryFile h = inl (h1, p) →
  load_mixins loads_Spec good (h1, []) = inl st' →
  loads_Spec bad st'.1 = inr err →
  MixinFiles loads_Spec json_MarshalIndent primaryFile (good ++ bad :: rest) w h
  = Ok (w, (0%N, Some err)).
Proof.
  intros Hp Hgood Hbad. unfold MixinFiles. rewrite Hp.
  by rewrite (load_mixins_first_error good bad rest _ st' err).
Qed.

(** The result after the loads: a serialization error is returned with
    the count 0 and the writer as it was; otherwise the bytes are
    written and the count is returned without an error, whatever [Write]
    returns. *)
Lemma MixinFiles_loaded primaryFile mixinFiles (w : W) h h1 p h2 ms h3 p3 c h4 p4 :
  loads_Spec primaryFile h = inl (h1, p) →
  load_mixins loads_Spec mixinFiles (h1, []) = inl (h2, ms) →
  Mixin h2 p ms = Ok (h3, p3, c) →
  FixEmptyResponseDescriptions h3 p3 = Ok (h4, p4) →
  MixinFiles loads_Spec json_MarshalIndent primaryFile mixinFiles w h =
  match json_MarshalIndent h4 p4 with
  | inr err => Ok (w, (0%N, Some err))
  | inl bs => Ok ((Write w bs).1, (c, None))
  end.
Proof.
  intros Hp Hms Hmix Hfix. unfold MixinFiles.
  rewrite Hp, Hms, Hmix. simpl. rewrite Hfix. simpl.
  destruct (json_MarshalIndent h4 p4) as [bs|e]; [|done].
  by destruct (Write w bs).
Qed.

End MixinFiles_facts.

(** C9, on the code: with a writer whose [Write] fails, [MixinFiles]
    returns the count and no error.  (With a writer that works the same
    call returns the same two values.) *)
Theorem MixinFiles_drops_write_error :
  Write ClosedFile "{}" = (ClosedFile, (0, Some "write: file already closed"))
  ∧ MixinFiles Sample.files Sample.marshal "primary.yml" ["mixin0.yml"]
      ClosedFile (Heap ∅ ∅ ∅)
    = Ok (ClosedFile, (3%N, None))
  ∧ MixinFiles Sample.files Sample.marshal "primary.yml" ["mixin0.yml"]
      (Buffer "") (Heap ∅ ∅ ∅)
    = Ok (Buffer "{}", (3%N, None)).
Proof. repeat split; reflexivity. Qed.

(** ** The renamed identifiers *)

Lemma ascii_list_app s1 s2 :
  String.list_ascii_of_string (s1 +:+ s2)
  = String.list_ascii_of_string s1 ++ String.list_ascii_of_string s2.
Proof. induction s1 as [|c s1 IH]; simpl; [done|]. by rewrite IH. Qed.

Lemma ascii_list_inj s1 s2 :
  String.list_ascii_of_string s1 = String.list_ascii_of_string s2 → s1 = s2.
Proof.
  intros Heq. rewrite <- (String.string_of_list_ascii_of_string s1),
    <- (String.string_of_list_ascii_of_string s2). by rewrite Heq.
Qed.

Lemma decimal_no_n d :
  Forall (λ c, c ≠ "n"%char) (String.list_ascii_of_string (NilEmpty.string_of_uint d)).
Proof. induction d; simpl; constructor; done. Qed.

Lemma decimal_of_nat_no_n i :
  Forall (λ c, c ≠ "n"%char)
         (String.list_ascii_of_string (NilZero.string_of_uint (Nat.to_uint i))).
Proof.
  unfold NilZero.string_of_uint.
  destruct (Nat.to_uint i); try apply decimal_no_n.
  simpl. constructor; done.
Qed.

Lemma decimal_of_nat_inj i j :
  NilZero.string_of_uint (Nat.to_uint i) = NilZero.string_of_uint (Nat.to_uint j)
  → i = j.
Proof.
  intros Heq. apply DecimalNat.Unsigned.to_uint_inj.
  assert (∀ n, NilZero.uint_of_string (NilZero.string_of_uint (Nat.to_uint n))
               = Some (Nat.to_uint n)) as Husu.
  { intros n. apply NilZero.usu. intros Hnil.
    pose proof (DecimalNat.Unsigned.of_to n) as Hof. rewrite Hnil in Hof.
    pose proof (DecimalNat.Unsigned.to_of Decimal.Nil) as Hto.
    simpl in Hof. subst n. simpl in Hnil. discriminate Hnil. }
  pose proof (Husu i) as Hi. rewrite Heq, Husu in Hi. by injection Hi.
Qed.

(** Two lists that end in the same way after their last 'n'. *)
Lemma split_at_last_n (a b r1 r2 : list ascii) :
  Forall (λ c, c ≠ "n"%char) a → Forall (λ c, c ≠ "n"%char) b →
  a ++ "n"%char :: r1 = b ++ "n"%char :: r2 → a = b ∧ r1 = r2.
Proof.
  intros Ha. revert b. induction Ha as [|c a Hc Ha IH]; intros b Hb Heq.
  - destruct Hb as [|c' b Hc' Hb]; simpl in *.
    + by injection Heq.
    + injection Heq as <- _. done.
  - destruct Hb as [|c' b Hc' Hb]; simpl in *.
    + injection Heq as -> _. done.
    + injection Heq as -> Heq. destruct (IH b Hb Heq) as [-> ->]. done.
Qed.

Lemma mixin_id_inj x i y j : mixin_id x i = mixin_id y j → x = y ∧ i = j.
Proof.
  unfold mixin_id. intros Heq.
  apply (f_equal String.list_ascii_of_string) in Heq.
  rewrite !ascii_list_app in Heq.
  apply (f_equal reverse) in Heq. rewrite !reverse_app in Heq.
  simpl in Heq.
  change (reverse (String.list_ascii_of_string "Mixin"))
    with ("n"%char :: reverse (String.list_ascii_of_string "Mixi")) in Heq.
  rewrite <- !app_assoc in Heq. simpl in Heq.
  apply split_at_last_n in Heq as [Hd Hx];
    [| apply Forall_reverse, decimal_of_nat_no_n..].
  apply (inj reverse) in Hd. apply ascii_list_inj in Hd.
  apply decimal_of_nat_inj in Hd as ->. split; [|done].
  injection Hx as Hx. apply (inj reverse) in Hx.
  by apply ascii_list_inj.
Qed.

(** ** Uniqueness of the identifiers *)

Lemma op_id_store hc l o l0 :
  op_id (store_operation hc l o) l0 =
  if decide (l = l0) then Some (Operation.ID o) else op_id hc l0.
Proof.
  unfold op_id. simpl. rewrite lookup_insert.
  by destruct (decide (l = l0)).
Qed.

Section rename_unique.
Variables (h : heap) (Pl : list loc) (vs : list (nat * loc)).
Hypothesis Hlocs : NoDup (Pl ++ vs.*2).
Hypothesis Halloc : ops_allocated h (Pl ++ vs.*2).
Hypothesis Hdoc : ∀ j l1 l2 id,
  (j, l1) ∈ vs → (j, l2) ∈ vs →
  op_id h l1 = Some id → op_id h l2 = Some id → l1 = l2.
Hypothesis Hform : ∀ l id,
  l ∈ Pl ++ vs.*2 → op_id h l = Some id → ∀ x i, id ≠ mixin_id x i.

Lemma rename_step_inv done j l todo hc ic :
  vs = done ++ (j, l) :: todo →
  rename_inv h Pl vs done hc ic →
  ∃ hc' ic',
    rename_visit (j, l) (hc, ic) = Ok (hc', ic')
    ∧ rename_inv h Pl vs (done ++ [(j, l)]) hc' ic'.
Proof.
  intros Hvs (Hreg & Hrest & Hinj & Hvis).
  assert ((j, l) ∈ vs) as Hjl.
  { rewrite Hvs, elem_of_app. right. by left. }
  assert (l ∈ Pl ++ vs.*2) as Hlvs.
  { apply elem_of_app. right. by apply (list_elem_of_fmap_2 snd) in Hjl. }
  assert (done.*2 ⊆ vs.*2) as Hsub.
  { intros l0 Hl0. rewrite Hvs, fmap_app, elem_of_app. by left. }
  assert (l ∉ Pl ++ done.*2) as Hfresh.
  { rewrite Hvs, fmap_app, fmap_cons in Hlocs. simpl in Hlocs.
    rewrite app_assoc in Hlocs. apply NoDup_app in Hlocs as (_ & Hdis & _).
    intros Hl. apply (Hdis _ Hl). by left. }
  assert (∀ l0, l0 ∈ Pl → op_id hc l0 = op_id h l0) as Hprim_id.
  { intros l0 Hl0. unfold op_id. rewrite Hrest; [done|].
    intros Hd. apply Hsub in Hd.
    apply NoDup_app in Hlocs as (_ & Hdis & _). by apply (Hdis l0). }
  destruct (Halloc l Hlvs) as [o Ho].
  assert (h_operation hc !! l = Some o) as Hoc.
  { rewrite Hrest; [done|]. intros Hd. apply Hfresh, elem_of_app. by right. }
  assert (op_id h l = Some (Operation.ID o)) as Hid by (unfold op_id; by rewrite Ho).
  assert (op_id hc l = Some (Operation.ID o)) as Hidc by (unfold op_id; by rewrite Hoc).
  assert (∀ l0, l0 ∈ Pl ++ (done ++ [(j, l)]).*2 ↔ l0 ∈ Pl ++ done.*2 ∨ l0 = l)
    as Hknown.
  { intros l0. rewrite fmap_app, !elem_of_app. simpl.
    rewrite list_elem_of_singleton. tauto. }
  assert (∀ s, seen ic s = true →
            (∃ l0, l0 ∈ Pl ∧ op_id h l0 = Some s)
            ∨ (∃ j0 l0 id0, (j0, l0) ∈ done ∧ op_id h l0 = Some id0
                 ∧ (s = id0 ∨ s = mixin_id id0 j0))) as Hwhy.
  { intros s Hs. apply Hreg in Hs as (l0 & Hl0 & Hs0).
    apply elem_of_app in Hl0 as [Hl0|Hl0].
    - left. exists l0. by rewrite <- Hprim_id.
    - right. apply list_elem_of_fmap in Hl0 as ([j0 l0'] & -> & Hin). simpl in *.
      destruct (Halloc l0') as [o0 Ho0].
      { apply elem_of_app. right. apply Hsub.
        by apply (list_elem_of_fmap_2 snd) in Hin. }
      assert (op_id h l0' = Some (Operation.ID o0)) as Hid0
        by (unfold op_id; by rewrite Ho0).
      destruct (Hvis j0 l0' _ Hin Hid0) as ([Hk|Hr] & _).
      + exists j0, l0', (Operation.ID o0). split; [done|]. split; [done|].
        left. congruence.
      + exists j0, l0', (Operation.ID o0). split; [done|]. split; [done|].
        right. congruence. }
  change (rename_visit (j, l) (hc, ic)) with (rename_op j l (hc, ic)).
  rewrite (rename_op_Ok _ _ _ _ _ Hoc).
  destruct (seen ic (Operation.ID o)) eqn:Hseen.
  - (* the identifier is in the registry: renamed *)
    eexists _, _. split; [done|].
    set (id' := mixin_id (Operation.ID o) j).
    assert (∀ l0, l0 ∈ Pl ++ done.*2 → op_id hc l0 ≠ Some id') as Hnew.
    { intros l0 Hl0 Hl0id.
      assert (seen ic id' = true) as Hs by (apply Hreg; eauto).
      apply Hwhy in Hs as [(l1 & Hl1 & Hs)|(j0 & l1 & id0 & Hin & Hid0 & Hs)].
      - assert (l1 ∈ Pl ++ vs.*2) as Hl1vs by (apply elem_of_app; by left).
        by apply (Hform l1 id' Hl1vs Hs (Operation.ID o) j).
      - assert (l1 ∈ Pl ++ vs.*2) as Hl1vs.
        { apply elem_of_app. right. apply Hsub.
          by apply (list_elem_of_fmap_2 snd) in Hin. }
        destruct Hs as [Hs|Hs].
        + apply (Hform l1 id0 Hl1vs Hid0 (Operation.ID o) j). by rewrite <- Hs.
        + apply mixin_id_inj in Hs as [Hs ->].
          assert (l = l1) as <-.
          { apply (Hdoc j0 l l1 (Operation.ID o)); try done.
            - rewrite Hvs, elem_of_app. by left.
            - by rewrite Hs. }
          apply Hfresh, elem_of_app. right.
          by apply (list_elem_of_fmap_2 snd) in Hin. }
    split; [|split; [|split]].
    + intros s. rewrite seen_insert. simpl. split.
      * destruct (decide (id' = s)) as [<-|Hne].
        -- intros _. exists l. split; [apply Hknown; by right|].
           rewrite op_id_store. by rewrite decide_True.
        -- intros (l0 & Hl0 & Hs0)%Hreg. exists l0.
           split; [apply Hknown; by left|].
           rewrite op_id_store, decide_False; [done|]. by intros <-.
      * intros (l0 & Hl0 & Hs0). rewrite op_id_store in Hs0.
        destruct (decide (l = l0)) as [<-|Hne0].
        -- injection Hs0 as <-. by rewrite decide_True.
        -- destruct (decide (id' = s)); [done|]. apply Hreg.
           exists l0. split; [|done]. apply Hknown in Hl0 as [?|?]; [done|].
           by subst.
    + intros l0 Hl0. simpl. rewrite fmap_app, not_elem_of_app in Hl0.
      destruct Hl0 as [Hl0 Hne]. simpl in Hne.
      rewrite list_elem_of_singleton in Hne.
      rewrite lookup_insert_ne by done. by apply Hrest.
    + intros l1 l2 id Hl1 Hl2. rewrite !op_id_store.
      apply Hknown in Hl1. apply Hknown in Hl2.
      destruct (decide (l = l1)) as [<-|Hne1], (decide (l = l2)) as [<-|Hne2];
        try done; simpl.
      * intros [= <-] Hid2. exfalso. destruct Hl2 as [Hl2|?]; [|done].
        by apply (Hnew l2).
      * intros Hid1 [= <-]. exfalso. destruct Hl1 as [Hl1|?]; [|done].
        by apply (Hnew l1).
      * intros Hid1 Hid2. destruct Hl1 as [Hl1|?]; [|done].
        destruct Hl2 as [Hl2|?]; [|done]. by apply (Hinj l1 l2 id).
    + intros j0 l0 id Hin Hid0. rewrite op_id_store.
      apply elem_of_app in Hin as [Hin|Hin].
      * rewrite decide_False; [by apply Hvis|].
        intros <-. apply Hfresh, elem_of_app. right.
        by apply (list_elem_of_fmap_2 snd) in Hin.
      * apply list_elem_of_singleton in Hin. injection Hin as -> ->.
        rewrite decide_True by done. simpl.
        rewrite Hid in Hid0. injection Hid0 as <-.
        split; [by right|]. split; [done|].
        intros Hnone. exfalso.
        apply Hwhy in Hseen
          as [(l1 & Hl1 & Hs)|(j1 & l1 & id1 & Hin1 & Hid1 & Hs)].
        -- apply (Hnone l1); [apply elem_of_app; by left| |done].
           intros ->. apply Hfresh, elem_of_app. by left.
        -- assert (l1 ∈ vs.*2) as Hl1vs.
           { apply Hsub. by apply (list_elem_of_fmap_2 snd) in Hin1. }
           destruct Hs as [Hs|Hs].
           ++ apply (Hnone l1); [apply elem_of_app; by right| |by rewrite Hs].
              intros ->. apply Hfresh, elem_of_app. right.
              by apply (list_elem_of_fmap_2 snd) in Hin1.
           ++ by apply (Hform l _ Hlvs Hid id1 j1).
  - (* the identifier is new: kept *)
    eexists _, _. split; [done|].
    assert (∀ l0, l0 ∈ Pl ++ done.*2 → op_id hc l0 ≠ Some (Operation.ID o))
      as Hnew.
    { intros l0 Hl0 Hl0id.
      assert (seen ic (Operation.ID o) = true) as Hs by (apply Hreg; eauto).
      congruence. }
    split; [|split; [|split]].
    + intros s. rewrite seen_insert. split.
      * destruct (decide (Operation.ID o = s)) as [<-|Hne].
        -- intros _. exists l. split; [apply Hknown; by right|done].
        -- intros (l0 & Hl0 & Hs0)%Hreg. exists l0.
           split; [apply Hknown; by left|done].
      * intros (l0 & Hl0 & Hs0).
        destruct (decide (Operation.ID o = s)) as [|Hne]; [done|].
        apply Hreg. exists l0. split; [|done].
        apply Hknown in Hl0 as [?| ->]; [done|]. congruence.
    + intros l0 Hl0. rewrite fmap_app, not_elem_of_app in Hl0.
      destruct Hl0 as [Hl0 _]. by apply Hrest.
    + intros l1 l2 id Hl1 Hl2 Hid1 Hid2.
      apply Hknown in Hl1. apply Hknown in Hl2.
      destruct Hl1 as [Hl1|Heq1]; destruct Hl2 as [Hl2|Heq2]; subst.
      * by apply (Hinj l1 l2 id).
      * exfalso. apply (Hnew l1 Hl1). congruence.
      * exfalso. apply (Hnew l2 Hl2). congruence.
      * done.
    + intros j0 l0 id Hin Hid0.
      apply elem_of_app in Hin as [Hin|Hin]; [by apply Hvis|].
      apply list_elem_of_singleton in Hin. injection Hin as -> ->.
      rewrite Hid in Hid0. injection Hid0 as <-.
      split; [by left|]. split; [|done].
      intros (l1 & Hl1 & Hid1). exfalso.
      apply (Hnew l1); [apply elem_of_app; by left|].
      by rewrite Hprim_id.
Qed.

Lemma rename_loop_inv todo done hc ic :
  vs = done ++ todo →
  rename_inv h Pl vs done hc ic →
  ∃ h' ids',
    for_each rename_visit todo (hc, ic) = Ok (h', ids')
    ∧ rename_inv h Pl vs vs h' ids'.
Proof.
  revert done hc ic. induction todo as [|[j l] todo IH]; intros done hc ic Hvs Hinv.
  - rewrite app_nil_r in Hvs. subst done. by exists hc, ic.
  - destruct (rename_step_inv done j l todo hc ic Hvs Hinv)
      as (hc' & ic' & Hstep & Hinv').
    destruct (IH (done ++ [(j, l)]) hc' ic') as (h' & ids' & Hrun & Hfin);
      [by rewrite <- app_assoc|done|].
    exists h', ids'. cbn [for_each]. rewrite Hstep. by simpl.
Qed.

End rename_unique.

Lemma NoDup_omap_inj {A B} (f : A → option B) (ls : list A) x y b :
  NoDup (omap f ls) → x ∈ ls → y ∈ ls → f x = Some b → f y = Some b → x = y.
Proof.
  induction ls as [|a ls IH]; intros Hnd Hx Hy Hfx Hfy.
  - by apply elem_of_nil in Hx.
  - simpl in Hnd. destruct (f a) as [b'|] eqn:Hfa.
    + apply NoDup_cons in Hnd as [Hb' Hnd].
      assert (∀ z, z ∈ ls → f z = Some b' → False) as Hno.
      { intros z Hz Hfz. apply Hb', list_elem_of_omap. eauto. }
      apply elem_of_cons in Hx as [->|Hx], Hy as [->|Hy]; try done.
      * exfalso. apply (Hno y Hy). congruence.
      * exfalso. apply (Hno x Hx). congruence.
      * by apply IH.
    + apply elem_of_cons in Hx as [->|Hx]; [congruence|].
      apply elem_of_cons in Hy as [->|Hy]; [congruence|].
      by apply IH.
Qed.

Lemma NoDup_omap_intro {A B} (f : A → option B) (ls : list A) :
  NoDup ls →
  (∀ x y b, x ∈ ls → y ∈ ls → f x = Some b → f y = Some b → x = y) →
  NoDup (omap f ls).
Proof.
  induction 1 as [|a ls Ha Hnd IH]; intros Hinj; [constructor|].
  simpl. destruct (f a) as [b|] eqn:Hfa.
  - apply NoDup_cons. split.
    + intros (z & Hz & Hfz)%list_elem_of_omap.
      assert (a = z) as -> by (apply (Hinj a z b); by (left || right || idtac)).
      done.
    + apply IH. intros x y b' Hx Hy. apply Hinj; by right.
  - apply IH. intros x y b' Hx Hy. apply Hinj; by right.
Qed.

Lemma item_ops_sublist l1 l2 :
  l1 `sublist_of` l2 → item_ops l1 `sublist_of` item_ops l2.
Proof.
  induction 1 as [|[k v] l1 l2 _ IH|[k v] l1 l2 _ IH]; [done|..];
    rewrite ?item_ops_cons.
  - by apply sublist_app.
  - by apply sublist_inserts_l.
Qed.

Lemma visits_sublist i p ms :
  (visits i p ms).*2 `sublist_of` concat (scanned_ops <$> ms).
Proof.
  revert i p. induction ms as [|m ms IH]; intros i p; [done|].
  cbn [visits]. rewrite fmap_app, fmap_cons, concat_cons.
  apply sublist_app; [|apply IH].
  rewrite <- list_fmap_compose.
  replace (snd ∘ (λ l, (i, l))) with (@id loc) by done.
  rewrite list_fmap_id. apply item_ops_sublist, sublist_filter.
Qed.

Lemma scanned_ops_merged i p ms :
  scanned_ops (foldl merge_doc p ms) = scanned_ops p ++ (visits i p ms).*2.
Proof.
  revert i p. induction ms as [|m ms IH]; intros i p.
  - simpl. by rewrite app_nil_r.
  - cbn [foldl visits]. rewrite (IH (S i)), fmap_app, app_assoc. f_equal.
    unfold scanned_ops at 1.
    change (paths_of (merge_doc p m)) with (merge (paths_of p) (paths_of m)).
    unfold merge. rewrite item_ops_app. f_equal.
    rewrite <- list_fmap_compose.
    replace (snd ∘ (λ l, (i, l))) with (@id loc) by done.
    by rewrite list_fmap_id.
Qed.

Lemma Mixin_unique_run h p ms :
  mixin_ready h p ms →
  NoDup (scanned_ops p ++ concat (scanned_ops <$> ms)) →
  Forall (λ d, NoDup (ids_at h (scanned_ops d))) (p :: ms) →
  (∀ l id, l ∈ scanned_ops p ++ concat (scanned_ops <$> ms) →
     op_id h l = Some id → ∀ x i, id ≠ mixin_id x i) →
  ∃ h' ids',
    Mixin h p ms = Ok (h', foldl merge_doc p ms, uint_of (clashes_docs p ms))
    ∧ rename_inv h (scanned_ops p) (visits 0 p ms) (visits 0 p ms) h' ids'.
Proof.
  intros Hready Hlocs Hdocs Hform.
  pose proof Hready as (Hp & Hps & Hwf & Ha).
  apply Forall_cons in Hwf as [_ Hwf].
  apply Forall_cons in Hdocs as [Hprim Hdocs].
  rewrite Mixin_eq by done.
  destruct (getOpIds_spec h p) as (ids & -> & Hids).
  { apply allocated_inv in Hp as (lp & ? & ? & ? & ->). simpl. eauto. }
  { intros l Hl. apply Ha, elem_of_app. by left. }
  simpl.
  assert (scanned_ops p ++ (visits 0 p ms).*2
          `sublist_of` scanned_ops p ++ concat (scanned_ops <$> ms)) as Hsub.
  { apply sublist_app; [done|apply visits_sublist]. }
  destruct (rename_loop_inv h (scanned_ops p) (visits 0 p ms))
    with (todo := visits 0 p ms) (done := @nil (nat * loc)) (hc := h) (ic := ids)
    as (h' & ids' & Hrun & Hinv).
  - by eapply sublist_NoDup.
  - intros l Hl. apply Ha. by eapply elem_of_sublist.
  - intros j l1 l2 id Hv1 Hv2 Hid1 Hid2.
    apply elem_of_visits in Hv1 as (j1 & m1 & k1 & v1 & -> & Hj1 & Hkv1 & _ & Hl1).
    apply elem_of_visits in Hv2 as (j2 & m2 & k2 & v2 & Hj & Hj2 & Hkv2 & _ & Hl2).
    simpl in Hj. subst j2. rewrite Hj1 in Hj2. injection Hj2 as <-.
    rewrite Forall_forall in Hdocs.
    apply (NoDup_omap_inj (op_id h) (scanned_ops m1) l1 l2 id); try done.
    + apply Hdocs. by apply list_elem_of_lookup_2 in Hj1.
    + apply elem_of_item_ops. by exists k1, v1.
    + apply elem_of_item_ops. by exists k2, v2.
  - intros l id Hl. apply Hform. by eapply elem_of_sublist.
  - done.
  - split; [|split; [|split]].
    + intros s. rewrite Hids. simpl. by rewrite app_nil_r.
    + done.
    + intros l1 l2 id. simpl. rewrite app_nil_r. intros Hl1 Hl2.
      by apply (NoDup_omap_inj (op_id h) (scanned_ops p)).
    + intros j l id Hin. by apply elem_of_nil in Hin.
  - exists h', ids'. rewrite Hrun. by simpl.
Qed.

Lemma decimal_digits d :
  Forall (λ c, is_digit c = true)
         (String.list_ascii_of_string (NilEmpty.string_of_uint d)).
Proof. induction d; simpl; constructor; done. Qed.

Lemma mixin_id_ends_in_digit x i : ends_in_digit (mixin_id x i) = true.
Proof.
  unfold ends_in_digit, mixin_id. rewrite !ascii_list_app, !reverse_app.
  assert (∃ c cs, String.list_ascii_of_string
                    (NilZero.string_of_uint (Nat.to_uint i)) = c :: cs
                  ∧ Forall (λ c, is_digit c = true) (c :: cs))
    as (c & cs & Heq & Hdig).
  { destruct (Nat.to_uint i); simpl; eexists _, _;
      (split; [reflexivity|]); constructor; try done; apply decimal_digits. }
  rewrite Heq. apply Forall_reverse in Hdig.
  destruct (reverse (c :: cs)) as [|c' cs'] eqn:Hrev.
  - apply (f_equal length) in Hrev. rewrite length_reverse in Hrev. done.
  - simpl. by apply Forall_cons in Hdig as [? _].
Qed.

(** ** The identifiers after the merge *)




(** ** The kind of a panic *)

(** A loop whose rounds keep an invariant, or panic in some way [C],
    ends with the invariant or panics in that way. *)
Lemma for_each_clean {A S} (I : S → Prop) (C : panic → Prop)
    (body : A → S → res S) l s :
  (∀ a t, a ∈ l → I t →
     match body a t with Ok t' => I t' | Panic e => C e end) →
  I s →
  match for_each body l s with Ok s' => I s' | Panic e => C e end.
Proof.
  revert s. induction l as [|a l IH]; intros s Hbody Hs; [done|].
  cbn [for_each]. pose proof (Hbody a s (list_elem_of_here _ _) Hs) as Ha.
  destruct (body a s) as [t|e]; simpl; [|done].
  apply IH; [|done]. intros b t' Hb. apply Hbody. by right.
Qed.

Lemma mix_entries_clean {V} (src : list (string * V)) st :
  match for_each mix_entry src st with
  | Ok _ => True
  | Panic e => e ≠ Dangling
  end.
Proof.
  apply (for_each_clean (λ _, True)); [|done].
  intros [k v] [dst c] _ _. simpl.
  destruct (map_get dst k); [done|]. by destruct dst.
Qed.

Lemma mix_paths_clean i src h0 h ids pp c :
  ops_allocated h0 (item_ops src) → same_but_ids h0 h →
  match for_each (mix_path i) src (h, ids, pp, c) with
  | Ok st' => same_but_ids h0 st'.1.1.1
  | Panic e => e ≠ Dangling
  end.
Proof.
  intros Ha Hs.
  apply (for_each_clean (λ st : paths_state, same_but_ids h0 st.1.1.1));
    [|done].
  intros [k v] [[[h1 ids1] pp1] c1] Hkv Hs1. simpl in Hs1. simpl.
  destruct pp1 as [pp1|]; simpl; [|done].
  destruct (map_get (Paths.Paths pp1) k); [done|].
  rewrite for_each_rename_visit.
  destruct (rename_visits_total ((λ l, (i, l)) <$> pathItemOps v) h1 ids1)
    as (h2 & ids2 & -> & Hs2 & _).
  { eapply same_but_ids_allocated; [done|]. intros l Hl. apply Ha.
    apply elem_of_item_ops. exists k, v. split; [done|].
    apply list_elem_of_fmap in Hl as ([i' l'] & -> & Hl).
    apply list_elem_of_fmap in Hl as (l0 & [= -> ->] & Hl). done. }
  simpl. destruct (Paths.Paths pp1); simpl; [|done].
  by eapply same_but_ids_trans.
Qed.

Lemma mix_one_clean i m h0 h ids p c :
  ops_allocated h0 (scanned_ops m) → same_but_ids h0 h →
  match mix_one i m (h, ids, p, c) with
  | Ok st' => same_but_ids h0 st'.1.1.1
  | Panic e => e ≠ Dangling
  end.
Proof.
  intros Ha Hs. unfold mix_one.
  pose proof (mix_entries_clean (range (Swagger.Definitions m))
                (Swagger.Definitions p, c)) as Hd.
  destruct (for_each mix_entry (range (Swagger.Definitions m)) _)
    as [[defs c1]|e]; simpl; [clear Hd|done].
  unfold scanned_ops, paths_of in Ha.
  destruct (Swagger.Paths m) as [mp|]; simpl; [|done].
  pose proof (mix_paths_clean i (range (Paths.Paths mp)) h0 h ids
                (Swagger.Paths p) c1 Ha Hs) as Hp.
  destruct (for_each (mix_path i) _ _) as [[[[h1 ids1] pp1] c2]|e];
    simpl in *; [|done].
  pose proof (mix_entries_clean (range (Swagger.Parameters m))
                (Swagger.Parameters p, c2)) as Hpa.
  destruct (for_each mix_entry (range (Swagger.Parameters m)) _)
    as [[params c3]|e]; simpl; [clear Hpa|done].
  pose proof (mix_entries_clean (range (Swagger.Responses m))
                (Swagger.Responses p, c3)) as Hr.
  by destruct (for_each mix_entry (range (Swagger.Responses m)) _)
    as [[resps c4]|e].
Qed.

Lemma mix_from_clean i ms h0 h ids p c :
  ops_allocated h0 (concat (scanned_ops <$> ms)) → same_but_ids h0 h →
  match mix_from i ms (h, ids, p, c) with
  | Ok _ => True
  | Panic e => e ≠ Dangling
  end.
Proof.
  revert i h ids p c. induction ms as [|m ms IH]; intros i h ids p c Ha Hs;
    [done|].
  cbn [mix_from].
  pose proof (mix_one_clean i m h0 h ids p c) as Hone.
  destruct (mix_one i m (h, ids, p, c)) as [[[[h1 ids1] p1] c1]|e]; simpl.
  - apply IH.
    + intros l Hl. apply Ha. rewrite fmap_cons, concat_cons, elem_of_app.
      by right.
    + apply Hone; [|done]. intros l Hl. apply Ha.
      rewrite fmap_cons, concat_cons, elem_of_app. by left.
  - apply Hone; [|done]. intros l Hl. apply Ha.
    rewrite fmap_cons, concat_cons, elem_of_app. by left.
Qed.

(** With the operation pointers in order, a panic of [Mixin] is a nil
    dereference or a write to a nil map. *)
Lemma Mixin_panic_kind h p ms e :
  ops_allocated h (scanned_ops p ++ concat (scanned_ops <$> ms)) →
  Mixin h p ms = Panic e → e = NilDeref ∨ e = NilMapWrite.
Proof.
  intros Ha Hrun.
  enough (e ≠ Dangling) by (destruct e; auto; done).
  unfold Mixin in Hrun.
  destruct (Swagger.Paths p) as [ps|] eqn:Hps.
  - destruct (getOpIds_spec h p) as (ids & Hids & _).
    { by rewrite Hps. }
    { intros l Hl. apply Ha, elem_of_app. by left. }
    rewrite Hids in Hrun. simpl in Hrun.
    pose proof (mix_from_clean 0 ms h h ids p 0%N) as Hclean.
    destruct (mix_from 0 ms (h, ids, p, 0%N)) as [[[[h1 ids1] p1] c1]|e'];
      simpl in Hrun; [done|].
    injection Hrun as ->. apply Hclean; [|apply same_but_ids_refl].
    intros l Hl. apply Ha, elem_of_app. by right.
  - unfold getOpIds in Hrun. rewrite Hps in Hrun. simpl in Hrun.
    by injection Hrun as <-.
Qed.

(** ** Faults *)



(** * Further properties *)

(** ** No mixins *)

(** X1.  Without mixins [Mixin] returns 0 and leaves the primary and the
    heap as they are, yet it reads the paths of the primary first: it
    panics when [primary.Paths] is nil. *)
Theorem Mixin_no_mixins h p :
  (Swagger.Paths p = None → Mixin h p [] = Panic NilDeref)
  ∧ (is_Some (Swagger.Paths p) → ops_allocated h (scanned_ops p) →
       Mixin h p [] = Ok (h, p, 0%N))
  ∧ (∀ r, Mixin h p [] = Ok r → r = (h, p, 0%N)).
Proof.
  split; [|split].
  - intros Hnil. unfold Mixin, getOpIds. by rewrite Hnil.
  - intros Hps Ha. unfold Mixin.
    destruct (getOpIds_spec h p Hps Ha) as (ids & -> & _). done.
  - intros r Hrun. unfold Mixin in Hrun.
    apply bind_Ok in Hrun as (ids & _ & Hrun). simpl in Hrun.
    by injection Hrun as <-.
Qed.

(** A primary without mixins, and one whose [Paths] pointer is nil. *)
Lemma Mixin_no_mixins_witness :
  Mixin Sample.ops Sample.primary [] = Ok (Sample.ops, Sample.primary, 0%N)
  ∧ Mixin Sample.ops (Swagger.mk None (Some []) (Some []) (Some [])) []
    = Panic NilDeref.
Proof.
  split.
  - apply (Mixin_no_mixins Sample.ops Sample.primary); [by eexists|].
    by_computation.
  - by apply (Mixin_no_mixins Sample.ops).
Defined.

(** ** Entries are added or counted *)

Lemma length_merge {V} (l src : list (string * V)) :
  length (merge l src) + clashes l src = length l + length src.
Proof.
  unfold merge. rewrite length_app.
  enough (length (fresh_entries l src) + clashes l src = length src) by lia.
  induction src as [|[k v] src IH]; [done|].
  rewrite fresh_entries_cons, clashes_cons.
  destruct (decide (k ∈ l.*1)); simpl; lia.
Qed.

Lemma entries_merge_doc p m :
  entries (merge_doc p m) + clashes_doc p m = entries p + entries m.
Proof.
  unfold entries, clashes_doc.
  change (paths_of (merge_doc p m)) with (merge (paths_of p) (paths_of m)).
  change (definitions_of (merge_doc p m))
    with (merge (definitions_of p) (definitions_of m)).
  change (parameters_of (merge_doc p m))
    with (merge (parameters_of p) (parameters_of m)).
  change (responses_of (merge_doc p m))
    with (merge (responses_of p) (responses_of m)).
  pose proof (length_merge (paths_of p) (paths_of m)).
  pose proof (length_merge (definitions_of p) (definitions_of m)).
  pose proof (length_merge (parameters_of p) (parameters_of m)).
  pose proof (length_merge (responses_of p) (responses_of m)).
  lia.
Qed.

Lemma entries_merged p ms :
  entries (foldl merge_doc p ms) + clashes_docs p ms
  = entries p + sum_list_with entries ms.
Proof.
  revert p. induction ms as [|m ms IH]; intros p; simpl; [lia|].
  pose proof (IH (merge_doc p m)). pose proof (entries_merge_doc p m). lia.
Qed.

(** X2.  Every entry of every mixin is either added to the primary or
    counted as skipped: the number of entries of the merged primary and
    the number of skipped entries add up to the number of entries of the
    primary and of all mixins. *)
Theorem Mixin_adds_or_counts h p ms :
  mixin_ready h p ms →
  ∃ h' p' c,
    Mixin h p ms = Ok (h', p', c)
    ∧ c = uint_of (skipped_total p ms)
    ∧ entries p' + skipped_total p ms = entries p + sum_list_with entries ms
    ∧ (skipped_total p ms ≤ sum_list_with entries ms)%nat
    ∧ (entries p ≤ entries p')%nat.
Proof.
  intros Hready. destruct (Mixin_total h p ms Hready) as (h' & Hrun & _).
  exists h', (foldl merge_doc p ms), (uint_of (skipped_total p ms)).
  rewrite <- clashes_docs_skipped. split; [done|]. split; [done|].
  pose proof (entries_merged p ms) as Hsum.
  assert (entries p ≤ entries (foldl merge_doc p ms))%nat as Hle.
  { clear. revert p. induction ms as [|m ms IH]; intros p; simpl; [lia|].
    etrans; [|apply IH]. unfold entries.
    change (paths_of (merge_doc p m)) with (merge (paths_of p) (paths_of m)).
    change (definitions_of (merge_doc p m))
      with (merge (definitions_of p) (definitions_of m)).
    change (parameters_of (merge_doc p m))
      with (merge (parameters_of p) (parameters_of m)).
    change (responses_of (merge_doc p m))
      with (merge (responses_of p) (responses_of m)).
    unfold merge. rewrite !length_app. lia. }
  split; [done|]. split; [lia|done].
Qed.

(** The sample: 4 entries in the primary, 10 in the mixins, 6 skipped
    and 8 in the merged primary. *)
Lemma Mixin_adds_or_counts_witness :
  ∃ h' p' c,
    Mixin Sample.ops Sample.primary [Sample.mixin0; Sample.mixin1]
    = Ok (h', p', c)
    ∧ entries p' + 6 = 4 + 10.
Proof.
  destruct (Mixin_adds_or_counts Sample.ops Sample.primary
              [Sample.mixin0; Sample.mixin1])
    as (h' & p' & c & Hrun & _ & Hsum & _); [by_computation|].
  exists h', p', c. split; [exact Hrun|exact Hsum].
Defined.

(** ** The merged primary as a primary *)

Lemma foldl_merge_doc_allocated p ms :
  allocated p → allocated (foldl merge_doc p ms).
Proof.
  destruct ms as [|m ms]; [done|]. intros _. simpl.
  generalize (merge_doc p m) (merge_doc_allocated p m). clear.
  induction ms as [|m ms IH]; intros q Hq; [done|].
  simpl. apply IH, merge_doc_allocated.
Qed.

Lemma elem_of_merge_all_keys {V} (l : list (string * V)) srcs k :
  k ∈ (merge_all l srcs).*1 ↔ k ∈ l.*1 ∨ ∃ src, src ∈ srcs ∧ k ∈ src.*1.
Proof.
  unfold merge_all. revert l. induction srcs as [|src srcs IH]; intros l.
  - simpl. split; [by left|]. intros [?|(src & Hsrc & _)]; [done|].
    by apply elem_of_nil in Hsrc.
  - cbn [foldl]. rewrite IH, elem_of_merge_keys. split.
    + intros [[?|?]|(src' & Hin & Hk)]; [by left|right|right].
      * exists src. split; [by left|done].
      * exists src'. split; [by right|done].
    + intros [?|(src' & Hin & Hk)]; [by left; left|].
      apply elem_of_cons in Hin as [->|Hin]; [by left; right|].
      right. by exists src'.
Qed.

Lemma merged_keys {V} (X : Swagger.t → list (string * V)) p ms k :
  k ∈ (merge_all (X p) (X <$> ms)).*1 ↔
  k ∈ (X p).*1 ∨ ∃ m, m ∈ ms ∧ k ∈ (X m).*1.
Proof.
  rewrite elem_of_merge_all_keys. split.
  - intros [?|(src & (m & -> & Hm)%list_elem_of_fmap & Hk)]; [by left|].
    right. by exists m.
  - intros [?|(m & Hm & Hk)]; [by left|]. right. exists (X m).
    split; [by apply list_elem_of_fmap_2|done].
Qed.

(** After the mixins [ms1] the primary is ready for the mixins [ms2]. *)
Lemma Mixin_result_ready h p ms1 ms2 h1 :
  mixin_ready h p (ms1 ++ ms2) → same_but_ids h h1 →
  mixin_ready h p ms1 ∧ mixin_ready h1 (foldl merge_doc p ms1) ms2.
Proof.
  intros (Hp & Hps & Hwf & Ha) Hsame.
  apply Forall_app in Hps as [Hps1 Hps2].
  apply Forall_cons in Hwf as [Hwp Hwf].
  apply Forall_app in Hwf as [Hwf1 Hwf2].
  rewrite fmap_app, concat_app in Ha.
  split.
  - split; [done|]. split; [done|]. split; [by constructor|].
    intros l Hl. apply Ha. rewrite !elem_of_app in *. tauto.
  - split; [by apply foldl_merge_doc_allocated|]. split; [done|]. split.
    + constructor; [|done]. apply merge_docs_wf. by constructor.
    + eapply same_but_ids_allocated; [done|]. intros l Hl. apply Ha.
      rewrite (scanned_ops_merged 0) in Hl. rewrite !elem_of_app in *.
      destruct Hl as [[?|Hv]|?]; [by left| |by right; right].
      right. left. by eapply visits_scanned.
Qed.

(** The run of [Mixin], its merged primary and the keys of the latter. *)
Lemma merged_primary_ready h p ms :
  mixin_ready h p ms →
  ∃ h',
    Mixin h p ms = Ok (h', foldl merge_doc p ms, uint_of (clashes_docs p ms))
    ∧ mixin_ready h' (foldl merge_doc p ms) []
    ∧ (∀ k, k ∈ definition_keys (foldl merge_doc p ms) ↔
            k ∈ definition_keys p ∨ ∃ m, m ∈ ms ∧ k ∈ definition_keys m)
    ∧ (∀ k, k ∈ path_keys (foldl merge_doc p ms) ↔
            k ∈ path_keys p ∨ ∃ m, m ∈ ms ∧ k ∈ path_keys m)
    ∧ (∀ k, k ∈ parameter_keys (foldl merge_doc p ms) ↔
            k ∈ parameter_keys p ∨ ∃ m, m ∈ ms ∧ k ∈ parameter_keys m)
    ∧ (∀ k, k ∈ response_keys (foldl merge_doc p ms) ↔
            k ∈ response_keys p ∨ ∃ m, m ∈ ms ∧ k ∈ response_keys m).
Proof.
  intros Hready.
  destruct (Mixin_total h p ms Hready) as (h' & Hrun & Hsame & _).
  exists h'. split; [done|]. split.
  { apply (Mixin_result_ready h p ms [] h'); [|done]. by rewrite app_nil_r. }
  unfold definition_keys, path_keys, parameter_keys, response_keys.
  rewrite definitions_of_merged, paths_of_merged, parameters_of_merged,
    responses_of_merged.
  repeat split; apply merged_keys.
Qed.

(** X3.  The merged primary is a primary again: its containers are
    allocated, no key is twice in any of its maps, its operation pointers
    point to operations, and the keys of each collection are those of the
    primary and of the mixins. *)
Theorem Mixin_keeps_ready h p ms :
  mixin_ready h p ms →
  ∃ h' p' c,
    Mixin h p ms = Ok (h', p', c)
    ∧ mixin_ready h' p' []
    ∧ (∀ k, k ∈ definition_keys p' ↔
            k ∈ definition_keys p ∨ ∃ m, m ∈ ms ∧ k ∈ definition_keys m)
    ∧ (∀ k, k ∈ path_keys p' ↔
            k ∈ path_keys p ∨ ∃ m, m ∈ ms ∧ k ∈ path_keys m)
    ∧ (∀ k, k ∈ parameter_keys p' ↔
            k ∈ parameter_keys p ∨ ∃ m, m ∈ ms ∧ k ∈ parameter_keys m)
    ∧ (∀ k, k ∈ response_keys p' ↔
            k ∈ response_keys p ∨ ∃ m, m ∈ ms ∧ k ∈ response_keys m).
Proof.
  intros Hready.
  destruct (merged_primary_ready h p ms Hready) as (h' & Hrun & Hrest).
  by exists h', (foldl merge_doc p ms), (uint_of (clashes_docs p ms)).
Qed.

(** The merged sample has the three paths of its documents. *)
Lemma Mixin_keeps_ready_witness :
  ∃ h' p' c,
    Mixin Sample.ops Sample.primary [Sample.mixin0; Sample.mixin1]
    = Ok (h', p', c)
    ∧ mixin_ready h' p' [] ∧ "/c" ∈ path_keys p'.
Proof.
  destruct (Mixin_keeps_ready Sample.ops Sample.primary
              [Sample.mixin0; Sample.mixin1])
    as (h' & p' & c & Hrun & Hready & _ & Hkeys & _); [by_computation|].
  exists h', p', c. split; [exact Hrun|]. split; [exact Hready|].
  apply Hkeys. right. exists Sample.mixin1. split; [by right; left|].
  by_computation.
Defined.

(** ** Mixins in two calls *)

Lemma clashes_docs_app p ms1 ms2 :
  clashes_docs p (ms1 ++ ms2)
  = clashes_docs p ms1 + clashes_docs (foldl merge_doc p ms1) ms2.
Proof.
  revert p. induction ms1 as [|m ms1 IH]; intros p; simpl; [done|].
  rewrite IH. lia.
Qed.

Lemma uint_of_add a b :
  uint_of (a + b) = ((uint_of a + uint_of b) mod uint_modulus)%N.
Proof.
  unfold uint_of. rewrite Nat2N.inj_add. by rewrite <- N.Div0.add_mod.
Qed.

Lemma same_but_ids_sym h h' : same_but_ids h h' → same_but_ids h' h.
Proof.
  intros (Hrs & Hr & Hops). split; [done|]. split; [done|].
  intros l. specialize (Hops l).
  destruct (h_operation h !! l), (h_operation h' !! l); try done.
  by destruct Hops as [-> ->].
Qed.

Lemma visits_app i p ms1 ms2 :
  visits i p (ms1 ++ ms2)
  = visits i p ms1 ++ visits (i + length ms1) (foldl merge_doc p ms1) ms2.
Proof.
  revert i p. induction ms1 as [|m ms1 IH]; intros i p; simpl.
  - by rewrite Nat.add_0_r.
  - rewrite IH, <- app_assoc. do 3 f_equal. lia.
Qed.

Lemma visits_locs i j p ms : (visits i p ms).*2 = (visits j p ms).*2.
Proof.
  revert i j p. induction ms as [|m ms IH]; intros i j p; [done|].
  simpl. rewrite !fmap_app, <- !list_fmap_compose. f_equal. apply IH.
Qed.

(** The operations that [Mixin] can rename: those of the path items it
    adds. *)
Lemma elem_of_visits_locs p ms l :
  l ∈ (visits 0 p ms).*2 ↔
  ∃ j m k v, ms !! j = Some m ∧ (k, v) ∈ paths_of m
    ∧ (k ∉ path_keys (foldl merge_doc p (take j ms)))
    ∧ l ∈ pathItemOps v.
Proof.
  rewrite list_elem_of_fmap. split.
  - intros ([j l'] & -> & Hin). simpl.
    apply elem_of_visits in Hin as (j' & m & k & v & -> & ?).
    by exists j', m, k, v.
  - intros (j & m & k & v & ?). exists (j, l). split; [done|].
    apply elem_of_visits. by exists j, m, k, v.
Qed.

(** [Mixin] with [ms1 ++ ms2], with [ms1] and then with [ms2]. *)
Lemma Mixin_split h p ms1 ms2 :
  mixin_ready h p (ms1 ++ ms2) →
  ∃ h1 h2 h',
    Mixin h p ms1
    = Ok (h1, foldl merge_doc p ms1, uint_of (clashes_docs p ms1))
    ∧ Mixin h1 (foldl merge_doc p ms1) ms2
      = Ok (h2, foldl merge_doc p (ms1 ++ ms2),
            uint_of (clashes_docs (foldl merge_doc p ms1) ms2))
    ∧ Mixin h p (ms1 ++ ms2)
      = Ok (h', foldl merge_doc p (ms1 ++ ms2),
            uint_of (clashes_docs p (ms1 ++ ms2)))
    ∧ same_but_ids h2 h'
    ∧ ∀ l, l ∉ (visits 0 (foldl merge_doc p ms1) ms2).*2 →
           h_operation h' !! l = h_operation h2 !! l.
Proof.
  intros Hready.
  destruct (Mixin_result_ready h p ms1 ms2 h Hready (same_but_ids_refl h))
    as [Hready1 _].
  pose proof Hready as (Hp & Hps & Hwf & Ha).
  apply Forall_cons in Hwf as [_ Hwf].
  pose proof Hready1 as (_ & Hps1 & Hwf1 & Ha1).
  apply Forall_cons in Hwf1 as [_ Hwf1].
  destruct (getOpIds_spec h p) as (ids & Hget & _).
  { apply allocated_inv in Hp as (lp & ? & ? & ? & ->). simpl. eauto. }
  { intros l Hl. apply Ha, elem_of_app. by left. }
  destruct (rename_visits_total (visits 0 p ms1) h ids)
    as (h1 & ids1 & Hloop1 & Hsame1 & _).
  { intros l Hl. apply Ha1, elem_of_app. right. by eapply visits_scanned. }
  assert (Mixin h p ms1
          = Ok (h1, foldl merge_doc p ms1, uint_of (clashes_docs p ms1)))
    as Hrun1.
  { rewrite Mixin_eq by done. rewrite Hget. simpl. rewrite Hloop1. by simpl. }
  destruct (Mixin_result_ready h p ms1 ms2 h1 Hready Hsame1) as [_ Hready2].
  destruct (Mixin_total _ _ ms2 Hready2) as (h2 & Hrun2 & Hsame2 & Hrest2).
  pose proof Hready2 as (_ & _ & _ & Ha2).
  destruct (rename_visits_total
              (visits (length ms1) (foldl merge_doc p ms1) ms2) h1 ids1)
    as (h' & ids' & Hloop & Hsame & Hrest & _).
  { intros l Hl. apply Ha2, elem_of_app. right. by eapply visits_scanned. }
  exists h1, h2, h'. split; [done|]. split; [by rewrite foldl_app|].
  split; [|split].
  - rewrite Mixin_eq by done. rewrite Hget. simpl.
    rewrite visits_app, for_each_app, Hloop1. simpl. rewrite Hloop. by simpl.
  - eapply same_but_ids_trans; [|exact Hsame]. by apply same_but_ids_sym.
  - intros l Hl. rewrite Hrest2 by done. apply Hrest.
    by rewrite (visits_locs _ 0).
Qed.



(** ** The same mixins again *)

Lemma merge_present {V} (l src : list (string * V)) :
  (∀ k, k ∈ src.*1 → k ∈ l.*1) →
  fresh_entries l src = [] ∧ clashes l src = length src.
Proof.
  induction src as [|[k v] src IH]; intros Hin; [done|].
  rewrite fresh_entries_cons, clashes_cons.
  rewrite !decide_True by (apply Hin; by left).
  destruct IH as [-> ->]; [|done]. intros k' Hk'. apply Hin. by right.
Qed.

Lemma merge_doc_present q m :
  allocated q →
  (∀ k, k ∈ definition_keys m → k ∈ definition_keys q) →
  (∀ k, k ∈ path_keys m → k ∈ path_keys q) →
  (∀ k, k ∈ parameter_keys m → k ∈ parameter_keys q) →
  (∀ k, k ∈ response_keys m → k ∈ response_keys q) →
  merge_doc q m = q ∧ clashes_doc q m = entries m
  ∧ fresh_entries (paths_of q) (paths_of m) = [].
Proof.
  intros Hq Hd Hp Hpa Hr.
  destruct (merge_present _ _ Hd) as [Hd1 Hd2].
  destruct (merge_present _ _ Hp) as [Hp1 Hp2].
  destruct (merge_present _ _ Hpa) as [Hpa1 Hpa2].
  destruct (merge_present _ _ Hr) as [Hr1 Hr2].
  split; [|split; [|done]].
  - unfold merge_doc, merge. rewrite Hd1, Hp1, Hpa1, Hr1, !app_nil_r.
    by apply allocated_inv in Hq as (lp & ld & lpar & lr & ->).
  - unfold clashes_doc, entries. by rewrite Hd2, Hp2, Hpa2, Hr2.
Qed.

(** X5.  [Mixin] with mixins that were mixed in before adds nothing: the
    primary and the heap stay as they are, and the count is the number of
    all entries of the mixins. *)
Theorem Mixin_again h p ms :
  mixin_ready h p ms →
  ∃ h' p' c,
    Mixin h p ms = Ok (h', p', c)
    ∧ Mixin h' p' ms = Ok (h', p', uint_of (sum_list_with entries ms)).
Proof.
  intros Hready.
  destruct (merged_primary_ready h p ms Hready)
    as (h' & Hrun & Hready' & Hd & Hp & Hpa & Hr).
  exists h', (foldl merge_doc p ms), (uint_of (clashes_docs p ms)).
  split; [done|].
  set (q := foldl merge_doc p ms) in *.
  destruct Hready' as (Hq & _ & _ & Ha). rewrite app_nil_r in Ha.
  destruct Hready as (_ & Hps & Hwf & _). apply Forall_cons in Hwf as [_ Hwf].
  assert (∀ ms', ms' ⊆ ms →
            foldl merge_doc q ms' = q
            ∧ clashes_docs q ms' = sum_list_with entries ms'
            ∧ visits 0 q ms' = []) as Hsame.
  { intros ms'. generalize 0.
    induction ms' as [|m ms' IH]; intros i Hsub; [done|].
    destruct (merge_doc_present q m Hq) as (Hm & Hc & Hf).
    - intros k Hk. apply Hd. right. exists m. split; [|done].
      apply Hsub. by left.
    - intros k Hk. apply Hp. right. exists m. split; [|done].
      apply Hsub. by left.
    - intros k Hk. apply Hpa. right. exists m. split; [|done].
      apply Hsub. by left.
    - intros k Hk. apply Hr. right. exists m. split; [|done].
      apply Hsub. by left.
    - cbn [foldl clashes_docs visits sum_list_with]. rewrite Hm, Hc, Hf.
      destruct (IH (S i)) as (-> & -> & ->); [|done].
      intros m' Hm'. apply Hsub. by right. }
  destruct (Hsame ms) as (Hfold & Hcl & Hvis); [done|].
  rewrite Mixin_eq by done.
  destruct (getOpIds_spec h' q) as (ids & -> & _).
  { apply allocated_inv in Hq as (lp & ? & ? & ? & ->). simpl. eauto. }
  { done. }
  simpl. by rewrite Hvis, Hfold, Hcl.
Qed.

(** The sample mixed into its own result: all ten entries are skipped. *)
Lemma Mixin_again_witness :
  ∃ h' p' c,
    Mixin Sample.ops Sample.primary [Sample.mixin0; Sample.mixin1]
    = Ok (h', p', c)
    ∧ Mixin h' p' [Sample.mixin0; Sample.mixin1] = Ok (h', p', 10%N).
Proof.
  destruct (Mixin_again Sample.ops Sample.primary
              [Sample.mixin0; Sample.mixin1])
    as (h' & p' & c & Hrun & Hagain); [by_computation|].
  exists h', p', c. split; [exact Hrun|exact Hagain].
Defined.

(** ** The repaired document *)

Lemma keeps_desc_described r : keeps_desc r = true ↔ described r.
Proof.
  unfold keeps_desc, described.
  rewrite orb_true_iff, !bool_decide_eq_true. tauto.
Qed.

Lemma elem_of_reachable_ops s l :
  l ∈ reachable_ops s ↔ Some l ∈ repair_targets s.
Proof.
  unfold reachable_ops. rewrite list_elem_of_omap. split.
  - by intros ([l'|] & Hin & [= <-]).
  - intros Hin. by exists (Some l).
Qed.

(** X6.  After [FixEmptyResponseDescriptions] every response of the
    document has a description or is a reference: the responses of the
    document itself, and under every operation of every path item the
    responses by status code and the default response. *)
Theorem FixEmptyResponseDescriptions_describes h s :
  fix_ready h s →
  ∃ h' s',
    FixEmptyResponseDescriptions h s = Ok (h', s')
    ∧ reachable_ops s' = reachable_ops s
    ∧ Forall (λ kv, described kv.2) (responses_of s')
    ∧ ∀ l, l ∈ reachable_ops s' →
        ∃ o rl r,
          h_operation h' !! l = Some o ∧ Operation.Responses o = Some rl
          ∧ h_responses h' !! rl = Some r
          ∧ Forall (λ kv, described kv.2)
                   (range (Responses.StatusCodeResponses r))
          ∧ ∀ dl, Responses.Default r = Some dl →
                  ∃ d, h_response h' !! dl = Some d ∧ described d.
Proof.
  intros Hready.
  destruct (FixEmptyResponseDescriptions_total h s Hready)
    as (h' & Hrun & _ & Hset).
  exists h', (repaired_doc s). split; [done|]. split; [done|]. split.
  - unfold responses_of, repaired_doc. simpl.
    destruct (Swagger.Responses s) as [lr|]; simpl; [|done].
    eapply Forall_impl; [apply fix_entries_settled|].
    intros kv. apply keeps_desc_described.
  - intros l Hl%elem_of_reachable_ops.
    change (repair_targets (repaired_doc s)) with (repair_targets s) in Hl.
    rewrite Forall_forall in Hset.
    destruct (on_responses_inv _ _ _ (Hset _ Hl)) as (o & rl & Ho & Hrl & Hs).
    unfold settled_responses in Hs.
    destruct (h_responses h' !! rl) as [r|] eqn:Hr; [|done].
    destruct Hs as (_ & Hst & Hd).
    exists o, rl, r. repeat (split; [done|]). split.
    + eapply Forall_impl; [exact Hst|]. intros kv. apply keeps_desc_described.
    + intros dl Hdl. rewrite Hdl in Hd.
      destruct (h_response h' !! dl) as [d|]; [|done].
      exists d. split; [done|]. by apply keeps_desc_described.
Qed.

(** The responses of the sample to repair are described afterwards. *)
Lemma FixEmptyResponseDescriptions_describes_witness :
  ∃ h' s',
    FixEmptyResponseDescriptions Sample.to_repair Sample.unrepaired
    = Ok (h', s')
    ∧ Forall (λ kv, described kv.2) (responses_of s').
Proof.
  destruct (FixEmptyResponseDescriptions_describes
              Sample.to_repair Sample.unrepaired)
    as (h' & s' & Hrun & _ & Hdesc & _); [by_computation|].
  by exists h', s'.
Defined.

(** ** What the repair leaves alone *)

Lemma repair_responses_frame h l r :
  (∀ l', l' ≠ l →
     h_responses (repair_responses h l r) !! l' = h_responses h !! l')
  ∧ (∀ dl, Responses.Default r ≠ Some dl →
       h_response (repair_responses h l r) !! dl = h_response h !! dl).
Proof.
  unfold repair_responses. split.
  - intros l' Hne. simpl. rewrite lookup_insert_ne by done.
    destruct (Responses.Default r) as [dl|]; [|done].
    by destruct (h_response h !! dl).
  - intros dl Hne. simpl.
    destruct (Responses.Default r) as [dl'|]; [|done].
    destruct (h_response h !! dl') as [d|]; [|done].
    simpl. rewrite lookup_insert_ne; [done|congruence].
Qed.

Lemma repaired_from_default h h' rl r' :
  repaired_from h h' → h_responses h' !! rl = Some r' →
  ∃ r, h_responses h !! rl = Some r
       ∧ Responses.Default r' = Responses.Default r.
Proof.
  intros (_ & Hrs & _) Hr'. destruct (Hrs rl) as [Heq|Heq].
  - exists r'. split; [congruence|done].
  - rewrite Hr' in Heq. destruct (h_responses h !! rl) as [r|]; [|done].
    exists r. split; [done|]. by injection Heq as ->.
Qed.

Lemma fix_loop_frame ops h h' :
  Forall (on_responses wf_responses h) ops →
  for_each fix_op_step ops h = Ok h' →
  (∀ rl, (∀ l o, Some l ∈ ops → h_operation h !! l = Some o →
                 Operation.Responses o ≠ Some rl) →
         h_responses h' !! rl = h_responses h !! rl)
  ∧ (∀ dl, (∀ l o rl r, Some l ∈ ops → h_operation h !! l = Some o →
                        Operation.Responses o = Some rl →
                        h_responses h !! rl = Some r →
                        Responses.Default r ≠ Some dl) →
           h_response h' !! dl = h_response h !! dl).
Proof.
  revert h. induction ops as [|op ops IH]; intros h Hwf Hrun.
  { injection Hrun as <-. by split. }
  apply Forall_cons in Hwf as [Hop Hwf].
  destruct (fix_operation_total h op Hop) as (h1 & Hstep & Hfrom & _).
  change (for_each fix_op_step (op :: ops) h)
    with (fix_operation h op ≫= for_each fix_op_step ops) in Hrun.
  rewrite Hstep in Hrun. simpl in Hrun.
  pose proof Hfrom as (Hops & _).
  destruct (IH h1) as [IHrs IHr]; [|done|].
  { eapply Forall_impl; [exact Hwf|]. intros x.
    apply repaired_from_on; [|done]. intros l. by apply repaired_from_wf. }
  assert ((∀ rl, (∀ l o, op = Some l → h_operation h !! l = Some o →
                         Operation.Responses o ≠ Some rl) →
                 h_responses h1 !! rl = h_responses h !! rl)
          ∧ (∀ dl, (∀ l o rl r, op = Some l → h_operation h !! l = Some o →
                                Operation.Responses o = Some rl →
                                h_responses h !! rl = Some r →
                                Responses.Default r ≠ Some dl) →
                   h_response h1 !! dl = h_response h !! dl))
    as [Hrs1 Hr1].
  { destruct op as [l|]; [|injection Hstep as <-; by split].
    destruct (on_responses_inv _ _ _ Hop) as (o & rl & Ho & Hrl & Hw).
    pose proof Hw as Hw'. unfold wf_responses in Hw'.
    destruct (h_responses h !! rl) as [r|] eqn:Hr; [|done].
    unfold fix_operation, load in Hstep. rewrite Ho in Hstep.
    simpl in Hstep. rewrite Hrl in Hstep.
    rewrite (FixEmptyDescs_eq h rl r) in Hstep by done.
    injection Hstep as <-.
    destruct (repair_responses_frame h rl r) as [Hf1 Hf2]. split.
    - intros rl' Hne. apply Hf1. intros ->. by eapply Hne.
    - intros dl Hne. apply Hf2. by eapply Hne. }
  split.
  - intros rl Hne. rewrite IHrs, Hrs1; [done| |].
    + intros l o -> Ho. eapply Hne; [by left|done].
    + intros l o Hin Ho. rewrite Hops in Ho. eapply Hne; [by right|done].
  - intros dl Hne. rewrite IHr, Hr1; [done| |].
    + intros l o rl r -> Ho. eapply Hne; [by left|done].
    + intros l o rl r' Hin Ho Hrl Hr'. rewrite Hops in Ho.
      destruct (repaired_from_default h h1 rl r' Hfrom Hr')
        as (r & Hr & ->).
      eapply Hne; [by right|done..].
Qed.

Lemma FixEmptyDesc_val_cases v :
  described v ∧ FixEmptyDesc_val v = v
  ∨ ¬ described v
    ∧ FixEmptyDesc_val v = Response.mk "(empty)" (Response.Ref v).
Proof.
  unfold FixEmptyDesc_val. destruct (keeps_desc v) eqn:Hk.
  - left. split; [by apply keeps_desc_described|done].
  - right. split; [|done]. intros Hd%keeps_desc_described. congruence.
Qed.

Lemma fix_responses_entry r i k v :
  range (Responses.StatusCodeResponses r) !! i = Some (k, v) →
  range (Responses.StatusCodeResponses (fix_responses r)) !! i
  = Some (k, FixEmptyDesc_val v).
Proof.
  unfold fix_responses. simpl.
  destruct (Responses.StatusCodeResponses r) as [l|]; simpl; [|done].
  intros Hi. unfold fix_entries. by rewrite list_lookup_fmap, Hi.
Qed.

(** X7.  [FixEmptyResponseDescriptions] writes only where it repairs: the
    operations, the [Responses] objects that no operation of a path item
    points to and the responses that are the default of none of these
    objects are as before, and so are the paths, definitions and
    parameters of the document and the keys of its responses.  No object is
    made or lost.  In every [Responses] object the default pointer, the
    status codes and their order are as before, and a nil map stays nil.
    Every response, be it by status code, a default or one of the
    document, is as before or was without description and reference and
    has the description (empty) now, its reference as before; so one that
    has a description or is a reference does not change, wherever it
    is. *)
Theorem FixEmptyResponseDescriptions_frame h s :
  fix_ready h s →
  ∃ h' s',
    FixEmptyResponseDescriptions h s = Ok (h', s')
    ∧ h_operation h' = h_operation h
    ∧ (∀ rl, rl ∉ reached_responses h s →
         h_responses h' !! rl = h_responses h !! rl)
    ∧ (∀ dl, dl ∉ reached_defaults h s →
         h_response h' !! dl = h_response h !! dl)
    ∧ (∀ dl d, h_response h !! dl = Some d → described d →
         h_response h' !! dl = Some d)
    ∧ (∀ dl, match h_response h !! dl with
             | None => h_response h' !! dl = None
             | Some d =>
                 h_response h' !! dl = Some d
                 ∨ ¬ described d
                   ∧ h_response h' !! dl
                     = Some (Response.mk "(empty)" (Response.Ref d))
             end)
    ∧ (∀ rl, match h_responses h !! rl with
             | None => h_responses h' !! rl = None
             | Some r =>
                 ∃ r',
                   h_responses h' !! rl = Some r'
                   ∧ Responses.Default r' = Responses.Default r
                   ∧ (Responses.StatusCodeResponses r' = None ↔
                      Responses.StatusCodeResponses r = None)
                   ∧ keys (Responses.StatusCodeResponses r')
                     = keys (Responses.StatusCodeResponses r)
                   ∧ ∀ i k v,
                       range (Responses.StatusCodeResponses r) !! i
                       = Some (k, v) →
                       (described v →
                        range (Responses.StatusCodeResponses r') !! i
                        = Some (k, v))
                       ∧ (range (Responses.StatusCodeResponses r') !! i
                          = Some (k, v)
                          ∨ ¬ described v
                            ∧ range (Responses.StatusCodeResponses r') !! i
                              = Some (k, Response.mk "(empty)"
                                           (Response.Ref v)))
             end)
    ∧ Swagger.Paths s' = Swagger.Paths s
    ∧ Swagger.Definitions s' = Swagger.Definitions s
    ∧ Swagger.Parameters s' = Swagger.Parameters s
    ∧ response_keys s' = response_keys s
    ∧ (∀ k v, (k, v) ∈ responses_of s → described v →
         (k, v) ∈ responses_of s')
    ∧ (∀ i k v, responses_of s !! i = Some (k, v) →
         responses_of s' !! i = Some (k, v)
         ∨ ¬ described v
           ∧ responses_of s' !! i
             = Some (k, Response.mk "(empty)" (Response.Ref v))).
Proof.
  intros Hready.
  destruct (FixEmptyResponseDescriptions_total h s Hready)
    as (h' & Hrun & Hfrom & _).
  exists h', (repaired_doc s). split; [done|].
  pose proof Hfrom as (Hops & Hresps & Hresp). split; [done|].
  pose proof Hready as ([ps Hps] & _ & Hwf).
  apply Forall_concat_fmap in Hwf. fold (repair_targets s) in Hwf.
  assert (for_each fix_op_step (repair_targets s) h = Ok h') as Hloop.
  { unfold FixEmptyResponseDescriptions in Hrun. rewrite Hps in Hrun.
    simpl in Hrun. rewrite fix_paths_eq in Hrun.
    unfold repair_targets, paths_of. rewrite Hps.
    destruct (for_each fix_op_step _ h) as [h0|]; [|done].
    simpl in Hrun.
    destruct (for_each fix_top_response _ _); [|done].
    simpl in Hrun. by injection Hrun as ->. }
  destruct (fix_loop_frame _ h h' Hwf Hloop) as [Hf1 Hf2].
  split; [|split; [|split; [|split; [|split]]]].
  - intros rl Hnot. apply Hf1. intros l o Hin Ho Hrl. apply Hnot.
    unfold reached_responses. apply list_elem_of_omap. exists l.
    split; [by apply elem_of_reachable_ops|]. by rewrite Ho.
  - intros dl Hnot. apply Hf2. intros l o rl r Hin Ho Hrl Hr Hdl.
    apply Hnot. unfold reached_defaults. apply list_elem_of_omap.
    exists rl. split; [|by rewrite Hr].
    unfold reached_responses. apply list_elem_of_omap. exists l.
    split; [by apply elem_of_reachable_ops|]. by rewrite Ho.
  - intros dl d Hd Hdesc. destruct (Hresp dl) as [->| ->]; [done|].
    rewrite Hd. simpl. f_equal. apply FixEmptyDesc_val_kept.
    by apply keeps_desc_described.
  - intros dl. destruct (h_response h !! dl) as [d|] eqn:Hd.
    + destruct (Hresp dl) as [->| ->]; [by left|]. rewrite Hd. simpl.
      destruct (FixEmptyDesc_val_cases d) as [[_ ->]|[Hno ->]];
        [by left|by right].
    + by destruct (Hresp dl) as [->| ->]; rewrite Hd.
  - intros rl. destruct (h_responses h !! rl) as [r|] eqn:Hr.
    2:{ by destruct (Hresps rl) as [->| ->]; rewrite Hr. }
    destruct (Hresps rl) as [Heq|Heq]; rewrite Hr in Heq.
    + exists r. do 4 (split; [done|]). intros i k v Hi.
      split; [done|by left].
    + exists (fix_responses r). split; [done|]. split; [done|].
      split; [|split; [apply keys_fix_responses|]].
      * unfold fix_responses. simpl.
        by destruct (Responses.StatusCodeResponses r).
      * intros i k v Hi. rewrite (fix_responses_entry r i k v Hi).
        destruct (FixEmptyDesc_val_cases v) as [[Hd ->]|[Hno ->]].
        -- split; [done|by left].
        -- split; [done|by right].
  - repeat (split; [done|]). split; [|split].
    + unfold response_keys, responses_of, repaired_doc. simpl.
      destruct (Swagger.Responses s) as [lr|]; simpl; [|done].
      apply fix_entries_keys.
    + intros k v Hin Hdesc. unfold responses_of, repaired_doc in *. simpl.
      destruct (Swagger.Responses s) as [lr|]; simpl in *; [|done].
      unfold fix_entries. apply list_elem_of_fmap. exists (k, v).
      split; [|done]. simpl. f_equal. symmetry.
      apply FixEmptyDesc_val_kept. by apply keeps_desc_described.
    + intros i k v. unfold responses_of, repaired_doc. simpl.
      destruct (Swagger.Responses s) as [lr|]; simpl; [|done].
      intros Hi. unfold fix_entries. rewrite list_lookup_fmap, Hi. simpl.
      destruct (FixEmptyDesc_val_cases v) as [[_ ->]|[Hno ->]];
        [by left|by right].
Qed.

(** The operations of the sample to repair are not written, and the
    response 500 of its [Responses] object, which has a description, is
    as before. *)
Lemma FixEmptyResponseDescriptions_frame_witness :
  ∃ h' s',
    FixEmptyResponseDescriptions Sample.to_repair Sample.unrepaired
    = Ok (h', s')
    ∧ h_operation h' = h_operation Sample.to_repair
    ∧ ∃ r', h_responses h' !! 20%positive = Some r'
            ∧ range (Responses.StatusCodeResponses r') !! 2
              = Some (500%Z, Response.mk "boom" None).
Proof.
  destruct (FixEmptyResponseDescriptions_frame
              Sample.to_repair Sample.unrepaired)
    as (h' & s' & Hrun & Hops & _ & _ & _ & _ & Hresps & _);
    [by_computation|].
  exists h', s'. split; [exact Hrun|]. split; [exact Hops|].
  specialize (Hresps 20%positive).
  change (h_responses Sample.to_repair !! 20%positive)
    with (Some (Responses.mk (Some 30%positive)
                  (Some [(200%Z, Response.mk "" None);
                         (404%Z, Response.mk "" (Some "#/responses/NotFound"));
                         (500%Z, Response.mk "boom" None)]))) in Hresps.
  destruct Hresps as (r' & Hr' & _ & _ & _ & Hentries).
  exists r'. split; [exact Hr'|].
  apply (Hentries 2 500%Z (Response.mk "boom" None)); [reflexivity|].
  by left.
Defined.

(** ** The count is a uint *)

Lemma uint_incr_bounded n : (uint_incr n < uint_modulus)%N.
Proof. unfold uint_incr. by apply N.mod_upper_bound. Qed.

Lemma mix_entries_bounded {V} (l : list (string * V)) st :
  (st.2 < uint_modulus)%N →
  match for_each mix_entry l st with
  | Ok st' => (st'.2 < uint_modulus)%N
  | Panic _ => True
  end.
Proof.
  apply (for_each_clean (λ st, (st.2 < uint_modulus)%N) (λ _, True)).
  intros [k v] [dst c] _ Hc. unfold mix_entry.
  destruct (map_get dst k); simpl; [apply uint_incr_bounded|].
  by destruct (map_set dst k v).
Qed.

Lemma mix_paths_bounded i (l : list (string * PathItem.t)) (st : paths_state) :
  (st.2 < uint_modulus)%N →
  match for_each (mix_path i) l st with
  | Ok st' => (st'.2 < uint_modulus)%N
  | Panic _ => True
  end.
Proof.
  apply (for_each_clean (λ st : paths_state, (st.2 < uint_modulus)%N)
           (λ _, True)).
  intros [k v] [[[h ids] pp] c] _ Hc. unfold mix_path.
  destruct pp as [pp|]; simpl; [|done].
  destruct (map_get (Paths.Paths pp) k); simpl; [apply uint_incr_bounded|].
  destruct (for_each (rename_op i) _ _) as [[h1 ids1]|]; simpl; [|done].
  by destruct (map_set (Paths.Paths pp) k v).
Qed.

Lemma mix_one_bounded i m (st : mixin_state) :
  (st.2 < uint_modulus)%N →
  match mix_one i m st with
  | Ok st' => (st'.2 < uint_modulus)%N
  | Panic _ => True
  end.
Proof.
  destruct st as [[[h ids] p] c]. intros Hc. unfold mix_one.
  pose proof (mix_entries_bounded (range (Swagger.Definitions m))
                (Swagger.Definitions p, c) Hc) as Hd.
  destruct (for_each mix_entry (range (Swagger.Definitions m)) _)
    as [[defs c1]|e]; simpl in *; [|done].
  destruct (Swagger.Paths m) as [mp|]; simpl; [|done].
  pose proof (mix_paths_bounded i (range (Paths.Paths mp))
                (h, ids, Swagger.Paths p, c1) Hd) as Hp.
  destruct (for_each (mix_path i) _ _) as [[[[h1 ids1] pp1] c2]|e];
    simpl in *; [|done].
  pose proof (mix_entries_bounded (range (Swagger.Parameters m))
                (Swagger.Parameters p, c2) Hp) as Hpa.
  destruct (for_each mix_entry (range (Swagger.Parameters m)) _)
    as [[params c3]|e]; simpl in *; [|done].
  pose proof (mix_entries_bounded (range (Swagger.Responses m))
                (Swagger.Responses p, c3) Hpa) as Hr.
  by destruct (for_each mix_entry (range (Swagger.Responses m)) _)
    as [[resps c4]|e].
Qed.

Lemma mix_from_bounded i ms (st : mixin_state) :
  (st.2 < uint_modulus)%N →
  match mix_from i ms st with
  | Ok st' => (st'.2 < uint_modulus)%N
  | Panic _ => True
  end.
Proof.
  revert i st. induction ms as [|m ms IH]; intros i st Hc; [done|].
  cbn [mix_from]. pose proof (mix_one_bounded i m st Hc) as Hone.
  destruct (mix_one i m st) as [st1|e]; simpl; [|done]. by apply IH.
Qed.

Lemma Mixin_count_bounded h p ms h' p' c :
  Mixin h p ms = Ok (h', p', c) → (c < uint_modulus)%N.
Proof.
  unfold Mixin. destruct (getOpIds h p) as [ids|]; simpl; [|done].
  pose proof (mix_from_bounded 0 ms (h, ids, p, 0%N)) as Hb.
  destruct (mix_from 0 ms _) as [[[[h1 ids1] p1] c1]|]; simpl in *; [|done].
  intros [= <- <- <-]. by apply Hb.
Qed.

Lemma int_of_uint_nonzero n :
  (n < uint_modulus)%N → n ≠ 0%N → int_of_uint n ≠ 0%Z.
Proof.
  unfold int_of_uint, uint_modulus. intros Hn Hz.
  destruct (n <? 2 ^ 63)%N eqn:Hlt; [lia|].
  apply N.ltb_ge in Hlt. lia.
Qed.

Lemma int_of_uint_low_bits n :
  (int_of_uint n mod 256)%Z = Z.of_N (n mod 256).
Proof.
  rewrite N2Z.inj_mod. unfold int_of_uint.
  destruct (n <? 2 ^ 63)%N; [done|].
  replace (Z.of_N n - 2 ^ 64)%Z with (Z.of_N n + (- 2 ^ 56) * 256)%Z by lia.
  apply Z_mod_plus_full.
Qed.

(** ** Files in, one document out *)

Lemma elem_of_merge_all {V} (l : list (string * V)) srcs kv :
  kv ∈ merge_all l srcs → kv ∈ l ∨ ∃ src, src ∈ srcs ∧ kv ∈ src.
Proof.
  unfold merge_all. revert l. induction srcs as [|src srcs IH]; intros l.
  - by left.
  - cbn [foldl]. intros [Hin|(src' & Hsrc & Hin)]%IH.
    + unfold merge in Hin. apply elem_of_app in Hin as [?|Hin]; [by left|].
      apply elem_of_fresh_entries in Hin as [_ Hin].
      right. exists src. split; [by left|done].
    + right. exists src'. split; [by right|done].
Qed.

Lemma same_but_ids_on P h h' op :
  same_but_ids h h' → (∀ l, P h l → P h' l) →
  on_responses P h op → on_responses P h' op.
Proof.
  intros (_ & _ & Hops) HP. destruct op as [l|]; [|done]. simpl.
  specialize (Hops l).
  destruct (h_operation h !! l) as [o|], (h_operation h' !! l) as [o'|];
    try done.
  destruct Hops as [_ ->]. destruct (Operation.Responses o); [|done].
  apply HP.
Qed.

Lemma same_but_ids_wf h h' l :
  same_but_ids h h' → wf_responses h l → wf_responses h' l.
Proof. intros (Hrs & Hr & _). unfold wf_responses. by rewrite Hrs, Hr. Qed.

(** The primary after [Mixin] is ready for the repair. *)
Lemma merged_fix_ready h h' p ms :
  mixin_ready h p ms → same_but_ids h h' →
  Forall (responses_ready h) (p :: ms) →
  fix_ready h' (foldl merge_doc p ms).
Proof.
  intros (Hp & _ & Hwf & _) Hsame Hresp.
  pose proof (foldl_merge_doc_allocated p ms Hp) as Ha.
  pose proof (merge_docs_wf p ms Hwf) as (_ & _ & _ & Hnd).
  split; [|split; [done|]].
  { apply allocated_inv in Ha as (lp & ? & ? & ? & ->). simpl. eauto. }
  apply Forall_forall. intros kv Hkv. rewrite paths_of_merged in Hkv.
  assert (∃ d, d ∈ p :: ms ∧ kv ∈ paths_of d) as (d & Hd & Hin).
  { apply elem_of_merge_all in Hkv
      as [?|(src & (m & -> & Hm)%list_elem_of_fmap & Hin)].
    - exists p. split; [by left|done].
    - exists m. split; [by right|done]. }
  rewrite Forall_forall in Hresp. specialize (Hresp d Hd).
  unfold responses_ready in Hresp. rewrite Forall_forall in Hresp.
  eapply Forall_impl; [exact (Hresp kv Hin)|]. intros op.
  apply same_but_ids_on; [done|]. intros l. by apply same_but_ids_wf.
Qed.

Section MixinFiles_more.
Context {W : Type} `{!Writer W}.
Variable loads_Spec : string → heap → heap * Swagger.t + error.
Variable json_MarshalIndent : heap → Swagger.t → string + error.

Lemma MixinFiles_error_clean primaryFile mixinFiles (w : W) h w' c e :
  MixinFiles loads_Spec json_MarshalIndent primaryFile mixinFiles w h
  = Ok (w', (c, Some e)) → w' = w ∧ c = 0%N.
Proof.
  unfold MixinFiles.
  destruct (loads_Spec primaryFile h) as [[h1 p]|err]; [|by intros [= <- <-]].
  destruct (load_mixins loads_Spec mixinFiles (h1, [])) as [[h2 ms]|err];
    [|by intros [= <- <-]].
  destruct (Mixin h2 p ms) as [[[h3 p3] c3]|]; simpl; [|done].
  destruct (FixEmptyResponseDescriptions h3 p3) as [[h4 p4]|]; simpl;
    [|done].
  destruct (json_MarshalIndent h4 p4) as [bs|err]; [|by intros [= <- <-]].
  by destruct (Write w bs).
Qed.

(** X8.  [MixinFiles] returns an error only with the count 0 and with
    nothing written.  The error of the loader on the primary file, or on
    the first mixin file that fails after the files before it were loaded,
    is returned as it is, whatever the documents loaded so far are. *)
Theorem MixinFiles_on_error primaryFile mixinFiles (w : W) h :
  (∀ w' c e,
     MixinFiles loads_Spec json_MarshalIndent primaryFile mixinFiles w h
     = Ok (w', (c, Some e)) → w' = w ∧ c = 0%N)
  ∧ (∀ err, loads_Spec primaryFile h = inr err →
       MixinFiles loads_Spec json_MarshalIndent primaryFile mixinFiles w h
       = Ok (w, (0%N, Some err)))
  ∧ (∀ h1 p good bad rest st' err,
       mixinFiles = good ++ bad :: rest →
       loads_Spec primaryFile h = inl (h1, p) →
       load_mixins loads_Spec good (h1, []) = inl st' →
       loads_Spec bad st'.1 = inr err →
       MixinFiles loads_Spec json_MarshalIndent primaryFile mixinFiles w h
       = Ok (w, (0%N, Some err))).
Proof.
  split; [|split].
  - intros w' c e. apply MixinFiles_error_clean.
  - intros err Herr. by apply MixinFiles_primary_error.
  - intros h1 p good bad rest st' err -> Hp Hgood Hbad.
    by eapply MixinFiles_mixin_error.
Qed.

(** X9.  On files whose documents are in order [MixinFiles] does not
    panic: it serializes the repaired merge of the documents, and either
    returns the error of the serializer, with the count 0 and nothing
    written, or writes the bytes in one [Write] and returns the number of
    skipped entries without error. *)
Theorem MixinFiles_writes_merged primaryFile mixinFiles (w : W) h h1 p h2 ms :
  loads_Spec primaryFile h = inl (h1, p) →
  load_mixins loads_Spec mixinFiles (h1, []) = inl (h2, ms) →
  mixin_ready h2 p ms → Forall (responses_ready h2) (p :: ms) →
  ∃ h3 h4,
    Mixin h2 p ms = Ok (h3, foldl merge_doc p ms, uint_of (skipped_total p ms))
    ∧ FixEmptyResponseDescriptions h3 (foldl merge_doc p ms)
      = Ok (h4, repaired_doc (foldl merge_doc p ms))
    ∧ MixinFiles loads_Spec json_MarshalIndent primaryFile mixinFiles w h =
      match json_MarshalIndent h4 (repaired_doc (foldl merge_doc p ms)) with
      | inr err => Ok (w, (0%N, Some err))
      | inl bs => Ok ((Write w bs).1, (uint_of (skipped_total p ms), None))
      end.
Proof.
  intros Hp Hms Hready Hresp.
  destruct (Mixin_total h2 p ms Hready) as (h3 & Hrun & Hsame & _).
  rewrite clashes_docs_skipped in Hrun.
  destruct (FixEmptyResponseDescriptions_total h3 (foldl merge_doc p ms))
    as (h4 & Hfix & _); [by eapply merged_fix_ready|].
  exists h3, h4. split; [done|]. split; [done|].
  by eapply MixinFiles_loaded.
Qed.
End MixinFiles_more.

(** The second mixin file of three is missing. *)
Lemma MixinFiles_on_error_witness :
  MixinFiles Sample.files Sample.marshal "primary.yml"
    ["mixin0.yml"; "missing.yml"; "mixin0.yml"] (Buffer "") (Heap ∅ ∅ ∅)
  = Ok (Buffer "",
        (0%N, Some "open missing.yml: no such file or directory")).
Proof.
  refine (proj2 (proj2 (MixinFiles_on_error Sample.files Sample.marshal
            "primary.yml" ["mixin0.yml"; "missing.yml"; "mixin0.yml"]
            (Buffer "") (Heap ∅ ∅ ∅)))
          Sample.loaded Sample.primary ["mixin0.yml"] "missing.yml"
          ["mixin0.yml"] (Sample.loaded, [Sample.mixin0]) _ _ _ _ _);
    reflexivity.
Defined.

(** The two sample files. *)
Lemma MixinFiles_writes_merged_witness :
  MixinFiles Sample.files Sample.marshal "primary.yml" ["mixin0.yml"]
    (Buffer "") (Heap ∅ ∅ ∅)
  = Ok (Buffer "{}", (3%N, None)).
Proof.
  destruct (MixinFiles_writes_merged Sample.files Sample.marshal
              "primary.yml" ["mixin0.yml"] (Buffer "") (Heap ∅ ∅ ∅)
              Sample.loaded Sample.primary Sample.loaded [Sample.mixin0])
    as (h3 & h4 & _ & _ & Hrun);
    [reflexivity|reflexivity|by_computation|by_computation|].
  exact Hrun.
Defined.

(** ** The command *)

Section main_facts.
Context {W : Type} `{!Writer W}.
Variable loads_Spec : string → heap → heap * Swagger.t + error.
Variable json_MarshalIndent : heap → Swagger.t → string + error.
Variable flags_Parse : list string → W → W * (list string * N + error).

End main_facts.


(** ** The order of iteration *)

Lemma alist_get_Some_elem {V} (l : list (string * V)) k v :
  alist_get l k = Some v → (k, v) ∈ l.
Proof.
  induction l as [|[k' v'] l IH]; simpl; [done|].
  destruct (decide (k' = k)) as [->|Hne].
  - intros [= ->]. by left.
  - intros Hg. right. by apply IH.
Qed.

Lemma alist_get_perm {V} (l l' : list (string * V)) k :
  NoDup l.*1 → NoDup l'.*1 → l ≡ₚ l' → alist_get l k = alist_get l' k.
Proof.
  intros Hl Hl' Hperm.
  destruct (alist_get l k) as [v|] eqn:Hg.
  - symmetry. apply alist_get_elem; [done|]. rewrite <- Hperm.
    by apply alist_get_Some_elem.
  - destruct (alist_get l' k) as [v'|] eqn:Hg'; [|done].
    apply alist_get_Some_elem in Hg'. rewrite <- Hperm in Hg'.
    apply (alist_get_elem _ _ _ Hl) in Hg'. congruence.
Qed.

Lemma merge_perm {V} (l l' src src' : list (string * V)) :
  l ≡ₚ l' → src ≡ₚ src' →
  merge l src ≡ₚ merge l' src' ∧ clashes l src = clashes l' src'.
Proof.
  intros Hl Hsrc.
  assert (∀ k, k ∈ l.*1 ↔ k ∈ l'.*1) as Hkeys.
  { intros k. by rewrite Hl. }
  unfold merge, clashes, fresh_entries. split.
  - rewrite Hl, Hsrc. apply Permutation_app_head.
    erewrite filter_ext_elem; [done|]. intros kv _. simpl.
    by rewrite Hkeys.
  - rewrite Hsrc. f_equal. apply filter_ext_elem. intros kv _. apply Hkeys.
Qed.

Lemma merge_doc_perm p p' m m' :
  doc_perm p p' → doc_perm m m' →
  doc_perm (merge_doc p m) (merge_doc p' m')
  ∧ clashes_doc p m = clashes_doc p' m'.
Proof.
  intros (Hd & Hp & Hpa & Hr) (Hd' & Hp' & Hpa' & Hr').
  destruct (merge_perm _ _ _ _ Hd Hd') as [Hd1 Hd2].
  destruct (merge_perm _ _ _ _ Hp Hp') as [Hp1 Hp2].
  destruct (merge_perm _ _ _ _ Hpa Hpa') as [Hpa1 Hpa2].
  destruct (merge_perm _ _ _ _ Hr Hr') as [Hr1 Hr2].
  split; [by repeat split|].
  unfold clashes_doc. by rewrite Hd2, Hp2, Hpa2, Hr2.
Qed.

Lemma merge_docs_perm p p' ms ms' :
  doc_perm p p' → Forall2 doc_perm ms ms' →
  doc_perm (foldl merge_doc p ms) (foldl merge_doc p' ms')
  ∧ clashes_docs p ms = clashes_docs p' ms'.
Proof.
  intros Hp Hms. revert p p' Hp.
  induction Hms as [|m m' ms ms' Hm Hms IH]; intros p p' Hp; [done|].
  destruct (merge_doc_perm p p' m m' Hp Hm) as [Hq Hc].
  destruct (IH _ _ Hq) as [Hq' Hc'].
  simpl. split; [done|]. by rewrite Hc, Hc'.
Qed.

Lemma visits_locs_perm p ms p2 ms2 l :
  doc_perm p p2 → Forall2 doc_perm ms ms2 →
  l ∈ (visits 0 p2 ms2).*2 → l ∈ (visits 0 p ms).*2.
Proof.
  intros Hp Hms. rewrite !elem_of_visits_locs.
  intros (j & m2 & k & v & Hj & Hkv & Hk & Hl).
  destruct (Forall2_lookup_r _ _ _ _ _ Hms Hj) as (m & Hm & Hperm).
  exists j, m, k, v. split; [done|].
  destruct (merge_docs_perm p p2 (take j ms) (take j ms2) Hp)
    as [(_ & Hpaths & _) _]; [by apply Forall2_take|].
  destruct Hperm as (_ & Hmp & _).
  split; [by rewrite Hmp|]. split; [|done].
  unfold path_keys in *. by rewrite Hpaths.
Qed.

(** X11.  The order in which the entries of the maps are iterated has no
    effect on the count, nor on the path item, definition, parameter and
    response that the merged primary has under a key: with documents that
    differ in the order of the entries of their maps only, [Mixin] returns
    the same count, and its primaries differ in the order of their entries
    at most.  The identifiers of the operations can depend on the order:
    the operations after the two runs are the same but for their
    identifiers, and these differ at most for operations of path items
    that are added. *)
Theorem Mixin_iteration_order h p ms p2 ms2 :
  mixin_ready h p ms → mixin_ready h p2 ms2 →
  doc_perm p p2 → Forall2 doc_perm ms ms2 →
  ∃ h1 q1 h2 q2 c,
    Mixin h p ms = Ok (h1, q1, c) ∧ Mixin h p2 ms2 = Ok (h2, q2, c)
    ∧ doc_perm q1 q2
    ∧ (∀ k, alist_get (definitions_of q1) k = alist_get (definitions_of q2) k)
    ∧ (∀ k, alist_get (paths_of q1) k = alist_get (paths_of q2) k)
    ∧ (∀ k, alist_get (parameters_of q1) k = alist_get (parameters_of q2) k)
    ∧ (∀ k, alist_get (responses_of q1) k = alist_get (responses_of q2) k)
    ∧ same_but_ids h1 h2
    ∧ ∀ l, h_operation h1 !! l ≠ h_operation h2 !! l →
        ∃ j m k v, ms !! j = Some m ∧ (k, v) ∈ paths_of m
          ∧ (k ∉ path_keys (foldl merge_doc p (take j ms)))
          ∧ l ∈ pathItemOps v.
Proof.
  intros Hready Hready2 Hp Hms.
  destruct (Mixin_total h p ms Hready) as (h1 & Hrun1 & Hsame1 & Hrest1).
  destruct (Mixin_total h p2 ms2 Hready2) as (h2 & Hrun2 & Hsame2 & Hrest2).
  destruct (merge_docs_perm p p2 ms ms2 Hp Hms) as [Hq Hc].
  destruct Hready as (_ & _ & Hwf & _), Hready2 as (_ & _ & Hwf2 & _).
  apply merge_docs_wf in Hwf as (Hn1 & Hn2 & Hn3 & Hn4).
  apply merge_docs_wf in Hwf2 as (Hm1 & Hm2 & Hm3 & Hm4).
  exists h1, (foldl merge_doc p ms), h2, (foldl merge_doc p2 ms2),
    (uint_of (clashes_docs p ms)).
  split; [done|]. split; [by rewrite Hc|]. split; [done|].
  destruct Hq as (Hd & Hpp & Hpa & Hr).
  do 4 (split; [intros k; by apply alist_get_perm|]).
  split.
  - eapply same_but_ids_trans; [|exact Hsame2]. by apply same_but_ids_sym.
  - intros l Hne. apply elem_of_visits_locs.
    destruct (decide (l ∈ (visits 0 p ms).*2)) as [Hin|Hnot]; [done|].
    exfalso. apply Hne. rewrite Hrest1 by done. symmetry. apply Hrest2.
    intros Hin. apply Hnot. by eapply visits_locs_perm.
Qed.

(** A mixin with two operations getA, its paths in one order and in the
    other: the operation that is visited second is renamed. *)
Lemma Mixin_iteration_order_witness :
  ∃ h1 q1 h2 q2 c,
    Mixin Sample.colliding_ops (Sample.doc [] [] [] []) [Sample.twins]
    = Ok (h1, q1, c)
    ∧ Mixin Sample.colliding_ops (Sample.doc [] [] [] [])
            [Sample.twins_reordered]
      = Ok (h2, q2, c)
    ∧ doc_perm q1 q2 ∧ same_but_ids h1 h2
    ∧ op_id h1 2%positive = Some "getA"
    ∧ op_id h2 2%positive = Some "getAMixin0".
Proof.
  destruct (Mixin_iteration_order Sample.colliding_ops
              (Sample.doc [] [] [] []) [Sample.twins]
              (Sample.doc [] [] [] []) [Sample.twins_reordered])
    as (h1 & q1 & h2 & q2 & c & Hrun1 & Hrun2 & Hperm & _ & _ & _ & _
        & Hsame & _).
  - by_computation.
  - by_computation.
  - by repeat split.
  - constructor; [|constructor].
    repeat split; try done; apply perm_swap.
  - exists h1, q1, h2, q2, c. split; [exact Hrun1|]. split; [exact Hrun2|].
    split; [exact Hperm|]. split; [exact Hsame|].
    vm_compute in Hrun1. injection Hrun1 as <- _ _.
    vm_compute in Hrun2. injection Hrun2 as <- _ _. by split.
Defined.

(** ** When an operation is renamed *)

Lemma mixin_id_neq x i : mixin_id x i ≠ x.
Proof.
  unfold mixin_id. intros Heq.
  apply (f_equal String.list_ascii_of_string) in Heq.
  rewrite ascii_list_app in Heq.
  rewrite <- (app_nil_r (String.list_ascii_of_string x)) in Heq at 2.
  apply app_inv_head in Heq. rewrite ascii_list_app in Heq. done.
Qed.

Section rename_rule.
Variables (h : heap) (Pl : list loc) (vs : list (nat * loc)).
Hypothesis Hlocs : NoDup (Pl ++ vs.*2).
Hypothesis Halloc : ops_allocated h (Pl ++ vs.*2).

Lemma visited_step_inv done j l todo hc ic :
  vs = done ++ (j, l) :: todo →
  visited_inv h Pl done hc ic →
  ∃ hc' ic',
    rename_visit (j, l) (hc, ic) = Ok (hc', ic')
    ∧ visited_inv h Pl (done ++ [(j, l)]) hc' ic'.
Proof.
  intros Hvs (Hreg & Hrest & Hvis).
  assert (l ∈ Pl ++ vs.*2) as Hlvs.
  { rewrite Hvs, fmap_app, !elem_of_app. right. right. by left. }
  assert (l ∉ Pl ++ done.*2) as Hfresh.
  { rewrite Hvs, fmap_app, fmap_cons in Hlocs. simpl in Hlocs.
    rewrite app_assoc in Hlocs. apply NoDup_app in Hlocs as (_ & Hdis & _).
    intros Hl. apply (Hdis _ Hl). by left. }
  destruct (Halloc l Hlvs) as [o Ho].
  assert (h_operation hc !! l = Some o) as Hoc.
  { rewrite Hrest; [done|]. intros Hd. apply Hfresh, elem_of_app. by right. }
  assert (op_id h l = Some (Operation.ID o)) as Hid
    by (unfold op_id; by rewrite Ho).
  assert (∀ l0, l0 ∈ Pl ++ (done ++ [(j, l)]).*2 ↔ l0 ∈ Pl ++ done.*2 ∨ l0 = l)
    as Hknown.
  { intros l0. rewrite fmap_app, !elem_of_app. simpl.
    rewrite list_elem_of_singleton. tauto. }
  change (rename_visit (j, l) (hc, ic)) with (rename_op j l (hc, ic)).
  rewrite (rename_op_Ok _ _ _ _ _ Hoc).
  assert (∃ hc' idn,
            (if seen ic (Operation.ID o)
             then (store_operation hc l
                     (Operation.mk (Operation.Summary o)
                        (mixin_id (Operation.ID o) j)
                        (Operation.Responses o)),
                   <[mixin_id (Operation.ID o) j := true]> ic)
             else (hc, <[Operation.ID o := true]> ic))
            = (hc', <[idn := true]> ic)
            ∧ (∀ l0, l0 ∈ Pl ++ done.*2 → op_id hc' l0 = op_id hc l0)
            ∧ op_id hc' l = Some idn
            ∧ (∀ l0, l0 ∉ (done ++ [(j, l)]).*2 →
                 h_operation hc' !! l0 = h_operation h !! l0)
            ∧ (idn = mixin_id (Operation.ID o) j
               ∧ seen ic (Operation.ID o) = true
               ∨ idn = Operation.ID o ∧ seen ic (Operation.ID o) = false))
    as (hc' & idn & -> & Hsame & Hnew & Hrest' & Hcase).
  { destruct (seen ic (Operation.ID o)) eqn:Hseen.
    - eexists _, _. split; [done|]. split; [|split; [|split]].
      + intros l0 Hl0. rewrite op_id_store, decide_False; [done|].
        by intros <-.
      + by rewrite op_id_store, decide_True.
      + intros l0 Hl0. rewrite fmap_app, not_elem_of_app in Hl0.
        destruct Hl0 as [Hl0 Hne]. simpl in Hne.
        rewrite list_elem_of_singleton in Hne. simpl.
        rewrite lookup_insert_ne by done. by apply Hrest.
      + by left.
    - eexists _, _. split; [done|]. split; [done|]. split; [|split].
      + unfold op_id. by rewrite Hoc.
      + intros l0 Hl0. rewrite fmap_app, not_elem_of_app in Hl0.
        destruct Hl0 as [Hl0 _]. by apply Hrest.
      + by right. }
  exists hc', (<[idn := true]> ic). split; [done|].
  split; [|split; [done|]].
  - intros s. rewrite seen_insert. split.
    + destruct (decide (idn = s)) as [<-|Hne].
      * intros _. exists l. split; [apply Hknown; by right|done].
      * intros (l0 & Hl0 & Hs0)%Hreg. exists l0.
        split; [apply Hknown; by left|]. by rewrite Hsame.
    + intros (l0 & Hl0 & Hs0). destruct (decide (idn = s)); [done|].
      apply Hknown in Hl0 as [Hl0| ->]; [|congruence].
      apply Hreg. exists l0. split; [done|]. by rewrite <- Hsame.
  - intros n j' l' id' Hn Hid'.
    assert (∀ m l0, (m ≤ length done)%nat → l0 ∈ Pl ++ (take m done).*2 →
                    l0 ∈ Pl ++ done.*2) as Htake.
    { intros m l0 _. rewrite !elem_of_app.
      intros [?|Hin]; [by left|right].
      apply list_elem_of_fmap in Hin as (x & -> & Hx).
      apply elem_of_take in Hx as (i & Hx & _).
      apply list_elem_of_fmap. exists x. split; [done|].
      by eapply list_elem_of_lookup_2. }
    apply lookup_snoc_Some in Hn as [[Hlt Hn]|[-> [= <- <-]]].
    + rewrite take_app_le by lia.
      assert (l' ∈ Pl ++ done.*2) as Hl'.
      { apply elem_of_app. right. apply list_elem_of_fmap.
        exists (j', l'). split; [done|]. by eapply list_elem_of_lookup_2. }
      destruct (Hvis n j' l' id' Hn Hid') as [[Hr (l0 & Hl0 & Hid0)]|[Hk Hno]].
      * left. rewrite Hsame by done. split; [done|]. exists l0.
        split; [done|]. rewrite Hsame; [done|]. apply (Htake n); [lia|done].
      * right. rewrite Hsame by done. split; [done|]. intros l0 Hl0.
        rewrite Hsame; [by apply Hno|]. apply (Htake n); [lia|done].
    + rewrite take_app_length. rewrite Hid in Hid'. injection Hid' as <-.
      destruct Hcase as [[-> Hseen]|[-> Hseen]].
      * left. split; [done|]. apply Hreg in Hseen as (l0 & Hl0 & Hid0).
        exists l0. split; [done|]. by rewrite Hsame.
      * right. split; [done|]. intros l0 Hl0 Hid0.
        rewrite Hsame in Hid0 by done.
        assert (seen ic (Operation.ID o) = true) as Hs
          by (apply Hreg; eauto).
        congruence.
Qed.

Lemma visited_loop_inv todo done hc ic :
  vs = done ++ todo →
  visited_inv h Pl done hc ic →
  ∃ h' ids',
    for_each rename_visit todo (hc, ic) = Ok (h', ids')
    ∧ visited_inv h Pl vs h' ids'.
Proof.
  revert done hc ic.
  induction todo as [|[j l] todo IH]; intros done hc ic Hvs Hinv.
  - rewrite app_nil_r in Hvs. subst done. by exists hc, ic.
  - destruct (visited_step_inv done j l todo hc ic Hvs Hinv)
      as (hc' & ic' & Hstep & Hinv').
    destruct (IH (done ++ [(j, l)]) hc' ic') as (h' & ids' & Hrun & Hfin);
      [by rewrite <- app_assoc|done|].
    exists h', ids'. cbn [for_each]. rewrite Hstep. by simpl.
Qed.

End rename_rule.

(** X12.  When no operation is reached twice, [Mixin] renames an operation
    of an added path item exactly when, at that time, its identifier is
    that of an operation of the primary or of an operation visited before
    it, after the renaming of those; otherwise the operation keeps its
    identifier.  The operations are visited in the order of the mixins and,
    within one, in the order of the iteration over its paths. *)
Theorem Mixin_rename_rule h p ms :
  mixin_ready h p ms →
  NoDup (scanned_ops p ++ concat (scanned_ops <$> ms)) →
  ∃ h' p' c,
    Mixin h p ms = Ok (h', p', c)
    ∧ (∀ j l, (j, l) ∈ visits 0 p ms ↔
         ∃ m k v, ms !! j = Some m ∧ (k, v) ∈ paths_of m
           ∧ (k ∉ path_keys (foldl merge_doc p (take j ms)))
           ∧ l ∈ pathItemOps v)
    ∧ ∀ n j l id,
        visits 0 p ms !! n = Some (j, l) → op_id h l = Some id →
        (op_id h' l = Some id ∨ op_id h' l = Some (mixin_id id j))
        ∧ (op_id h' l = Some (mixin_id id j) ↔
             ∃ l0, l0 ∈ scanned_ops p ++ (take n (visits 0 p ms)).*2
                   ∧ op_id h' l0 = Some id).
Proof.
  intros Hready Hlocs.
  pose proof Hready as (Hp & Hps & Hwf & Ha).
  apply Forall_cons in Hwf as [_ Hwf].
  assert (scanned_ops p ++ (visits 0 p ms).*2
          `sublist_of` scanned_ops p ++ concat (scanned_ops <$> ms)) as Hsub.
  { apply sublist_app; [done|apply visits_sublist]. }
  destruct (getOpIds_spec h p) as (ids & Hget & Hids).
  { apply allocated_inv in Hp as (lp & ? & ? & ? & ->). simpl. eauto. }
  { intros l Hl. apply Ha, elem_of_app. by left. }
  destruct (visited_loop_inv h (scanned_ops p) (visits 0 p ms))
    with (todo := visits 0 p ms) (done := @nil (nat * loc)) (hc := h)
         (ic := ids)
    as (h' & ids' & Hrun & _ & _ & Hvis).
  - by eapply sublist_NoDup.
  - intros l Hl. apply Ha. by eapply elem_of_sublist.
  - done.
  - split; [|split; [done|]].
    + intros s. rewrite Hids. simpl. by rewrite app_nil_r.
    + intros n j l id Hn. by rewrite lookup_nil in Hn.
  - exists h', (foldl merge_doc p ms), (uint_of (clashes_docs p ms)).
    split; [|split].
    + rewrite Mixin_eq by done. rewrite Hget. simpl. rewrite Hrun. by simpl.
    + intros j l. rewrite elem_of_visits. split.
      * intros (j' & m & k & v & -> & ?). by exists m, k, v.
      * intros (m & k & v & ?). by exists j, m, k, v.
    + intros n j l id Hn Hid.
      destruct (Hvis n j l id Hn Hid) as [[Hr Hex]|[Hk Hno]].
      * split; [by right|]. by split.
      * split; [by left|]. split.
        -- intros Hr. rewrite Hk in Hr. injection Hr as Hr. symmetry in Hr.
           by apply mixin_id_neq in Hr.
        -- intros (l0 & Hl0 & Hid0). by apply Hno in Hid0.
Qed.

(** In the sample with colliding identifiers no operation is reached
    twice. *)
Lemma Mixin_rename_rule_witness :
  ∃ h' p' c,
    Mixin Sample.colliding_ops Sample.scenario_primary
          [Sample.colliding0; Sample.colliding1]
    = Ok (h', p', c)
    ∧ op_id h' 2%positive = Some "getAMixin0"
    ∧ op_id h' 3%positive = Some "getB".
Proof.
  destruct (Mixin_rename_rule Sample.colliding_ops Sample.scenario_primary
              [Sample.colliding0; Sample.colliding1])
    as (h' & p' & c & Hrun & _ & _); [by_computation|by_computation|].
  exists h', p', c. split; [exact Hrun|].
  vm_compute in Hrun. injection Hrun as <- _ _. by split.
Defined.

(** ** The renamed identifier *)

(** X13.  The renamed identifier determines the identifier it was made
    from and the index of the mixin, it differs from the identifier it was
    made from, and it ends in a decimal digit. *)
Theorem mixin_id_determines x i y j :
  (mixin_id x i = mixin_id y j → x = y ∧ i = j)
  ∧ mixin_id x i ≠ x
  ∧ ends_in_digit (mixin_id x i) = true.
Proof.
  split; [apply mixin_id_inj|]. split; [apply mixin_id_neq|].
  apply mixin_id_ends_in_digit.
Qed.

(** The identifier made from getA for the mixin 1. *)
Lemma mixin_id_determines_witness :
  mixin_id "getA" 1 = "getAMixin1"
  ∧ mixin_id "getA" 1 = mixin_id "getA" 1 ∧ "getA" = "getA" ∧ 1 = 1.
Proof.
  split; [reflexivity|]. split; [reflexivity|].
  exact (proj1 (mixin_id_determines "getA" 1 "getA" 1) eq_refl).
Defined.

(** ** What the registry holds *)

(** X14.  [getOpIds] fails on a nil [Paths] pointer; otherwise it returns
    the identifiers of the operations under the six scanned methods of the
    path items, each with the value true, and nothing else: the identifier
    of an operation under OPTIONS only is not in the registry, the empty
    identifier of an operation without one is. *)
Theorem getOpIds_registers h s :
  (Swagger.Paths s = None → getOpIds h s = Panic NilDeref)
  ∧ (is_Some (Swagger.Paths s) → ops_allocated h (scanned_ops s) →
     ∃ ids,
       getOpIds h s = Ok ids
       ∧ (∀ id, ids !! id = Some true ↔
                ∃ k v l, (k, v) ∈ paths_of s ∧ l ∈ pathItemOps v
                         ∧ op_id h l = Some id)
       ∧ (∀ id, ids !! id ≠ Some false)).
Proof.
  split.
  { intros Hnil. unfold getOpIds. by rewrite Hnil. }
  intros [ps Hps] Ha.
  destruct (getOpIds_spec h s) as (ids & Hrun & Hids); [by eauto|done|].
  assert (∀ id, ids !! id ≠ Some false) as Htrue.
  { rewrite (getOpIds_eq h s ps Hps) in Hrun.
    revert Hrun. generalize (scanned_ops s).
    intros ls Hrun.
    apply (for_each_inv (λ rv : gmap string bool, ∀ id, rv !! id ≠ Some false)
             (collect_op h) ls ∅ ids); [| |done].
    - intros l rv rv' _ Hrv. unfold collect_op, load.
      destruct (h_operation h !! l) as [o|]; simpl; [|done].
      intros [= <-] id. destruct (decide (Operation.ID o = id)) as [->|Hne].
      + by rewrite lookup_insert_eq.
      + rewrite lookup_insert_ne by done. apply Hrv.
    - intros id. by rewrite lookup_empty. }
  exists ids. split; [done|]. split; [|done].
  intros id. specialize (Hids id). unfold seen in Hids.
  assert (ids !! id = Some true ↔ default false (ids !! id) = true) as ->.
  { specialize (Htrue id). destruct (ids !! id) as [[]|]; simpl; split;
      done. }
  rewrite Hids. split.
  - intros (l & (k & v & Hkv & Hl)%elem_of_item_ops & Hid). by exists k, v, l.
  - intros (k & v & l & Hkv & Hl & Hid). exists l. split; [|done].
    apply elem_of_item_ops. by exists k, v.
Qed.

(** The registry of the sample primary has getA and has not getB. *)
Lemma getOpIds_registers_witness :
  ∃ ids,
    getOpIds Sample.ops Sample.primary = Ok ids
    ∧ ids !! "getA" = Some true ∧ ids !! "getB" = None.
Proof.
  destruct (proj2 (getOpIds_registers Sample.ops Sample.primary))
    as (ids & Hrun & _); [by eexists|by_computation|].
  exists ids. split; [exact Hrun|].
  vm_compute in Hrun. injection Hrun as <-. by split.
Defined.

(** ** One Responses object *)

(** X15.  [FixEmptyDesc] does nothing on nil.  [FixEmptyDescs] on a
    [Responses] object gives every response by status code that has no
    description and is no reference the description (empty), keeps the
    status codes and their order, and does the same to the default
    response if there is one; a nil map of status codes stays nil.  It
    writes nothing else, and a second call changes nothing. *)
Theorem FixEmptyDescs_contract h l r :
  h_responses h !! l = Some r → wf_responses h l →
  FixEmptyDesc h None = Ok h
  ∧ ∃ h',
      FixEmptyDescs h (Some l) = Ok h'
      ∧ FixEmptyDescs h' (Some l) = Ok h'
      ∧ h_operation h' = h_operation h
      ∧ h_responses h' !! l
        = Some (Responses.mk (Responses.Default r)
                  (fix_entries <$> Responses.StatusCodeResponses r))
      ∧ (∀ l', l' ≠ l → h_responses h' !! l' = h_responses h !! l')
      ∧ (∀ dl d, Responses.Default r = Some dl →
           h_response h !! dl = Some d →
           h_response h' !! dl = Some (FixEmptyDesc_val d))
      ∧ (∀ dl, Responses.Default r ≠ Some dl →
           h_response h' !! dl = h_response h !! dl)
      ∧ (∀ entries, Responses.StatusCodeResponses r = Some entries →
           (fix_entries entries).*1 = entries.*1
           ∧ Forall (λ kv, described kv.2) (fix_entries entries)
           ∧ ∀ k v, (k, v) ∈ entries → described v →
                    (k, v) ∈ fix_entries entries).
Proof.
  intros Hr Hwf. split; [done|].
  exists (repair_responses h l r).
  pose proof (repair_responses_settled h l r Hr Hwf) as Hset.
  pose proof (repair_responses_lookup h l r) as Hl.
  destruct (repair_responses_frame h l r) as [Hf1 Hf2].
  split; [by apply FixEmptyDescs_eq|]. split.
  { rewrite (FixEmptyDescs_eq _ l (fix_responses r)); [|done|].
    - f_equal. by apply repair_responses_id.
    - by apply settled_wf. }
  split; [by destruct (repair_responses_from h l r Hr)|].
  split; [done|]. split; [done|]. split; [|split; [done|]].
  - intros dl d Hdl Hd. unfold repair_responses. rewrite Hdl, Hd. simpl.
    by rewrite lookup_insert_eq.
  - intros entries _. split; [apply fix_entries_keys|]. split.
    + eapply Forall_impl; [apply fix_entries_settled|].
      intros kv. apply keeps_desc_described.
    + intros k v Hin Hdesc. unfold fix_entries. apply list_elem_of_fmap.
      exists (k, v). split; [|done]. simpl. f_equal. symmetry.
      apply FixEmptyDesc_val_kept. by apply keeps_desc_described.
Qed.

(** The [Responses] object of the sample to repair. *)
Lemma FixEmptyDescs_contract_witness :
  ∃ h',
    FixEmptyDescs Sample.to_repair (Some 20%positive) = Ok h'
    ∧ FixEmptyDescs h' (Some 20%positive) = Ok h'
    ∧ h_response h' !! 30%positive = Some (Response.mk "(empty)" None).
Proof.
  destruct (FixEmptyDescs_contract Sample.to_repair 20%positive
              (Responses.mk (Some 30%positive)
                 (Some [(200%Z, Response.mk "" None);
                        (404%Z, Response.mk "" (Some "#/responses/NotFound"));
                        (500%Z, Response.mk "boom" None)])))
    as (_ & h' & Hrun & Hagain & _ & _ & _ & Hdef & _);
    [reflexivity|by_computation|].
  exists h'. split; [exact Hrun|]. split; [exact Hagain|].
  exact (Hdef 30%positive (Response.mk "" None) eq_refl eq_refl).
Defined.

(** ** The mixin files *)

Section load_mixins_facts.
Variable loads_Spec : string → heap → heap * Swagger.t + error.

Lemma load_mixins_order files h acc h' ms :
  load_mixins loads_Spec files (h, acc) = inl (h', ms) →
  ∃ docs,
    ms = acc ++ docs ∧ length docs = length files
    ∧ ∀ i f, files !! i = Some f →
        ∃ h0 h1 d, docs !! i = Some d ∧ loads_Spec f h0 = inl (h1, d).
Proof.
  revert h acc. induction files as [|f files IH]; intros h acc.
  - intros [= <- <-]. exists []. rewrite app_nil_r. split; [done|].
    split; [done|]. intros i f Hi. by rewrite lookup_nil in Hi.
  - cbn [load_mixins]. simpl.
    destruct (loads_Spec f h) as [[h1 d]|err] eqn:Hload; [|done].
    intros (docs & -> & Hlen & Hdocs)%IH.
    exists (d :: docs). split; [by rewrite <- app_assoc|].
    split; [simpl; by rewrite Hlen|].
    intros [|i] f' Hi.
    + injection Hi as <-. by exists h, h1, d.
    + by apply Hdocs.
Qed.

(** X16.  The mixins are loaded in the order of the file names, one
    document for each name, so that a file named earlier has the higher
    priority in [Mixin]; the loop stops at the first file that does not
    load, with its error. *)
Theorem load_mixins_in_order files h :
  (∀ h' ms, load_mixins loads_Spec files (h, []) = inl (h', ms) →
     length ms = length files
     ∧ ∀ i f, files !! i = Some f →
         ∃ h0 h1 d, ms !! i = Some d ∧ loads_Spec f h0 = inl (h1, d))
  ∧ (∀ err, load_mixins loads_Spec files (h, []) = inr err →
       ∃ good bad rest st,
         files = good ++ bad :: rest
         ∧ load_mixins loads_Spec good (h, []) = inl st
         ∧ loads_Spec bad st.1 = inr err).
Proof.
  split.
  - intros h' ms (docs & -> & Hlen & Hdocs)%load_mixins_order. by split.
  - generalize (@nil Swagger.t). revert h.
    induction files as [|f files IH]; intros h acc err; [done|].
    cbn [load_mixins]. simpl.
    destruct (loads_Spec f h) as [[h1 d]|err'] eqn:Hload.
    + intros (good & bad & rest & st & -> & Hgood & Hbad)%IH.
      exists (f :: good), bad, rest, st. split; [done|].
      split; [|done]. cbn [load_mixins]. simpl. by rewrite Hload.
    + intros [= ->]. by exists [], f, files, (h, acc).
Qed.
End load_mixins_facts.

(** The sample files, the second one missing. *)
Lemma load_mixins_in_order_witness :
  (∃ ms, load_mixins Sample.files ["mixin0.yml"; "primary.yml"] (Heap ∅ ∅ ∅, [])
         = inl (Sample.loaded, ms)
         ∧ length ms = 2)
  ∧ ∃ good bad,
      load_mixins Sample.files ["mixin0.yml"; "missing.yml"] (Heap ∅ ∅ ∅, [])
      = inr "open missing.yml: no such file or directory"
      ∧ good ++ [bad] = ["mixin0.yml"; "missing.yml"].
Proof.
  split.
  - exists [Sample.mixin0; Sample.primary]. split; [reflexivity|].
    exact (proj1 (proj1 (load_mixins_in_order Sample.files
             ["mixin0.yml"; "primary.yml"] (Heap ∅ ∅ ∅)) _ _ eq_refl)).
  - exists ["mixin0.yml"], "missing.yml". split; reflexivity.
Defined.
